(** * GEMM accelerator: driver protocol and reference model

    A shallow embedding of
      - [software/driver/gemm_accel_driver.{h,c}]: the memory-mapped
        command/status protocol of the accelerator, and
      - [testbench/software_oracle/software_oracle.c]: the golden integer
        matrix multiply and the comparison harness,
    followed by the properties the specification states about them.

    Conventions.  C integers are [Z] with the wrap-around of their type
    written out ([uint32], [int32], ...).  The driver runs in a small state
    monad over the driver's globals, the register block and a log of
    everything observable (register accesses, cycle-counter samples, printed
    messages).  Busy-wait loops take a bound on the number of polls and
    yield [None] when the bound is exhausted. *)

From Stdlib Require Import ZArith Lia List Bool String.
From stdpp Require Import base option list list_numbers gmap.

Local Open Scope Z_scope.

(** ** Machine integers *)

(** Conversion to [uint32_t], [uint16_t], [uint8_t]: reduction modulo
    2^32, 2^16, 2^8. *)
Definition uint32 (z : Z) : Z := z mod 2 ^ 32.
Definition uint16 (z : Z) : Z := z mod 2 ^ 16.
Definition uint8 (z : Z) : Z := z mod 2 ^ 8.

(** Conversion to a signed [w]-bit integer: two's-complement wrap-around. *)
Definition sint (w : Z) (z : Z) : Z := (z + 2 ^ (w - 1)) mod 2 ^ w - 2 ^ (w - 1).

Definition int8 : Z → Z := sint 8.
Definition int16 : Z → Z := sint 16.
Definition int32 : Z → Z := sint 32.

(** ** The driver: [gemm_accel_driver.h] *)

Definition GEMM_ACCEL_BASE_ADDR : Z := 0x40000000.
Definition GEMM_CTRL_REG : Z := GEMM_ACCEL_BASE_ADDR + 0x00.
Definition GEMM_STATUS_REG : Z := GEMM_ACCEL_BASE_ADDR + 0x04.
Definition GEMM_MATRIX_A_ADDR_REG : Z := GEMM_ACCEL_BASE_ADDR + 0x08.
Definition GEMM_MATRIX_B_ADDR_REG : Z := GEMM_ACCEL_BASE_ADDR + 0x0C.
Definition GEMM_MATRIX_C_ADDR_REG : Z := GEMM_ACCEL_BASE_ADDR + 0x10.
Definition GEMM_M_DIM_REG : Z := GEMM_ACCEL_BASE_ADDR + 0x14.
Definition GEMM_K_DIM_REG : Z := GEMM_ACCEL_BASE_ADDR + 0x18.
Definition GEMM_N_DIM_REG : Z := GEMM_ACCEL_BASE_ADDR + 0x1C.
Definition GEMM_DATA_TYPE_REG : Z := GEMM_ACCEL_BASE_ADDR + 0x20.
Definition GEMM_STRIDE_A_REG : Z := GEMM_ACCEL_BASE_ADDR + 0x24.
Definition GEMM_STRIDE_B_REG : Z := GEMM_ACCEL_BASE_ADDR + 0x28.
Definition GEMM_STRIDE_C_REG : Z := GEMM_ACCEL_BASE_ADDR + 0x2C.

Definition GEMM_CTRL_START : Z := Z.shiftl 1 0.
Definition GEMM_CTRL_RESET : Z := Z.shiftl 1 1.
Definition GEMM_CTRL_IRQ_EN : Z := Z.shiftl 1 2.

Definition GEMM_STATUS_BUSY : Z := Z.shiftl 1 0.
Definition GEMM_STATUS_DONE : Z := Z.shiftl 1 1.
Definition GEMM_STATUS_ERROR : Z := Z.shiftl 1 2.

Definition GEMM_DATA_TYPE_INT8 : Z := 0.
Definition GEMM_DATA_TYPE_INT16 : Z := 1.

(** [gemm_config_t].  The fields hold the values of their C types: 32-bit
    addresses, 16-bit dimensions and strides, an 8-bit data type. *)
Record gemm_config_t := {
  matrix_a_addr : Z;
  matrix_b_addr : Z;
  matrix_c_addr : Z;
  m_dim : Z;
  k_dim : Z;
  n_dim : Z;
  data_type : Z;
  stride_a : Z;
  stride_b : Z;
  stride_c : Z
}.

(** A configuration is well typed when every field lies in the range of
    its C type. *)
Record config_wf (c : gemm_config_t) : Prop := {
  wf_a_addr : 0 ≤ matrix_a_addr c < 2 ^ 32;
  wf_b_addr : 0 ≤ matrix_b_addr c < 2 ^ 32;
  wf_c_addr : 0 ≤ matrix_c_addr c < 2 ^ 32;
  wf_m_dim : 0 ≤ m_dim c < 2 ^ 16;
  wf_k_dim : 0 ≤ k_dim c < 2 ^ 16;
  wf_n_dim : 0 ≤ n_dim c < 2 ^ 16;
  wf_data_type : 0 ≤ data_type c < 2 ^ 8;
  wf_stride_a : 0 ≤ stride_a c < 2 ^ 16;
  wf_stride_b : 0 ≤ stride_b c < 2 ^ 16;
  wf_stride_c : 0 ≤ stride_c c < 2 ^ 16
}.

(** ** The driver: observable events *)

(** What the driver prints; one constructor per [printf] of the source. *)
Inductive message :=
  | MsgInitialized                    (* "GEMM Accelerator initialized" *)
  | MsgNotInitialized                 (* "ERROR: Driver not initialized" *)
  | MsgNullConfig                     (* "ERROR: NULL configuration" *)
  | MsgBusy                           (* "ERROR: Accelerator is busy" *)
  | MsgInvalidDimensions              (* "ERROR: Invalid dimensions" *)
  | MsgInvalidDataType                (* "ERROR: Invalid data type" *)
  | MsgStarted (m k n : Z) (ty : string)
                                      (* "GEMM operation started: %dx%dx%d, type=%s" *)
  | MsgFailed                         (* "ERROR: GEMM operation failed" *)
  | MsgCompleted (printed : Z)        (* "GEMM operation completed in %d cycles" *)
  | MsgReset                          (* "GEMM Accelerator reset" *)
  | MsgExampleCompleted.              (* "GEMM example completed successfully" *)

Inductive event :=
  | EvRead (addr val : Z)             (* REG_READ(addr) returned val *)
  | EvWrite (addr val : Z)            (* REG_WRITE(addr, val) *)
  | EvCycles (val : Z)                (* gemm_accel_get_cycle_count() returned val *)
  | EvPrint (msg : message).

Definition is_write (e : event) : bool :=
  match e with EvWrite _ _ => true | _ => false end.

Definition is_access (e : event) : bool :=
  match e with EvRead _ _ | EvWrite _ _ => true | _ => false end.

(** The values returned by the reads of the status register, in order. *)
Definition status_reads_of (evs : list event) : list Z :=
  omap (λ e, match e with
             | EvRead a v => if a =? GEMM_STATUS_REG then Some v else None
             | _ => None
             end) evs.

(** ** The driver: state *)

(** The file-scope and function-scope statics of the driver, the register
    block as the processor sees it, and the accelerator as a black box: it
    is observed only through the status register, whose successive reads
    return [hw_status 0], [hw_status 1], ... whatever the hardware does in
    between.  [regs] holds the last value written to each register; a
    register never written reads as 0. *)
Record state := {
  driver_initialized : bool;
  cycle_count_start : Z;
  cycle_count : Z;
  regs : gmap Z Z;
  hw_status : nat → Z;
  status_polls : nat;
  trace : list event
}.

Definition log (e : event) (st : state) : state :=
  {| driver_initialized := driver_initialized st;
     cycle_count_start := cycle_count_start st;
     cycle_count := cycle_count st;
     regs := regs st;
     hw_status := hw_status st;
     status_polls := status_polls st;
     trace := trace st ++ [e] |}.

(** The value the status register presents at its next read. *)
Definition status_now (st : state) : Z := uint32 (hw_status st (status_polls st)).

(** Computations of the driver: state passing; [None] is a busy-wait that
    did not finish within its bound. *)
Definition drv (A : Type) : Type := state → option (A * state).

Definition ret {A} (a : A) : drv A := λ st, Some (a, st).

Definition bind {A B} (m : drv A) (k : A → drv B) : drv B := λ st,
  match m st with
  | Some (a, st') => k a st'
  | None => None
  end.

Declare Scope drv_scope.
Delimit Scope drv_scope with drv.
Bind Scope drv_scope with drv.
Notation "x <- m ;; k" := (bind m (λ x, k))
  (at level 100, m at next level, k at level 200, right associativity) : drv_scope.
Notation "m ;; k" := (bind m (λ _, k))
  (at level 100, k at level 200, right associativity) : drv_scope.
Local Open Scope drv_scope.

Definition printf (msg : message) : drv unit :=
  λ st, Some (tt, log (EvPrint msg) st).

(** [REG_READ(addr)]: a volatile 32-bit load. *)
Definition REG_READ (addr : Z) : drv Z := λ st,
  if addr =? GEMM_STATUS_REG then
    let v := status_now st in
    Some (v, log (EvRead addr v)
      {| driver_initialized := driver_initialized st;
         cycle_count_start := cycle_count_start st;
         cycle_count := cycle_count st;
         regs := regs st;
         hw_status := hw_status st;
         status_polls := S (status_polls st);
         trace := trace st |})
  else
    let v := uint32 (default 0 (regs st !! addr)) in
    Some (v, log (EvRead addr v) st).

(** [REG_WRITE(addr, val)]: a volatile 32-bit store. *)
Definition REG_WRITE (addr val : Z) : drv unit := λ st,
  Some (tt, log (EvWrite addr (uint32 val))
    {| driver_initialized := driver_initialized st;
       cycle_count_start := cycle_count_start st;
       cycle_count := cycle_count st;
       regs := <[addr := uint32 val]> (regs st);
       hw_status := hw_status st;
       status_polls := status_polls st;
       trace := trace st |}).

Definition get_driver_initialized : drv bool := λ st, Some (driver_initialized st, st).

Definition set_driver_initialized (b : bool) : drv unit := λ st,
  Some (tt, {| driver_initialized := b;
               cycle_count_start := cycle_count_start st;
               cycle_count := cycle_count st;
               regs := regs st;
               hw_status := hw_status st;
               status_polls := status_polls st;
               trace := trace st |}).

Definition get_cycle_count_start : drv Z := λ st, Some (cycle_count_start st, st).

Definition set_cycle_count_start (v : Z) : drv unit := λ st,
  Some (tt, {| driver_initialized := driver_initialized st;
               cycle_count_start := v;
               cycle_count := cycle_count st;
               regs := regs st;
               hw_status := hw_status st;
               status_polls := status_polls st;
               trace := trace st |}).

(** ** The driver: [gemm_accel_driver.c] *)

Definition gemm_accel_is_busy : drv bool :=
  v <- REG_READ GEMM_STATUS_REG;;
  ret (negb (Z.land v GEMM_STATUS_BUSY =? 0)).

Definition gemm_accel_is_done : drv bool :=
  v <- REG_READ GEMM_STATUS_REG;;
  ret (negb (Z.land v GEMM_STATUS_DONE =? 0)).

Definition gemm_accel_has_error : drv bool :=
  v <- REG_READ GEMM_STATUS_REG;;
  ret (negb (Z.land v GEMM_STATUS_ERROR =? 0)).

(** [while (gemm_accel_is_busy()) { }], giving up after [fuel] polls. *)
Fixpoint wait_while_busy (fuel : nat) : drv unit :=
  match fuel with
  | O => λ _, None
  | S fuel' =>
      busy <- gemm_accel_is_busy;;
      if busy then wait_while_busy fuel' else ret tt
  end.

(** The counter is a placeholder in the source: a function-scope static
    that advances by 100 at every call. *)
Definition gemm_accel_get_cycle_count : drv Z := λ st,
  let c := uint32 (cycle_count st + 100) in
  Some (c, log (EvCycles c)
    {| driver_initialized := driver_initialized st;
       cycle_count_start := cycle_count_start st;
       cycle_count := c;
       regs := regs st;
       hw_status := hw_status st;
       status_polls := status_polls st;
       trace := trace st |}).

Definition gemm_accel_reset (fuel : nat) : drv unit :=
  REG_WRITE GEMM_CTRL_REG GEMM_CTRL_RESET;;
  wait_while_busy fuel;;
  printf MsgReset.

Definition gemm_accel_init (fuel : nat) : drv Z :=
  initialized <- get_driver_initialized;;
  if initialized then ret 0
  else
    gemm_accel_reset fuel;;
    wait_while_busy fuel;;
    set_driver_initialized true;;
    printf MsgInitialized;;
    ret 0.

(** A [const gemm_config_t*]: [None] is the NULL pointer. *)
Definition gemm_accel_start (config : option gemm_config_t) : drv Z :=
  initialized <- get_driver_initialized;;
  if negb initialized then printf MsgNotInitialized;; ret (-1)
  else
    match config with
    | None => printf MsgNullConfig;; ret (-1)
    | Some config =>
        busy <- gemm_accel_is_busy;;
        if busy then printf MsgBusy;; ret (-1)
        else if (m_dim config =? 0) || (k_dim config =? 0) || (n_dim config =? 0)
        then printf MsgInvalidDimensions;; ret (-1)
        else if GEMM_DATA_TYPE_INT16 <? data_type config
        then printf MsgInvalidDataType;; ret (-1)
        else
          REG_WRITE GEMM_MATRIX_A_ADDR_REG (matrix_a_addr config);;
          REG_WRITE GEMM_MATRIX_B_ADDR_REG (matrix_b_addr config);;
          REG_WRITE GEMM_MATRIX_C_ADDR_REG (matrix_c_addr config);;
          REG_WRITE GEMM_M_DIM_REG (m_dim config);;
          REG_WRITE GEMM_K_DIM_REG (k_dim config);;
          REG_WRITE GEMM_N_DIM_REG (n_dim config);;
          REG_WRITE GEMM_DATA_TYPE_REG (data_type config);;
          REG_WRITE GEMM_STRIDE_A_REG (stride_a config);;
          REG_WRITE GEMM_STRIDE_B_REG (stride_b config);;
          REG_WRITE GEMM_STRIDE_C_REG (stride_c config);;
          REG_WRITE GEMM_CTRL_REG GEMM_CTRL_START;;
          start <- gemm_accel_get_cycle_count;;
          set_cycle_count_start start;;
          printf (MsgStarted (m_dim config) (k_dim config) (n_dim config)
                    (if data_type config =? GEMM_DATA_TYPE_INT8
                     then "int8"%string else "int16"%string));;
          ret 0
    end.

(** [total_cycles] is a [uint32_t] that the message prints with [%d]: the
    number that appears is its 32 bits read as an [int], negative from
    2^31 on. *)
Definition gemm_accel_wait (fuel : nat) : drv Z :=
  initialized <- get_driver_initialized;;
  if negb initialized then printf MsgNotInitialized;; ret (-1)
  else
    wait_while_busy fuel;;
    error <- gemm_accel_has_error;;
    if error then printf MsgFailed;; ret (-1)
    else
      cycle_count_end <- gemm_accel_get_cycle_count;;
      start <- get_cycle_count_start;;
      let total_cycles := uint32 (cycle_count_end - start) in
      printf (MsgCompleted (int32 total_cycles));;
      ret 0.

Definition gemm_accel_status : drv Z :=
  initialized <- get_driver_initialized;;
  if negb initialized then ret (-1)
  else
    status <- REG_READ GEMM_STATUS_REG;;
    if negb (Z.land status GEMM_STATUS_ERROR =? 0) then ret (-1)
    else if negb (Z.land status GEMM_STATUS_DONE =? 0) then ret 1
    else if negb (Z.land status GEMM_STATUS_BUSY =? 0) then ret 0
    else ret 2.

(** [~GEMM_CTRL_IRQ_EN] is computed on [int] and converted to [uint32_t]
    by the compound assignment. *)
Definition gemm_accel_set_interrupt_enable (enable : bool) : drv unit :=
  ctrl <- REG_READ GEMM_CTRL_REG;;
  let ctrl := if enable then Z.lor ctrl GEMM_CTRL_IRQ_EN
              else Z.land ctrl (uint32 (Z.lnot GEMM_CTRL_IRQ_EN)) in
  REG_WRITE GEMM_CTRL_REG ctrl.

(** The arguments are converted to the types of the parameters. *)
Definition gemm_create_config
    (matrix_a_addr matrix_b_addr matrix_c_addr m_dim k_dim n_dim data_type
     stride_a stride_b stride_c : Z) : gemm_config_t :=
  {| matrix_a_addr := uint32 matrix_a_addr;
     matrix_b_addr := uint32 matrix_b_addr;
     matrix_c_addr := uint32 matrix_c_addr;
     m_dim := uint16 m_dim;
     k_dim := uint16 k_dim;
     n_dim := uint16 n_dim;
     data_type := uint8 data_type;
     stride_a := uint16 stride_a;
     stride_b := uint16 stride_b;
     stride_c := uint16 stride_c |}.

Definition gemm_example (fuel : nat) : drv Z :=
  r <- gemm_accel_init fuel;;
  if negb (r =? 0) then ret (-1)
  else
    let matrix_a_addr := 0x80000000 in
    let matrix_b_addr := 0x80001000 in
    let matrix_c_addr := 0x80002000 in
    let config :=
      gemm_create_config matrix_a_addr matrix_b_addr matrix_c_addr
        8 8 8 GEMM_DATA_TYPE_INT8 8 8 8 in
    r <- gemm_accel_start (Some config);;
    if negb (r =? 0) then ret (-1)
    else
      r <- gemm_accel_wait fuel;;
      if negb (r =? 0) then ret (-1)
      else
        printf MsgExampleCompleted;;
        ret 0.

(** ** The reference model: [software_oracle.c] *)

(** [int] arithmetic: the result of the operation on a 32-bit
    two's-complement machine. *)
Definition int_add (a b : Z) : Z := int32 (a + b).
Definition int_sub (a b : Z) : Z := int32 (a - b).
Definition int_mul (a b : Z) : Z := int32 (a * b).

(** A pointer to a buffer of integers is the content of the cells at each
    element offset from it.  The cells are read through the element type
    of the pointer. *)
Definition store (buf : Z → Z) (i v : Z) : Z → Z :=
  λ j, if j =? i then v else buf j.

(** [for (int i = 0; i < n; i++) body]: the body at 0, 1, ..., n-1. *)
Definition for_loop {S : Type} (n : Z) (body : Z → S → S) (s : S) : S :=
  foldl (λ s i, body i s) s (seqZ 0 n).

Definition matrix_multiply_int8 (A B C : Z → Z)
    (M K N stride_a stride_b stride_c : Z) : Z → Z :=
  for_loop M (λ m C,
    for_loop N (λ n C,
      let sum :=
        for_loop K (λ k sum,
          int_add sum
            (int_mul (int8 (A (int_add (int_mul m stride_a) k)))
                     (int8 (B (int_add (int_mul k stride_b) n))))) 0 in
      store C (int_add (int_mul m stride_c) n) sum) C) C.

Definition matrix_multiply_int16 (A B C : Z → Z)
    (M K N stride_a stride_b stride_c : Z) : Z → Z :=
  for_loop M (λ m C,
    for_loop N (λ n C,
      let sum :=
        for_loop K (λ k sum,
          int_add sum
            (int_mul (int16 (A (int_add (int_mul m stride_a) k)))
                     (int16 (B (int_add (int_mul k stride_b) n))))) 0 in
      store C (int_add (int_mul m stride_c) n) sum) C) C.

(** What the harness prints; one constructor per [printf] of the source. *)
Inductive out_line :=
  | OutTitle                          (* "Software Oracle for GEMM Accelerator Verification" *)
  | OutRule                           (* "====...====" *)
  | OutTest (t : Z) (name : string)   (* "Test %d: %s" *)
  | OutMismatch (i hw ref : Z)        (* "Error at index %d: HW=%d, REF=%d" *)
  | OutErrors (errors : Z)            (* "Errors: %d" *)
  | OutTotal (total_errors : Z)       (* "Total errors: %d" *)
  | OutPassed                         (* "All tests PASSED!" *)
  | OutFailed.                        (* "Some tests FAILED!" *)

Definition compare_results (C_hw C_ref : Z → Z) (M N : Z) : Z * list out_line :=
  for_loop (int_mul M N) (λ i '(errors, out),
    if negb (int32 (C_hw i) =? int32 (C_ref i))
    then (int_add errors 1,
          out ++ [OutMismatch i (int32 (C_hw i)) (int32 (C_ref i))])
    else (errors, out)) (0, []).

(** [test_case_t]; the fields [M], [K], [N], [data_type], [name]. *)
Record test_case_t := {
  tc_M : Z;
  tc_K : Z;
  tc_N : Z;
  tc_data_type : Z;
  tc_name : string
}.

#[global] Instance test_case_inhabited : Inhabited test_case_t :=
  populate {| tc_M := 0; tc_K := 0; tc_N := 0; tc_data_type := 0; tc_name := "" |}.

Definition test_cases : list test_case_t := [
  {| tc_M := 8; tc_K := 8; tc_N := 8; tc_data_type := 0; tc_name := "8x8x8 int8" |};
  {| tc_M := 16; tc_K := 16; tc_N := 16; tc_data_type := 0; tc_name := "16x16x16 int8" |};
  {| tc_M := 32; tc_K := 32; tc_N := 32; tc_data_type := 0; tc_name := "32x32x32 int8" |};
  {| tc_M := 8; tc_K := 8; tc_N := 8; tc_data_type := 1; tc_name := "8x8x8 int16" |};
  {| tc_M := 16; tc_K := 16; tc_N := 16; tc_data_type := 1; tc_name := "16x16x16 int16" |};
  {| tc_M := 32; tc_K := 32; tc_N := 32; tc_data_type := 1; tc_name := "32x32x32 int16" |};
  {| tc_M := 64; tc_K := 64; tc_N := 64; tc_data_type := 0; tc_name := "64x64x64 int8" |};
  {| tc_M := 128; tc_K := 128; tc_N := 128; tc_data_type := 0; tc_name := "128x128x128 int8" |}
].

(** [memset(buf, 0, n * sizeof(int32_t))] on a buffer of [int32_t]. *)
Definition memset_zero (buf : Z → Z) (n : Z) : Z → Z :=
  λ j, if (0 <=? j) && (j <? n) then 0 else buf j.

Section Harness.

(** The C library: [rand i] is what the [i]-th call of [rand()] returns
    ([main] never seeds the generator), and [malloc_junk] is the
    indeterminate content of a block fresh from [malloc]. *)
Variable rand : nat → Z.
Variable malloc_junk : Z → Z.

(** The second loop converts through [int16_t] before the store into an
    [int8_t] cell, as the source does. *)
Definition generate_test_matrices_int8 (A B : Z → Z) (M K N : Z) (calls : nat)
    : (Z → Z) * (Z → Z) * nat :=
  let '(A, calls) :=
    for_loop (int_mul M K) (λ i '(A, calls),
      (store A i (int8 (int_sub (Z.rem (rand calls) 256) 128)), S calls))
      (A, calls) in
  let '(B, calls) :=
    for_loop (int_mul K N) (λ i '(B, calls),
      (store B i (int8 (int16 (int_sub (Z.rem (rand calls) 256) 128))), S calls))
      (B, calls) in
  (A, B, calls).

Definition generate_test_matrices_int16 (A B : Z → Z) (M K N : Z) (calls : nat)
    : (Z → Z) * (Z → Z) * nat :=
  let '(A, calls) :=
    for_loop (int_mul M K) (λ i '(A, calls),
      (store A i (int16 (int_sub (Z.rem (rand calls) 65536) 32768)), S calls))
      (A, calls) in
  let '(B, calls) :=
    for_loop (int_mul K N) (λ i '(B, calls),
      (store B i (int16 (int_sub (Z.rem (rand calls) 65536) 32768)), S calls))
      (B, calls) in
  (A, B, calls).

(** The body of the loop of [main] for test number [t]: the state is the
    running total, the number of calls of [rand()] so far and the output. *)
Definition main_body (t : Z) (st : Z * nat * list out_line)
    : Z * nat * list out_line :=
  let '(total_errors, calls, out) := st in
  let tc := test_cases !!! Z.to_nat t in
  let out := out ++ [OutTest (t + 1) (tc_name tc)] in
  if tc_data_type tc =? 0 then
    let A := malloc_junk in
    let B := malloc_junk in
    let C_hw := malloc_junk in
    let C_ref := malloc_junk in
    let '(A, B, calls) :=
      generate_test_matrices_int8 A B (tc_M tc) (tc_K tc) (tc_N tc) calls in
    let C_ref :=
      matrix_multiply_int8 A B C_ref (tc_M tc) (tc_K tc) (tc_N tc)
        (tc_K tc) (tc_N tc) (tc_N tc) in
    let C_hw := memset_zero C_hw (tc_M tc * tc_N tc) in
    let '(errors, lines) := compare_results C_hw C_ref (tc_M tc) (tc_N tc) in
    let total_errors := int_add total_errors errors in
    (total_errors, calls, out ++ lines ++ [OutErrors errors])
  else
    let A := malloc_junk in
    let B := malloc_junk in
    let C_hw := malloc_junk in
    let C_ref := malloc_junk in
    let '(A, B, calls) :=
      generate_test_matrices_int16 A B (tc_M tc) (tc_K tc) (tc_N tc) calls in
    let C_ref :=
      matrix_multiply_int16 A B C_ref (tc_M tc) (tc_K tc) (tc_N tc)
        (tc_K tc) (tc_N tc) (tc_N tc) in
    let C_hw := memset_zero C_hw (tc_M tc * tc_N tc) in
    let '(errors, lines) := compare_results C_hw C_ref (tc_M tc) (tc_N tc) in
    let total_errors := int_add total_errors errors in
    (total_errors, calls, out ++ lines ++ [OutErrors errors]).

(** [main]: the value it returns and what it prints. *)
Definition main : Z * list out_line :=
  let out := [OutTitle; OutRule] in
  let num_tests := Z.of_nat (length test_cases) in
  let '(total_errors, _, out) := for_loop num_tests main_body (0, 0%nat, out) in
  let out := out ++ [OutRule; OutTotal total_errors] in
  let out := out ++ (if total_errors =? 0 then [OutPassed] else [OutFailed]) in
  (total_errors, out).

End Harness.

(** ** The kernel glue: [tflite_gemm_kernel.cpp] *)

(** [TfLiteStatus], as far as the kernel uses it. *)
Inductive TfLiteStatus := kTfLiteOk | kTfLiteError.

Section TfLiteKernel.

(** From the headers of TensorFlow Lite, which are not part of the
    repository: the type of the tensor type codes, with its equality, and
    the two codes the kernel knows. *)
Context {TfLiteType : Type} `{EqDecision TfLiteType}.
Variable kTfLiteInt8 : TfLiteType.
Variable kTfLiteInt16 : TfLiteType.

(** What the kernel reads of a [TfLiteTensor]: its type, the address of
    its data and its shape; [RuntimeShape::DimensionsCount()] is the length
    of the shape and [RuntimeShape::Dims(i)] its [i]-th entry, an [int]. *)
Record TfLiteTensor := {
  tensor_type : TfLiteType;
  tensor_data : Z;
  tensor_dims : list Z
}.

(** [Dims(i)] is defined only below [DimensionsCount()]. *)
Definition Dims (shape : list Z) (i : nat) : option Z := shape !! i.

(** What the kernel prints with [MicroPrintf]. *)
Inductive micro_message :=
  | MicroValidationFailed             (* "Tensor validation failed" *)
  | MicroDimensions (m k n : Z)       (* "GEMM dimensions: %dx%dx%d" *)
  | MicroInitFailed                   (* "Failed to initialize GEMM accelerator" *)
  | MicroStartFailed                  (* "Failed to start GEMM operation" *)
  | MicroOperationFailed              (* "GEMM operation failed" *)
  | MicroCompleted                    (* "GEMM operation completed successfully" *)
  | MicroTypesMustMatch               (* "Input tensor types must match" *)
  | MicroUnsupportedType (t : TfLiteType)
                                      (* "Unsupported tensor type: %d" *)
  | MicroInputANot2D                  (* "Input A must be 2D tensor" *)
  | MicroInputBNot2D                  (* "Input B must be 2D tensor" *)
  | MicroOutputNot2D                  (* "Output must be 2D tensor" *)
  | MicroInnerMismatch (k_a k_b : Z)  (* "Inner dimensions must match: %d != %d" *)
  | MicroOutputMismatch.              (* "Output dimensions mismatch" *)

(** [ValidateTensors]: the status and what was printed.  A tensor pointer
    is [None] when null.  The dimensions are read after the three shapes
    are known to be two-dimensional, so the reads are defined. *)
Definition ValidateTensors (input_a input_b output : option TfLiteTensor)
    : TfLiteStatus * list micro_message :=
  match input_a, input_b, output with
  | Some input_a, Some input_b, Some output =>
      if negb (bool_decide (tensor_type input_a = tensor_type input_b))
      then (kTfLiteError, [MicroTypesMustMatch])
      else if negb (bool_decide (tensor_type input_a = kTfLiteInt8)) &&
              negb (bool_decide (tensor_type input_a = kTfLiteInt16))
      then (kTfLiteError, [MicroUnsupportedType (tensor_type input_a)])
      else
        let input_a_shape := tensor_dims input_a in
        let input_b_shape := tensor_dims input_b in
        let output_shape := tensor_dims output in
        if negb (length input_a_shape =? 2)%nat
        then (kTfLiteError, [MicroInputANot2D])
        else if negb (length input_b_shape =? 2)%nat
        then (kTfLiteError, [MicroInputBNot2D])
        else if negb (length output_shape =? 2)%nat
        then (kTfLiteError, [MicroOutputNot2D])
        else
          match Dims input_a_shape 0, Dims input_a_shape 1,
                Dims input_b_shape 0, Dims input_b_shape 1,
                Dims output_shape 0, Dims output_shape 1 with
          | Some m, Some k_a, Some k_b, Some n, Some out0, Some out1 =>
              if negb (k_a =? k_b)
              then (kTfLiteError, [MicroInnerMismatch k_a k_b])
              else if negb (out0 =? m) || negb (out1 =? n)
              then (kTfLiteError, [MicroOutputMismatch])
              else (kTfLiteOk, [])
          | _, _, _, _, _, _ => (kTfLiteError, [])
          end
  | _, _, _ => (kTfLiteError, [])
  end.

(** [ConvertToAccelConfig]; its fourth argument [params] is not used.  The
    addresses are converted to [uint32_t] and the dimensions, which are
    [int], to [uint16_t].  [None] when a dimension read is not defined. *)
Definition ConvertToAccelConfig (input_a input_b output : TfLiteTensor)
    : option gemm_config_t :=
  let input_a_shape := tensor_dims input_a in
  let input_b_shape := tensor_dims input_b in
  d0 ← Dims input_a_shape 0;
  d1 ← Dims input_a_shape 1;
  d2 ← Dims input_b_shape 1;
  let m_dim := uint16 d0 in
  let k_dim := uint16 d1 in
  let n_dim := uint16 d2 in
  let data_type :=
    if bool_decide (tensor_type input_a = kTfLiteInt8) then GEMM_DATA_TYPE_INT8
    else if bool_decide (tensor_type input_a = kTfLiteInt16) then GEMM_DATA_TYPE_INT16
    else GEMM_DATA_TYPE_INT8 in
  Some {| matrix_a_addr := uint32 (tensor_data input_a);
          matrix_b_addr := uint32 (tensor_data input_b);
          matrix_c_addr := uint32 (tensor_data output);
          m_dim := m_dim;
          k_dim := k_dim;
          n_dim := n_dim;
          data_type := data_type;
          stride_a := k_dim;
          stride_b := n_dim;
          stride_c := n_dim |}.

(** The kernel has a static of its own, [accel_initialized], beside the
    statics of the driver, and its own log. *)
Record kernel_state := {
  accel_initialized : bool;
  micro_log : list micro_message;
  driver : state
}.

Definition MicroPrintf (msgs : list micro_message) (ks : kernel_state) : kernel_state :=
  {| accel_initialized := accel_initialized ks;
     micro_log := micro_log ks ++ msgs;
     driver := driver ks |}.

Definition with_driver (d : state) (ks : kernel_state) : kernel_state :=
  {| accel_initialized := accel_initialized ks;
     micro_log := micro_log ks;
     driver := d |}.

Definition set_accel_initialized (ks : kernel_state) : kernel_state :=
  {| accel_initialized := true;
     micro_log := micro_log ks;
     driver := driver ks |}.

(** [EvalCustomGemm], on the tensors that [GetInput] and [GetOutput] hand
    out.  [None] is a busy-wait of the driver that did not finish within
    its bound, or a dimension read that is not defined. *)
Definition EvalCustomGemm (fuel : nat) (input_a input_b output : option TfLiteTensor)
    (ks : kernel_state) : option (TfLiteStatus * kernel_state) :=
  let '(status, msgs) := ValidateTensors input_a input_b output in
  let ks := MicroPrintf msgs ks in
  match status with
  | kTfLiteError => Some (status, MicroPrintf [MicroValidationFailed] ks)
  | kTfLiteOk =>
      a ← input_a; b ← input_b; c ← output;
      m ← Dims (tensor_dims a) 0;
      k ← Dims (tensor_dims a) 1;
      n ← Dims (tensor_dims b) 1;
      let ks := MicroPrintf [MicroDimensions m k n] ks in
      config ← ConvertToAccelConfig a b c;
      '(failed, ks) ←
        (if negb (accel_initialized ks) then
           '(r, d) ← gemm_accel_init fuel (driver ks);
           if negb (r =? 0)
           then Some (true, MicroPrintf [MicroInitFailed] (with_driver d ks))
           else Some (false, set_accel_initialized (with_driver d ks))
         else Some (false, ks));
      if (failed : bool) then Some (kTfLiteError, ks)
      else
        '(r, d) ← gemm_accel_start (Some config) (driver ks);
        let ks := with_driver d ks in
        if negb (r =? 0)
        then Some (kTfLiteError, MicroPrintf [MicroStartFailed] ks)
        else
          '(r, d) ← gemm_accel_wait fuel (driver ks);
          let ks := with_driver d ks in
          if negb (r =? 0)
          then Some (kTfLiteError, MicroPrintf [MicroOperationFailed] ks)
          else Some (kTfLiteOk, MicroPrintf [MicroCompleted] ks)
  end.

End TfLiteKernel.

(** ** Vocabulary of the statements *)

(** The status bits as the hardware documents them. *)
Definition busy_bit (status : Z) : bool := Z.testbit status 0.
Definition done_bit (status : Z) : bool := Z.testbit status 1.
Definition error_bit (status : Z) : bool := Z.testbit status 2.

(** The answer of [gemm_accel_status] for a value of the status register:
    -1 error, 1 done, 0 busy, 2 idle. *)
Definition status_code (status : Z) : Z :=
  if error_bit status then -1
  else if done_bit status then 1
  else if busy_bit status then 0
  else 2.

(** The 32-bit value a register of the block holds. *)
Definition reg_value (st : state) (addr : Z) : Z :=
  uint32 (default 0 (regs st !! addr)).

(** The value of the status register at its [i]-th read from now. *)
Definition status_at (st : state) (i : nat) : Z :=
  uint32 (hw_status st (status_polls st + i)%nat).

(** The state after one read, and after [n] reads, of the status register. *)
Definition poll (st : state) : state :=
  {| driver_initialized := driver_initialized st;
     cycle_count_start := cycle_count_start st;
     cycle_count := cycle_count st;
     regs := regs st;
     hw_status := hw_status st;
     status_polls := S (status_polls st);
     trace := trace st ++ [EvRead GEMM_STATUS_REG (status_now st)] |}.

Fixpoint polls (n : nat) (st : state) : state :=
  match n with
  | O => st
  | S n' => polls n' (poll st)
  end.

(** The events of [n] successive reads of the status register. *)
Definition poll_events (st : state) (n : nat) : list event :=
  (λ i, EvRead GEMM_STATUS_REG (status_at st i)) <$> seq 0 n.

(** The events a call appended to the log. *)
Definition appended (st st' : state) (evs : list event) : Prop :=
  trace st' = trace st ++ evs.

(** The sum of [f k] over [0 <= k < K], in the integers. *)
Definition sumZ (K : Z) (f : Z → Z) : Z := foldr Z.add 0 (f <$> seqZ 0 K).

(** The cells [(m, n)] of an [M] x [N] matrix, row by row. *)
Definition cells (M N : Z) : list (Z * Z) :=
  seqZ 0 M ≫= λ m, (λ n, (m, n)) <$> seqZ 0 N.

(** Cell [(m, n)] comes before cell [(m', n')] in that order. *)
Definition cell_before (c c' : Z * Z) : Prop :=
  c.1 < c'.1 ∨ (c.1 = c'.1 ∧ c.2 < c'.2).

(** A sequence of stores [(offset, value)] applied to a buffer, first to
    last. *)
Definition store_all (C : Z → Z) (stores : list (Z * Z)) : Z → Z :=
  foldl (λ C s, store C s.1 s.2) C stores.

(** The product of row [m] of [A] by column [n] of [B], in the integers;
    [elem] reads a cell through the element type, and the offsets are the
    [int] values of [m * stride_a + k] and [k * stride_b + n]. *)
Definition dot (elem : Z → Z) (A B : Z → Z) (K stride_a stride_b m n : Z) : Z :=
  sumZ K (λ k, elem (A (int32 (m * stride_a + k))) * elem (B (int32 (k * stride_b + n)))).

(** The store the reference model owes to cell [(m, n)]: the product
    reduced to 32 bits, at the [int] value of [m * stride_c + n]. *)
Definition cell_store (elem : Z → Z) (A B : Z → Z)
    (K stride_a stride_b stride_c : Z) (c : Z * Z) : Z * Z :=
  (int32 (c.1 * stride_c + c.2), int32 (dot elem A B K stride_a stride_b c.1 c.2)).

(** The offsets below [n] at which two [int32_t] buffers differ. *)
Definition mismatches (C_hw C_ref : Z → Z) (n : Z) : list Z :=
  filter (λ i, int32 (C_hw i) ≠ int32 (C_ref i)) (seqZ 0 n).

Definition mismatch_count (C_hw C_ref : Z → Z) (n : Z) : Z :=
  Z.of_nat (length (mismatches C_hw C_ref n)).

(** A buffer holding the given values from offset 0 on. *)
Definition buffer_of (l : list Z) : Z → Z :=
  λ i, if 0 <=? i then default 0 (l !! Z.to_nat i) else 0.

(** The cells of a buffer at offsets [0 .. n-1]. *)
Definition contents (C : Z → Z) (n : Z) : list Z := C <$> seqZ 0 n.

Section HarnessCases.

Variable rand : nat → Z.
Variable malloc_junk : Z → Z.

(** The two buffers [main] compares for a test case that starts after
    [calls] calls of [rand()], and the number of calls after it. *)
Definition case_buffers (tc : test_case_t) (calls : nat)
    : (Z → Z) * (Z → Z) * nat :=
  if tc_data_type tc =? 0 then
    let '(A, B, calls') :=
      generate_test_matrices_int8 rand malloc_junk malloc_junk
        (tc_M tc) (tc_K tc) (tc_N tc) calls in
    (memset_zero malloc_junk (tc_M tc * tc_N tc),
     matrix_multiply_int8 A B malloc_junk (tc_M tc) (tc_K tc) (tc_N tc)
       (tc_K tc) (tc_N tc) (tc_N tc),
     calls')
  else
    let '(A, B, calls') :=
      generate_test_matrices_int16 rand malloc_junk malloc_junk
        (tc_M tc) (tc_K tc) (tc_N tc) calls in
    (memset_zero malloc_junk (tc_M tc * tc_N tc),
     matrix_multiply_int16 A B malloc_junk (tc_M tc) (tc_K tc) (tc_N tc)
       (tc_K tc) (tc_N tc) (tc_N tc),
     calls').

(** The number of mismatching offsets of each test case, in order. *)
Fixpoint case_counts (tcs : list test_case_t) (calls : nat) : list Z :=
  match tcs with
  | [] => []
  | tc :: tcs' =>
      let '(C_hw, C_ref, calls') := case_buffers tc calls in
      mismatch_count C_hw C_ref (tc_M tc * tc_N tc) :: case_counts tcs' calls'
  end.

End HarnessCases.

(** The sum of a list of integers. *)
Definition total_of (l : list Z) : Z := foldr Z.add 0 l.

(** The number of output cells of a list of test cases. *)
Definition cells_of (tcs : list test_case_t) : Z :=
  total_of ((λ tc, Z.max 0 (tc_M tc * tc_N tc)) <$> tcs).

(** ** Example inputs *)

(** The driver before [gemm_accel_init], with nothing logged yet, in
    front of an accelerator that presents the given status values at the
    successive reads. *)
Definition st_reset (hw : nat → Z) : state :=
  {| driver_initialized := false;
     cycle_count_start := 0;
     cycle_count := 0;
     regs := ∅;
     hw_status := hw;
     status_polls := 0;
     trace := [] |}.

(** An initialized driver whose accelerator presents the given status
    values at the successive reads. *)
Definition st_ready (hw : nat → Z) : state :=
  {| driver_initialized := true;
     cycle_count_start := 0;
     cycle_count := 0;
     regs := {[ GEMM_CTRL_REG := GEMM_CTRL_IRQ_EN ]};
     hw_status := hw;
     status_polls := 0;
     trace := [] |}.

Definition hw_idle : nat → Z := λ _, 0.
Definition hw_busy : nat → Z := λ _, GEMM_STATUS_BUSY.

(** Idle while the driver initializes and starts (three reads), busy at
    the next two reads, then done. *)
Definition hw_example : nat → Z :=
  λ i, if (i <? 3)%nat then 0
       else if (i <? 5)%nat then GEMM_STATUS_BUSY
       else GEMM_STATUS_DONE.

(** Idle at the first read, busy at the next two, then done; the same
    ending in an error. *)
Definition hw_run : nat → Z :=
  λ i, if (i <? 1)%nat then 0
       else if (i <? 3)%nat then GEMM_STATUS_BUSY
       else GEMM_STATUS_DONE.

Definition hw_run_error : nat → Z :=
  λ i, if (i <? 1)%nat then 0
       else if (i <? 3)%nat then GEMM_STATUS_BUSY
       else GEMM_STATUS_ERROR.

(** The configuration of [gemm_example]: an 8x8x8 int8 product. *)
Definition cfg_example : gemm_config_t :=
  gemm_create_config 0x80000000 0x80001000 0x80002000
    8 8 8 GEMM_DATA_TYPE_INT8 8 8 8.

(** The same with [k_dim = 0]. *)
Definition cfg_k0 : gemm_config_t :=
  gemm_create_config 0x80000000 0x80001000 0x80002000
    8 0 8 GEMM_DATA_TYPE_INT8 8 8 8.

(** The literal scenario of the specification: A = [[1,2],[3,4]] and
    B = [[5,6],[7,8]], row after row. *)
Definition A_literal : Z → Z := buffer_of [1; 2; 3; 4].
Definition B_literal : Z → Z := buffer_of [5; 6; 7; 8].
Definition zero_buffer : Z → Z := λ _, 0.

(** The same matrices as the top-left corner of wider storage: rows of
    pitch 3 for A and of pitch 4 for B. *)
Definition A_wide : Z → Z := buffer_of [1; 2; 99; 3; 4; 99].
Definition B_wide : Z → Z := buffer_of [5; 6; 99; 99; 7; 8; 99; 99].

(** Two buffers that differ at offsets 1 and 3. *)
Definition C_hw_example : Z → Z := buffer_of [1; 2; 3; 4].
Definition C_ref_example : Z → Z := buffer_of [1; 0; 3; 5].

(** The driver of [st_ready hw] after [gemm_accel_start] on the
    configuration of [gemm_example]. *)
Definition st_started (hw : nat → Z) : state :=
  match gemm_accel_start (Some cfg_example) (st_ready hw) with
  | Some (_, st) => st
  | None => st_ready hw
  end.

(** An initialized driver whose cycle counter has been sampled often
    since the start sample 0 was taken: the next sample passes 2^31. *)
Definition st_late (hw : nat → Z) : state :=
  {| driver_initialized := true;
     cycle_count_start := 0;
     cycle_count := 2147483700;
     regs := ∅;
     hw_status := hw;
     status_polls := 0;
     trace := [] |}.

(** ** Vocabulary of the further properties *)

(** The accelerator seen from [st'] is the one seen from [st], [k] reads
    of the status register later. *)
Definition hw_after (k : nat) (st st' : state) : Prop :=
  hw_status st' = hw_status st ∧ status_polls st' = (status_polls st + k)%nat.

(** The statics of the driver are the same in both states. *)
Definition same_statics (st st' : state) : Prop :=
  driver_initialized st' = driver_initialized st ∧
  cycle_count_start st' = cycle_count_start st ∧
  cycle_count st' = cycle_count st.

(** A configuration [gemm_accel_start] accepts. *)
Definition config_valid (c : gemm_config_t) : Prop :=
  m_dim c ≠ 0 ∧ k_dim c ≠ 0 ∧ n_dim c ≠ 0 ∧
  (data_type c = GEMM_DATA_TYPE_INT8 ∨ data_type c = GEMM_DATA_TYPE_INT16).

(** The register block after the eleven writes of [gemm_accel_start]. *)
Definition programmed (c : gemm_config_t) (r : gmap Z Z) : gmap Z Z :=
  <[GEMM_CTRL_REG := GEMM_CTRL_START]>
  (<[GEMM_STRIDE_C_REG := stride_c c]>
  (<[GEMM_STRIDE_B_REG := stride_b c]>
  (<[GEMM_STRIDE_A_REG := stride_a c]>
  (<[GEMM_DATA_TYPE_REG := data_type c]>
  (<[GEMM_N_DIM_REG := n_dim c]>
  (<[GEMM_K_DIM_REG := k_dim c]>
  (<[GEMM_M_DIM_REG := m_dim c]>
  (<[GEMM_MATRIX_C_ADDR_REG := matrix_c_addr c]>
  (<[GEMM_MATRIX_B_ADDR_REG := matrix_b_addr c]>
  (<[GEMM_MATRIX_A_ADDR_REG := matrix_a_addr c]> r)))))))))).

(** The registers [gemm_accel_start] writes. *)
Definition start_registers : list Z :=
  [ GEMM_MATRIX_A_ADDR_REG; GEMM_MATRIX_B_ADDR_REG; GEMM_MATRIX_C_ADDR_REG;
    GEMM_M_DIM_REG; GEMM_K_DIM_REG; GEMM_N_DIM_REG; GEMM_DATA_TYPE_REG;
    GEMM_STRIDE_A_REG; GEMM_STRIDE_B_REG; GEMM_STRIDE_C_REG; GEMM_CTRL_REG ].

(** The state after [REG_WRITE(addr, val)] and after
    [driver_initialized = true]. *)
Definition after_write (addr val : Z) (st : state) : state :=
  {| driver_initialized := driver_initialized st;
     cycle_count_start := cycle_count_start st;
     cycle_count := cycle_count st;
     regs := <[addr := uint32 val]> (regs st);
     hw_status := hw_status st;
     status_polls := status_polls st;
     trace := trace st ++ [EvWrite addr (uint32 val)] |}.

Definition after_initialized (st : state) : state :=
  {| driver_initialized := true;
     cycle_count_start := cycle_count_start st;
     cycle_count := cycle_count st;
     regs := regs st;
     hw_status := hw_status st;
     status_polls := status_polls st;
     trace := trace st |}.

(** The number of cells at offsets [0 .. n-1] that are not zero. *)
Definition nonzero_cells (C : Z → Z) (n : Z) : nat :=
  length (filter (λ i, int32 (C i) ≠ 0) (seqZ 0 n)).

(** A buffer of [int8_t] (of [int16_t]) cells holds values of that type. *)
Definition int8_buffer (A : Z → Z) : Prop := ∀ i, - 128 ≤ A i ≤ 127.
Definition int16_buffer (A : Z → Z) : Prop := ∀ i, - 32768 ≤ A i ≤ 32767.

(** The [K] x [K] identity matrix, rows of pitch [stride]. *)
Definition identity_buffer (K stride : Z) : Z → Z :=
  λ i, if (0 <=? i mod stride) && (i mod stride <? K) && (i / stride =? i mod stride)
       then 1 else 0.

Section HarnessReference.

Variable rand : nat → Z.
Variable malloc_junk : Z → Z.

(** The number of nonzero cells of the reference output of each test
    case, in order. *)
Fixpoint reference_nonzero (tcs : list test_case_t) (calls : nat) : list Z :=
  match tcs with
  | [] => []
  | tc :: tcs' =>
      let '(_, C_ref, calls') := case_buffers rand malloc_junk tc calls in
      Z.of_nat (nonzero_cells C_ref (tc_M tc * tc_N tc))
      :: reference_nonzero tcs' calls'
  end.

End HarnessReference.

Section TfLiteVocabulary.

Context {TfLiteType : Type} `{EqDecision TfLiteType}.
Variable kTfLiteInt8 : TfLiteType.
Variable kTfLiteInt16 : TfLiteType.

(** Three tensors that fit a product: inputs of the same type, int8 or
    int16, and shapes [m x k], [k x n] and [m x n]. *)
Definition tensors_compatible (a b out : @TfLiteTensor TfLiteType) (m k n : Z) : Prop :=
  tensor_type a = tensor_type b ∧
  (tensor_type a = kTfLiteInt8 ∨ tensor_type a = kTfLiteInt16) ∧
  tensor_dims a = [m; k] ∧ tensor_dims b = [k; n] ∧ tensor_dims out = [m; n].

End TfLiteVocabulary.

(** Tensors for the examples, with integers for type codes: 9 for int8
    and 7 for int16. *)
Definition tensor_example (type : Z) (data : Z) (rows cols : Z) : @TfLiteTensor Z :=
  {| tensor_type := type; tensor_data := data; tensor_dims := [rows; cols] |}.

Definition kernel_reset (hw : nat → Z) : kernel_state (TfLiteType := Z) :=
  {| accel_initialized := false; micro_log := []; driver := st_reset hw |}.

(** * Properties *)

(** ** Machine integers *)

Lemma uint32_range z : 0 ≤ uint32 z < 2 ^ 32.
Proof. unfold uint32. apply Z.mod_pos_bound. lia. Qed.

Lemma uint32_small z : 0 ≤ z < 2 ^ 32 → uint32 z = z.
Proof. intros H. unfold uint32. apply Z.mod_small. exact H. Qed.

Lemma uint32_idemp z : uint32 (uint32 z) = uint32 z.
Proof. apply uint32_small, uint32_range. Qed.

Lemma uint32_testbit z i :
  Z.testbit (uint32 z) i = (i <? 32) && Z.testbit z i.
Proof.
  unfold uint32. destruct (Z.ltb_spec i 32) as [Hlt | Hge]; simpl.
  - destruct (Z.lt_ge_cases i 0) as [Hneg | Hpos].
    + rewrite !Z.testbit_neg_r by assumption. reflexivity.
    + apply Z.mod_pow2_bits_low. lia.
  - apply Z.mod_pow2_bits_high. lia.
Qed.

(** A mask test of the source, [(v & (1 << b)) != 0], reads bit [b]. *)
Lemma land_bit_test v b :
  0 ≤ b → negb (Z.land v (Z.shiftl 1 b) =? 0) = Z.testbit v b.
Proof.
  intros Hb. rewrite Z.shiftl_1_l.
  destruct (Z.testbit v b) eqn:Hbit.
  - apply negb_true_iff, Z.eqb_neq. intros H0.
    assert (Z.testbit (Z.land v (2 ^ b)) b = true) as Hc.
    { rewrite Z.land_spec, Hbit, Z.pow2_bits_true by lia. reflexivity. }
    rewrite H0, Z.bits_0 in Hc. discriminate.
  - apply negb_false_iff, Z.eqb_eq, Z.bits_inj'. intros i Hi.
    rewrite Z.land_spec, Z.bits_0.
    destruct (Z.eq_dec i b) as [-> | Hne].
    + rewrite Hbit. reflexivity.
    + rewrite Z.pow2_bits_false by lia. apply andb_false_r.
Qed.

Lemma busy_test v : negb (Z.land v GEMM_STATUS_BUSY =? 0) = busy_bit v.
Proof. apply land_bit_test. lia. Qed.

Lemma done_test v : negb (Z.land v GEMM_STATUS_DONE =? 0) = done_bit v.
Proof. apply land_bit_test. lia. Qed.

Lemma error_test v : negb (Z.land v GEMM_STATUS_ERROR =? 0) = error_bit v.
Proof. apply land_bit_test. lia. Qed.

(** ** The driver: register accesses *)

Lemma REG_READ_status st :
  REG_READ GEMM_STATUS_REG st = Some (status_now st, poll st).
Proof. reflexivity. Qed.

Lemma gemm_accel_is_busy_spec st :
  gemm_accel_is_busy st = Some (busy_bit (status_now st), poll st).
Proof.
  unfold gemm_accel_is_busy, bind. rewrite REG_READ_status.
  unfold ret. rewrite busy_test. reflexivity.
Qed.

Lemma gemm_accel_has_error_spec st :
  gemm_accel_has_error st = Some (error_bit (status_now st), poll st).
Proof.
  unfold gemm_accel_has_error, bind. rewrite REG_READ_status.
  unfold ret. rewrite error_test. reflexivity.
Qed.

Lemma gemm_accel_is_done_spec st :
  gemm_accel_is_done st = Some (done_bit (status_now st), poll st).
Proof.
  unfold gemm_accel_is_done, bind. rewrite REG_READ_status.
  unfold ret. rewrite done_test. reflexivity.
Qed.

(** ** The driver: polling *)

Lemma status_at_0 st : status_at st 0 = status_now st.
Proof. unfold status_at, status_now. rewrite Nat.add_0_r. reflexivity. Qed.

Lemma status_at_poll st i : status_at (poll st) i = status_at st (S i).
Proof.
  unfold status_at, poll; simpl. rewrite Nat.add_succ_r. reflexivity.
Qed.

Lemma status_now_polls n st : status_now (polls n st) = status_at st n.
Proof.
  revert st. induction n as [| n IH]; intros st; simpl.
  - symmetry. apply status_at_0.
  - rewrite IH. apply status_at_poll.
Qed.

Lemma polls_trace n st :
  trace (polls n st) = trace st ++ poll_events st n.
Proof.
  unfold poll_events. revert st. induction n as [| n IH]; intros st; simpl.
  - rewrite app_nil_r. reflexivity.
  - rewrite IH. simpl. rewrite <- app_assoc. simpl.
    rewrite status_at_0. f_equal. f_equal.
    rewrite <- fmap_S_seq, <- list_fmap_compose.
    apply list_fmap_ext. intros i x _. simpl. rewrite status_at_poll. reflexivity.
Qed.

Lemma polls_frame n st :
  driver_initialized (polls n st) = driver_initialized st ∧
  cycle_count_start (polls n st) = cycle_count_start st ∧
  cycle_count (polls n st) = cycle_count st ∧
  regs (polls n st) = regs st ∧
  hw_status (polls n st) = hw_status st ∧
  status_polls (polls n st) = (status_polls st + n)%nat.
Proof.
  revert st. induction n as [| n IH]; intros st; simpl.
  - rewrite Nat.add_0_r. repeat split; reflexivity.
  - destruct (IH (poll st)) as (-> & -> & -> & -> & -> & ->). simpl.
    rewrite Nat.add_succ_r. repeat split; reflexivity.
Qed.

(** The busy-wait returns exactly when the hardware drops BUSY within the
    bound: it has then read the status register once per poll, the last
    read being the first that shows BUSY clear. *)
Lemma wait_while_busy_finishes fuel st n :
  (n < fuel)%nat →
  (∀ i, (i < n)%nat → busy_bit (status_at st i) = true) →
  busy_bit (status_at st n) = false →
  wait_while_busy fuel st = Some (tt, polls (S n) st).
Proof.
  revert st n. induction fuel as [| fuel IH]; intros st n Hn Hbusy Hclear; [lia |].
  simpl. unfold bind. rewrite gemm_accel_is_busy_spec, <- status_at_0.
  destruct n as [| n].
  - rewrite Hclear. reflexivity.
  - rewrite (Hbusy 0%nat) by lia.
    apply IH; [lia | |].
    + intros i Hi. rewrite status_at_poll. apply Hbusy. lia.
    + rewrite status_at_poll. exact Hclear.
Qed.

Lemma wait_while_busy_returns fuel st u st' :
  wait_while_busy fuel st = Some (u, st') →
  ∃ n, (n < fuel)%nat ∧
       (∀ i, (i < n)%nat → busy_bit (status_at st i) = true) ∧
       busy_bit (status_at st n) = false ∧
       st' = polls (S n) st.
Proof.
  revert st. induction fuel as [| fuel IH]; intros st; simpl; [discriminate |].
  unfold bind. rewrite gemm_accel_is_busy_spec, <- status_at_0.
  destruct (busy_bit (status_at st 0)) eqn:Hb.
  - intros H. destruct (IH _ H) as (n & Hn & Hbusy & Hclear & ->).
    exists (S n). split; [lia |]. split; [| split].
    + intros [| i] Hi; [exact Hb |]. rewrite <- status_at_poll. apply Hbusy. lia.
    + rewrite <- status_at_poll. exact Hclear.
    + reflexivity.
  - intros [= <- <-]. exists 0%nat. split; [lia |]. split; [| split].
    + intros i Hi. lia.
    + exact Hb.
    + reflexivity.
Qed.

(** A hardware that never drops BUSY exhausts every bound. *)
Lemma wait_while_busy_stuck fuel st :
  (∀ i, busy_bit (status_at st i) = true) →
  wait_while_busy fuel st = None.
Proof.
  intros Hstuck. destruct (wait_while_busy fuel st) as [[u st'] |] eqn:H; [| reflexivity].
  destruct (wait_while_busy_returns _ _ _ _ H) as (n & _ & _ & Hclear & _).
  rewrite Hstuck in Hclear. discriminate.
Qed.

(** ** The driver: [gemm_accel_init] *)

(** C7.  [gemm_accel_init] on an initialized driver returns 0 at once: the
    state it leaves is the state it found, so no register was read or
    written, nothing was printed and no static changed. *)
Theorem gemm_accel_init_idempotent (fuel : nat) (st : state) :
  driver_initialized st = true →
  gemm_accel_init fuel st = Some (0, st).
Proof.
  intros Hinit. unfold gemm_accel_init, bind, get_driver_initialized.
  rewrite Hinit. reflexivity.
Qed.

Lemma gemm_accel_init_idempotent_witness :
  driver_initialized (st_ready hw_busy) = true ∧
  gemm_accel_init 0 (st_ready hw_busy) = Some (0, st_ready hw_busy).
Proof.
  split; [reflexivity |].
  apply (gemm_accel_init_idempotent 0 (st_ready hw_busy)). reflexivity.
Defined.

(** ** The driver: [gemm_accel_start] *)

(** C9.  With a NULL configuration an initialized driver prints its
    message and returns -1.  Nothing else happens: the register block is
    unchanged, the only event is the message, and the status register has
    not been read, so the rejection precedes the busy check and the
    validation of the configuration, whatever the hardware shows. *)
Theorem gemm_accel_start_null (st : state) :
  driver_initialized st = true →
  ∃ st', gemm_accel_start None st = Some (-1, st') ∧
         regs st' = regs st ∧
         appended st st' [EvPrint MsgNullConfig] ∧
         status_polls st' = status_polls st.
Proof.
  intros Hinit. exists (log (EvPrint MsgNullConfig) st).
  unfold gemm_accel_start, bind, get_driver_initialized.
  rewrite Hinit. simpl. repeat split; reflexivity.
Qed.

Lemma gemm_accel_start_null_witness :
  driver_initialized (st_ready hw_busy) = true ∧
  ∃ st', gemm_accel_start None (st_ready hw_busy) = Some (-1, st') ∧
         regs st' = regs (st_ready hw_busy) ∧
         appended (st_ready hw_busy) st' [EvPrint MsgNullConfig] ∧
         status_polls st' = status_polls (st_ready hw_busy).
Proof.
  split; [reflexivity |].
  apply (gemm_accel_start_null (st_ready hw_busy)). reflexivity.
Defined.

(** [gemm_create_config] yields a well-typed configuration whatever its
    arguments. *)
Lemma gemm_create_config_wf (a b c m k n ty sa sb sc : Z) :
  config_wf (gemm_create_config a b c m k n ty sa sb sc).
Proof.
  constructor; cbn [matrix_a_addr matrix_b_addr matrix_c_addr m_dim k_dim n_dim
    data_type stride_a stride_b stride_c gemm_create_config];
    unfold uint32, uint16, uint8; apply Z.mod_pos_bound; lia.
Qed.

Lemma config_wf_example : config_wf cfg_example.
Proof. apply gemm_create_config_wf. Qed.

Lemma config_wf_k0 : config_wf cfg_k0.
Proof. apply gemm_create_config_wf. Qed.

(** C2.  Whenever the driver is uninitialized, or the status register
    shows BUSY, or a dimension is zero, or the data type is neither int8
    nor int16, [gemm_accel_start] returns -1, the register block is what
    it was, and none of the events of the call is a register write: every
    check comes before the first write. *)
Theorem gemm_accel_start_rejects_before_writing (st : state) (c : gemm_config_t) :
  config_wf c →
  driver_initialized st = false ∨
  busy_bit (status_now st) = true ∨
  m_dim c = 0 ∨ k_dim c = 0 ∨ n_dim c = 0 ∨
  (data_type c ≠ GEMM_DATA_TYPE_INT8 ∧ data_type c ≠ GEMM_DATA_TYPE_INT16) →
  ∃ st' evs,
    gemm_accel_start (Some c) st = Some (-1, st') ∧
    regs st' = regs st ∧
    appended st st' evs ∧
    Forall (λ e, is_write e = false) evs.
Proof.
  intros Hwf Hrej.
  unfold gemm_accel_start, bind, get_driver_initialized.
  destruct (driver_initialized st) eqn:Hinit; cbn [negb].
  2: { exists (log (EvPrint MsgNotInitialized) st), [EvPrint MsgNotInitialized].
       repeat split. repeat constructor. }
  rewrite gemm_accel_is_busy_spec.
  destruct (busy_bit (status_now st)) eqn:Hbusy.
  { exists (log (EvPrint MsgBusy) (poll st)),
      [EvRead GEMM_STATUS_REG (status_now st); EvPrint MsgBusy].
    repeat split.
    - unfold appended. simpl. rewrite <- app_assoc. reflexivity.
    - repeat constructor. }
  destruct ((m_dim c =? 0) || (k_dim c =? 0) || (n_dim c =? 0)) eqn:Hdims.
  { exists (log (EvPrint MsgInvalidDimensions) (poll st)),
      [EvRead GEMM_STATUS_REG (status_now st); EvPrint MsgInvalidDimensions].
    repeat split.
    - unfold appended. simpl. rewrite <- app_assoc. reflexivity.
    - repeat constructor. }
  destruct (GEMM_DATA_TYPE_INT16 <? data_type c) eqn:Hty.
  { exists (log (EvPrint MsgInvalidDataType) (poll st)),
      [EvRead GEMM_STATUS_REG (status_now st); EvPrint MsgInvalidDataType].
    repeat split.
    - unfold appended. simpl. rewrite <- app_assoc. reflexivity.
    - repeat constructor. }
  exfalso.
  apply orb_false_elim in Hdims as [Hdims Hn].
  apply orb_false_elim in Hdims as [Hm Hk].
  apply Z.eqb_neq in Hm, Hk, Hn. apply Z.ltb_ge in Hty.
  pose proof (wf_data_type c Hwf) as Hrange.
  unfold GEMM_DATA_TYPE_INT8, GEMM_DATA_TYPE_INT16 in *.
  destruct Hrej as [H | [H | [H | [H | [H | [H8 H16]]]]]];
    try discriminate; try contradiction.
  lia.
Qed.

(** The error scenario of the specification: [k_dim = 0]. *)
Lemma gemm_accel_start_rejects_before_writing_witness :
  config_wf cfg_k0 ∧
  k_dim cfg_k0 = 0 ∧
  ∃ st' evs,
    gemm_accel_start (Some cfg_k0) (st_ready hw_idle) = Some (-1, st') ∧
    regs st' = regs (st_ready hw_idle) ∧
    appended (st_ready hw_idle) st' evs ∧
    Forall (λ e, is_write e = false) evs.
Proof.
  split; [exact config_wf_k0 |]. split; [reflexivity |].
  apply (gemm_accel_start_rejects_before_writing (st_ready hw_idle) cfg_k0).
  - exact config_wf_k0.
  - right. right. right. left. reflexivity.
Defined.

(** C4.  On an initialized driver, with BUSY clear, nonzero dimensions and
    a data type that is int8 or int16, [gemm_accel_start] returns 0 after
    exactly these accesses, in this order: the read of the status register
    of the busy check, the ten configuration fields each to its register
    with the value of the configuration, START to the control register;
    then it samples the cycle counter and keeps the sample as the start
    of the operation. *)
Theorem gemm_accel_start_programs_and_starts (st : state) (c : gemm_config_t) :
  config_wf c →
  driver_initialized st = true →
  busy_bit (status_now st) = false →
  m_dim c ≠ 0 → k_dim c ≠ 0 → n_dim c ≠ 0 →
  data_type c = GEMM_DATA_TYPE_INT8 ∨ data_type c = GEMM_DATA_TYPE_INT16 →
  ∃ st',
    gemm_accel_start (Some c) st = Some (0, st') ∧
    appended st st'
      [ EvRead GEMM_STATUS_REG (status_now st);
        EvWrite GEMM_MATRIX_A_ADDR_REG (matrix_a_addr c);
        EvWrite GEMM_MATRIX_B_ADDR_REG (matrix_b_addr c);
        EvWrite GEMM_MATRIX_C_ADDR_REG (matrix_c_addr c);
        EvWrite GEMM_M_DIM_REG (m_dim c);
        EvWrite GEMM_K_DIM_REG (k_dim c);
        EvWrite GEMM_N_DIM_REG (n_dim c);
        EvWrite GEMM_DATA_TYPE_REG (data_type c);
        EvWrite GEMM_STRIDE_A_REG (stride_a c);
        EvWrite GEMM_STRIDE_B_REG (stride_b c);
        EvWrite GEMM_STRIDE_C_REG (stride_c c);
        EvWrite GEMM_CTRL_REG GEMM_CTRL_START;
        EvCycles (uint32 (cycle_count st + 100));
        EvPrint (MsgStarted (m_dim c) (k_dim c) (n_dim c)
                   (if data_type c =? GEMM_DATA_TYPE_INT8
                    then "int8"%string else "int16"%string)) ] ∧
    regs st' =
      <[GEMM_CTRL_REG := GEMM_CTRL_START]>
      (<[GEMM_STRIDE_C_REG := stride_c c]>
      (<[GEMM_STRIDE_B_REG := stride_b c]>
      (<[GEMM_STRIDE_A_REG := stride_a c]>
      (<[GEMM_DATA_TYPE_REG := data_type c]>
      (<[GEMM_N_DIM_REG := n_dim c]>
      (<[GEMM_K_DIM_REG := k_dim c]>
      (<[GEMM_M_DIM_REG := m_dim c]>
      (<[GEMM_MATRIX_C_ADDR_REG := matrix_c_addr c]>
      (<[GEMM_MATRIX_B_ADDR_REG := matrix_b_addr c]>
      (<[GEMM_MATRIX_A_ADDR_REG := matrix_a_addr c]> (regs st))))))))))) ∧
    cycle_count_start st' = uint32 (cycle_count st + 100) ∧
    driver_initialized st' = true.
Proof.
  intros Hwf Hinit Hbusy Hm Hk Hn Hty.
  unfold gemm_accel_start, bind, get_driver_initialized.
  rewrite Hinit. cbn [negb]. rewrite gemm_accel_is_busy_spec, Hbusy.
  destruct (Z.eqb_spec (m_dim c) 0); [contradiction |].
  destruct (Z.eqb_spec (k_dim c) 0); [contradiction |].
  destruct (Z.eqb_spec (n_dim c) 0); [contradiction |].
  cbn [orb].
  destruct (Z.ltb_spec GEMM_DATA_TYPE_INT16 (data_type c)) as [Hbad | _].
  { unfold GEMM_DATA_TYPE_INT16, GEMM_DATA_TYPE_INT8 in *. lia. }
  cbn -[uint32 Z.add].
  destruct Hwf as [Ha Hb Hc Hmr Hkr Hnr Htr Hsa Hsb Hsc].
  rewrite !(uint32_small (matrix_a_addr c)), !(uint32_small (matrix_b_addr c)),
    !(uint32_small (matrix_c_addr c)), !(uint32_small (m_dim c)),
    !(uint32_small (k_dim c)), !(uint32_small (n_dim c)),
    !(uint32_small (data_type c)), !(uint32_small (stride_a c)),
    !(uint32_small (stride_b c)), !(uint32_small (stride_c c)) by lia.
  change (uint32 GEMM_CTRL_START) with GEMM_CTRL_START.
  eexists. split; [reflexivity |]. unfold appended. cbn -[uint32 Z.add].
  rewrite <- !app_assoc. cbn -[uint32 Z.add]. rewrite Hinit.
  repeat split.
Qed.

(** The call of [gemm_example]. *)
Lemma gemm_accel_start_programs_and_starts_witness :
  config_wf cfg_example ∧
  ∃ st',
    gemm_accel_start (Some cfg_example) (st_ready hw_idle) = Some (0, st') ∧
    regs st' !! GEMM_K_DIM_REG = Some 8 ∧
    regs st' !! GEMM_CTRL_REG = Some GEMM_CTRL_START ∧
    cycle_count_start st' = 100.
Proof.
  split; [exact config_wf_example |].
  destruct (gemm_accel_start_programs_and_starts (st_ready hw_idle) cfg_example)
    as (st' & Hrun & _ & Hregs & Hstart & _).
  - exact config_wf_example.
  - reflexivity.
  - reflexivity.
  - discriminate.
  - discriminate.
  - discriminate.
  - left. reflexivity.
  - exists st'. rewrite Hregs, Hstart.
    split; [exact Hrun |]. split; [| split]; vm_compute; reflexivity.
Defined.

(** ** The driver: [gemm_accel_status] *)

(** C10.  [gemm_accel_status] answers -1 without touching a register when
    the driver is uninitialized.  Otherwise it reads the status register
    exactly once and answers from that value alone: -1 if ERROR is set,
    else 1 if DONE is set, else 0 if BUSY is set, else 2.  It always
    returns, and it changes nothing but the log of the read. *)
Theorem gemm_accel_status_mapping (st : state) :
  (driver_initialized st = false → gemm_accel_status st = Some (-1, st)) ∧
  (driver_initialized st = true →
     ∃ r, gemm_accel_status st = Some (r, poll st) ∧
          (error_bit (status_now st) = true → r = -1) ∧
          (error_bit (status_now st) = false →
           done_bit (status_now st) = true → r = 1) ∧
          (error_bit (status_now st) = false →
           done_bit (status_now st) = false →
           busy_bit (status_now st) = true → r = 0) ∧
          (error_bit (status_now st) = false →
           done_bit (status_now st) = false →
           busy_bit (status_now st) = false → r = 2)).
Proof.
  unfold gemm_accel_status, bind, get_driver_initialized.
  split; intros Hinit; rewrite Hinit; cbn [negb]; [reflexivity |].
  rewrite REG_READ_status, error_test, done_test, busy_test.
  exists (status_code (status_now st)). unfold status_code.
  destruct (error_bit (status_now st)), (done_bit (status_now st)),
    (busy_bit (status_now st)); repeat split; intros; congruence.
Qed.

(** ERROR, DONE and BUSY all set: the answer is the one of ERROR, the same
    as for an uninitialized driver. *)
Lemma gemm_accel_status_mapping_witness :
  gemm_accel_status (st_ready (λ _, 7)) = Some (-1, poll (st_ready (λ _, 7))) ∧
  gemm_accel_status (st_reset hw_idle) = Some (-1, st_reset hw_idle).
Proof.
  destruct (gemm_accel_status_mapping (st_ready (λ _, 7))) as [_ Hinit].
  destruct (gemm_accel_status_mapping (st_reset hw_idle)) as [Huninit _].
  split.
  - destruct (Hinit eq_refl) as (r & Hrun & Herr & _).
    rewrite Hrun, (Herr eq_refl). reflexivity.
  - apply Huninit. reflexivity.
Defined.

(** ** The driver: [gemm_accel_set_interrupt_enable] *)

Lemma irq_en_testbit i : Z.testbit GEMM_CTRL_IRQ_EN i = (i =? 2).
Proof.
  unfold GEMM_CTRL_IRQ_EN. rewrite Z.shiftl_1_l.
  rewrite Z.pow2_bits_eqb by lia. apply Z.eqb_sym.
Qed.

(** The read-modify-write of the source on a 32-bit value: bit 2 becomes
    the argument, every other bit stays. *)
Lemma irq_update_testbit (ctrl : Z) (enable : bool) (i : Z) :
  0 ≤ ctrl < 2 ^ 32 →
  Z.testbit
    (uint32 (if enable then Z.lor ctrl GEMM_CTRL_IRQ_EN
             else Z.land ctrl (uint32 (Z.lnot GEMM_CTRL_IRQ_EN)))) i =
  if i =? 2 then enable else Z.testbit ctrl i.
Proof.
  intros Hrange.
  assert (Z.testbit ctrl i = (i <? 32) && Z.testbit ctrl i) as Hhigh.
  { rewrite <- uint32_testbit, uint32_small by exact Hrange. reflexivity. }
  rewrite uint32_testbit.
  destruct (Z.lt_ge_cases i 0) as [Hneg | Hpos].
  { rewrite !Z.testbit_neg_r by assumption.
    destruct (Z.eqb_spec i 2); [lia |]. apply andb_false_r. }
  assert ((if enable then Z.testbit ctrl i || (i =? 2)
           else Z.testbit ctrl i && ((i <? 32) && negb (i =? 2))) =
          Z.testbit
            (if enable then Z.lor ctrl GEMM_CTRL_IRQ_EN
             else Z.land ctrl (uint32 (Z.lnot GEMM_CTRL_IRQ_EN))) i) as <-.
  { destruct enable.
    - rewrite Z.lor_spec, irq_en_testbit. reflexivity.
    - rewrite Z.land_spec, uint32_testbit, Z.lnot_spec, irq_en_testbit by exact Hpos.
      reflexivity. }
  destruct (Z.eqb_spec i 2) as [-> | Hne].
  - change (2 <? 32) with true. destruct enable, (Z.testbit ctrl 2); reflexivity.
  - revert Hhigh.
    destruct enable, (i <? 32), (Z.testbit ctrl i); simpl; congruence.
Qed.

(** C8.  [gemm_accel_set_interrupt_enable] reads the control register
    once and writes it once.  Afterwards bit 2 (IRQ_EN) of the control
    register is the argument and every other bit is what it was; no other
    register changes. *)
Theorem gemm_accel_set_interrupt_enable_frame (st : state) (enable : bool) :
  ∃ st',
    gemm_accel_set_interrupt_enable enable st = Some (tt, st') ∧
    Z.testbit (reg_value st' GEMM_CTRL_REG) 2 = enable ∧
    (∀ i, i ≠ 2 →
       Z.testbit (reg_value st' GEMM_CTRL_REG) i =
       Z.testbit (reg_value st GEMM_CTRL_REG) i) ∧
    (∀ addr, addr ≠ GEMM_CTRL_REG → regs st' !! addr = regs st !! addr) ∧
    appended st st'
      [ EvRead GEMM_CTRL_REG (reg_value st GEMM_CTRL_REG);
        EvWrite GEMM_CTRL_REG (reg_value st' GEMM_CTRL_REG) ].
Proof.
  unfold gemm_accel_set_interrupt_enable, bind, REG_READ, REG_WRITE.
  change (GEMM_CTRL_REG =? GEMM_STATUS_REG) with false. cbv iota.
  fold (reg_value st GEMM_CTRL_REG).
  set (old := reg_value st GEMM_CTRL_REG).
  set (new := uint32 (if enable then Z.lor old GEMM_CTRL_IRQ_EN
                      else Z.land old (uint32 (Z.lnot GEMM_CTRL_IRQ_EN)))).
  assert (0 ≤ old < 2 ^ 32) as Hold by apply uint32_range.
  eexists. split; [reflexivity |].
  assert (reg_value
            (log (EvWrite GEMM_CTRL_REG new)
               {| driver_initialized := driver_initialized (log (EvRead GEMM_CTRL_REG old) st);
                  cycle_count_start := cycle_count_start (log (EvRead GEMM_CTRL_REG old) st);
                  cycle_count := cycle_count (log (EvRead GEMM_CTRL_REG old) st);
                  regs := <[GEMM_CTRL_REG := new]> (regs (log (EvRead GEMM_CTRL_REG old) st));
                  hw_status := hw_status (log (EvRead GEMM_CTRL_REG old) st);
                  status_polls := status_polls (log (EvRead GEMM_CTRL_REG old) st);
                  trace := trace (log (EvRead GEMM_CTRL_REG old) st) |})
            GEMM_CTRL_REG = new) as Hnew.
  { unfold reg_value. cbn [regs log]. rewrite lookup_insert_eq. cbn [default].
    apply uint32_idemp. }
  rewrite Hnew. split; [| split; [| split]].
  - subst new. rewrite irq_update_testbit by exact Hold. reflexivity.
  - intros i Hi. subst new. rewrite irq_update_testbit by exact Hold.
    destruct (Z.eqb_spec i 2); [contradiction | reflexivity].
  - intros addr Hne. cbn [regs log]. apply lookup_insert_ne. congruence.
  - unfold appended. cbn [trace log]. rewrite <- app_assoc. reflexivity.
Qed.

Lemma gemm_accel_set_interrupt_enable_frame_witness :
  ∃ st',
    gemm_accel_set_interrupt_enable false (st_ready hw_idle) = Some (tt, st') ∧
    Z.testbit (reg_value st' GEMM_CTRL_REG) 2 = false ∧
    Z.testbit (reg_value st' GEMM_CTRL_REG) 0 =
    Z.testbit (reg_value (st_ready hw_idle) GEMM_CTRL_REG) 0.
Proof.
  destruct (gemm_accel_set_interrupt_enable_frame (st_ready hw_idle) false)
    as (st' & Hrun & Hbit & Hothers & _).
  exists st'. split; [exact Hrun |]. split; [exact Hbit |].
  apply Hothers. discriminate.
Defined.

(** ** The driver: [gemm_accel_wait] *)

Lemma gemm_accel_wait_uninitialized (fuel : nat) (st : state) :
  driver_initialized st = false →
  gemm_accel_wait fuel st = Some (-1, log (EvPrint MsgNotInitialized) st).
Proof.
  intros Hinit. unfold gemm_accel_wait, bind, get_driver_initialized.
  rewrite Hinit. reflexivity.
Qed.

(** What [gemm_accel_wait] does once its busy-wait has finished after
    [n] busy polls: one more read of the status register decides. *)
Lemma gemm_accel_wait_after_polls (fuel : nat) (st : state) (n : nat) :
  driver_initialized st = true →
  (n < fuel)%nat →
  (∀ i, (i < n)%nat → busy_bit (status_at st i) = true) →
  busy_bit (status_at st n) = false →
  ∃ st',
    gemm_accel_wait fuel st =
      Some (if error_bit (status_at st (S n)) then -1 else 0, st') ∧
    appended st st'
      (poll_events st (S n) ++
       EvRead GEMM_STATUS_REG (status_at st (S n)) ::
       (if error_bit (status_at st (S n)) then [EvPrint MsgFailed]
        else [EvCycles (uint32 (cycle_count st + 100));
              EvPrint (MsgCompleted
                (int32 (uint32 (uint32 (cycle_count st + 100) - cycle_count_start st))))])) ∧
    cycle_count st' =
      (if error_bit (status_at st (S n)) then cycle_count st
       else uint32 (cycle_count st + 100)) ∧
    regs st' = regs st ∧
    cycle_count_start st' = cycle_count_start st.
Proof.
  intros Hinit Hn Hbusy Hclear.
  unfold gemm_accel_wait, bind, get_driver_initialized.
  rewrite Hinit. cbn [negb].
  rewrite (wait_while_busy_finishes fuel st n) by assumption.
  rewrite gemm_accel_has_error_spec, status_now_polls.
  destruct (polls_frame (S n) st) as (_ & Hstart & Hcount & Hregs & _ & _).
  destruct (error_bit (status_at st (S n))).
  - eexists. split; [reflexivity |]. unfold appended.
    cbn -[polls uint32 int32 Z.add Z.sub poll_events].
    rewrite polls_trace, status_now_polls, <- !app_assoc.
    repeat split; assumption.
  - eexists. split; [reflexivity |]. unfold appended.
    cbn -[polls uint32 int32 Z.add Z.sub poll_events].
    rewrite polls_trace, status_now_polls, Hcount, Hstart, <- !app_assoc.
    repeat split; assumption.
Qed.

(** What [%d] shows of a [uint32_t]: the value itself below 2^31, and
    the value less 2^32 from there on. *)
Lemma int32_of_uint32 (z : Z) :
  int32 (uint32 z) =
    if uint32 z <? 2 ^ 31 then uint32 z else uint32 z - 2 ^ 32.
Proof.
  pose proof (uint32_range z) as Hr. unfold int32, sint.
  change (32 - 1) with 31. change (2 ^ 32) with (2 * 2 ^ 31) in *.
  destruct (Z.ltb_spec (uint32 z) (2 ^ 31)) as [Hlt | Hge].
  - rewrite Z.mod_small by lia. lia.
  - replace (uint32 z + 2 ^ 31) with (uint32 z - 2 ^ 31 + 1 * (2 * 2 ^ 31)) by lia.
    rewrite Z.mod_add by lia. rewrite Z.mod_small by lia. lia.
Qed.

(** C3, as the code has it.  When the busy-wait of [gemm_accel_wait] sees
    BUSY clear and the following read of the status register shows no
    ERROR, the driver samples the cycle counter, computes the elapsed count
    [end - start] modulo 2^32 ([start] being the sample kept by
    [gemm_accel_start]), prints it as [%d] shows it, that is the count
    itself below 2^31 and the count less 2^32 from there on, and returns
    0; when that read shows ERROR it prints the failure and returns -1
    without sampling the counter. *)
Theorem gemm_accel_wait_reports_elapsed (fuel : nat) (st : state) (n : nat) :
  driver_initialized st = true →
  (n < fuel)%nat →
  (∀ i, (i < n)%nat → busy_bit (status_at st i) = true) →
  busy_bit (status_at st n) = false →
  (error_bit (status_at st (S n)) = false →
     ∃ st' cycle_count_end total_cycles,
       gemm_accel_wait fuel st = Some (0, st') ∧
       cycle_count_end = uint32 (cycle_count st + 100) ∧
       total_cycles = uint32 (cycle_count_end - cycle_count_start st) ∧
       cycle_count st' = cycle_count_end ∧
       appended st st'
         (poll_events st (S n) ++
          [ EvRead GEMM_STATUS_REG (status_at st (S n));
            EvCycles cycle_count_end;
            EvPrint (MsgCompleted
              (if total_cycles <? 2 ^ 31 then total_cycles
               else total_cycles - 2 ^ 32)) ])) ∧
  (error_bit (status_at st (S n)) = true →
     ∃ st',
       gemm_accel_wait fuel st = Some (-1, st') ∧
       cycle_count st' = cycle_count st ∧
       appended st st'
         (poll_events st (S n) ++
          [ EvRead GEMM_STATUS_REG (status_at st (S n)); EvPrint MsgFailed ])).
Proof.
  intros Hinit Hn Hbusy Hclear.
  destruct (gemm_accel_wait_after_polls fuel st n Hinit Hn Hbusy Hclear)
    as (st' & Hrun & Happ & Hcount & _ & _).
  split; intros Herr; rewrite Herr in Hrun, Happ, Hcount.
  - exists st', (uint32 (cycle_count st + 100)),
      (uint32 (uint32 (cycle_count st + 100) - cycle_count_start st)).
    rewrite <- int32_of_uint32. repeat split; assumption.
  - exists st'. repeat split; assumption.
Qed.

Lemma st_started_run :
  driver_initialized (st_started hw_run) = true ∧
  cycle_count_start (st_started hw_run) = 100 ∧
  cycle_count (st_started hw_run) = 100 ∧
  status_polls (st_started hw_run) = 1%nat ∧
  hw_status (st_started hw_run) = hw_run.
Proof. repeat split. Qed.

Lemma hw_run_polls :
  (∀ i, (i < 2)%nat → busy_bit (status_at (st_started hw_run) i) = true) ∧
  busy_bit (status_at (st_started hw_run) 2) = false ∧
  error_bit (status_at (st_started hw_run) 3) = false.
Proof.
  split; [| split; reflexivity].
  intros [| [| i]] Hi; [reflexivity | reflexivity | lia].
Qed.

(** The run of [gemm_example] with an accelerator busy for two polls:
    [gemm_accel_wait] returns 0 and prints an elapsed count of 100. *)
Lemma gemm_accel_wait_reports_elapsed_witness :
  ∃ st',
    gemm_accel_wait 8 (st_started hw_run) = Some (0, st') ∧
    cycle_count st' = 200 ∧
    last (trace st') = Some (EvPrint (MsgCompleted 100)).
Proof.
  destruct hw_run_polls as (Hbusy & Hclear & Hok).
  destruct (gemm_accel_wait_reports_elapsed 8 (st_started hw_run) 2)
    as [Hdone _]; [reflexivity | lia | exact Hbusy | exact Hclear |].
  destruct (Hdone Hok) as (st' & e & t & Hrun & -> & -> & Hcount & Happ).
  exists st'. split; [exact Hrun |]. split; [exact Hcount |].
  unfold appended in Happ. rewrite Happ. vm_compute. reflexivity.
Defined.

(** C3 as the specification words it does not hold: in that run the elapsed
    count [end - start] is
    100 and the value returned is 0. *)
Lemma gemm_accel_wait_returns_elapsed_counterexample :
  ∃ r st',
    gemm_accel_wait 8 (st_started hw_run) = Some (r, st') ∧
    busy_bit (status_at (st_started hw_run) 2) = false ∧
    error_bit (status_at (st_started hw_run) 3) = false ∧
    uint32 (cycle_count st' - cycle_count_start (st_started hw_run)) = 100 ∧
    r ≠ uint32 (cycle_count st' - cycle_count_start (st_started hw_run)).
Proof.
  destruct hw_run_polls as (Hbusy & Hclear & Hok).
  destruct (gemm_accel_wait_after_polls 8 (st_started hw_run) 2)
    as (st' & Hrun & _ & Hcount & _); [reflexivity | lia | exact Hbusy | exact Hclear |].
  rewrite Hok in Hrun, Hcount.
  exists 0, st'. rewrite Hcount.
  split; [exact Hrun |]. split; [exact Hclear |]. split; [exact Hok |].
  assert (uint32 (uint32 (cycle_count (st_started hw_run) + 100) -
                  cycle_count_start (st_started hw_run)) = 100) as ->
    by (vm_compute; reflexivity).
  split; [reflexivity | discriminate].
Qed.

(** An elapsed count of 2^31 or more is printed negative: with the start
    sample 0 and the counter at 2147483700 the count is 2147483800 and the
    message shows -2147483496. *)
Example gemm_accel_wait_prints_negative :
  ∃ st',
    gemm_accel_wait 1 (st_late hw_idle) = Some (0, st') ∧
    cycle_count st' = 2147483800 ∧
    last (trace st') = Some (EvPrint (MsgCompleted (-2147483496))).
Proof.
  eexists. split; [vm_compute; reflexivity |].
  split; vm_compute; reflexivity.
Qed.

(** C5, as the code has it.  An uninitialized driver returns -1 from
    [gemm_accel_wait] without reading a register.  On an initialized
    driver, whenever [gemm_accel_wait] returns, with 0 or with -1, its
    polling loop has read the status register at least once, every read
    but the last showed BUSY set, and the last showed BUSY clear; the only
    other register access of the call is the read that looks for ERROR. *)
Theorem gemm_accel_wait_returns_after_busy_clear (fuel : nat) (st : state) :
  (driver_initialized st = false →
     gemm_accel_wait fuel st = Some (-1, log (EvPrint MsgNotInitialized) st)) ∧
  (driver_initialized st = true →
     ∀ r st', gemm_accel_wait fuel st = Some (r, st') →
       ∃ n rest,
         (n < fuel)%nat ∧
         (r = 0 ∨ r = -1) ∧
         appended st st'
           (poll_events st (S n) ++
            EvRead GEMM_STATUS_REG (status_at st (S n)) :: rest) ∧
         Forall (λ e, is_access e = false) rest ∧
         (∀ i, (i < n)%nat → busy_bit (status_at st i) = true) ∧
         last (poll_events st (S n)) = Some (EvRead GEMM_STATUS_REG (status_at st n)) ∧
         busy_bit (status_at st n) = false).
Proof.
  split; [apply gemm_accel_wait_uninitialized |].
  intros Hinit r st' Hrun.
  assert (∃ u st1, wait_while_busy fuel st = Some (u, st1)) as (u & st1 & Hwait).
  { revert Hrun. unfold gemm_accel_wait, bind, get_driver_initialized.
    rewrite Hinit. cbn [negb].
    destruct (wait_while_busy fuel st) as [[u st1] |]; [eauto | discriminate]. }
  destruct (wait_while_busy_returns _ _ _ _ Hwait) as (n & Hn & Hbusy & Hclear & _).
  destruct (gemm_accel_wait_after_polls fuel st n Hinit Hn Hbusy Hclear)
    as (st2 & Hrun2 & Happ & _).
  rewrite Hrun in Hrun2. injection Hrun2 as -> ->.
  exists n. eexists. split; [exact Hn |].
  split; [destruct (error_bit _); auto |].
  split; [exact Happ |].
  split; [destruct (error_bit _); repeat constructor |].
  split; [exact Hbusy |]. split; [| exact Hclear].
  unfold poll_events. rewrite seq_S, fmap_app. simpl. apply last_snoc.
Qed.

Lemma gemm_accel_wait_returns_after_busy_clear_witness :
  ∃ n rest st',
    gemm_accel_wait 8 (st_started hw_run) = Some (0, st') ∧
    appended (st_started hw_run) st'
      (poll_events (st_started hw_run) (S n) ++
       EvRead GEMM_STATUS_REG (status_at (st_started hw_run) (S n)) :: rest) ∧
    busy_bit (status_at (st_started hw_run) n) = false.
Proof.
  destruct hw_run_polls as (Hbusy & Hclear & Hok).
  destruct (gemm_accel_wait_after_polls 8 (st_started hw_run) 2)
    as (st' & Hrun & _); [reflexivity | lia | exact Hbusy | exact Hclear |].
  rewrite Hok in Hrun.
  destruct (gemm_accel_wait_returns_after_busy_clear 8 (st_started hw_run))
    as [_ Hret].
  destruct (Hret eq_refl 0 st' Hrun) as (n & rest & _ & _ & Happ & _ & _ & _ & Hlast).
  exists n, rest, st'. repeat split; assumption.
Defined.

(** C5 as the specification words it does not hold: before
    [gemm_accel_init], and with the
    accelerator busy, [gemm_accel_wait] returns although the status
    register was never read, and the hardware still shows BUSY. *)
Lemma gemm_accel_wait_returns_unpolled_counterexample :
  ∃ r st',
    gemm_accel_wait 8 (st_reset hw_busy) = Some (r, st') ∧
    trace (st_reset hw_busy) = [] ∧
    status_reads_of (trace st') = [] ∧
    busy_bit (status_now st') = true.
Proof.
  exists (-1), (log (EvPrint MsgNotInitialized) (st_reset hw_busy)).
  repeat split.
Qed.

(** The busy-wait has no timeout: in front of an accelerator that never
    drops BUSY, [gemm_accel_wait] on an initialized driver does not return
    within any bound. *)
Lemma gemm_accel_wait_stuck (fuel : nat) (st : state) :
  driver_initialized st = true →
  (∀ i, busy_bit (status_at st i) = true) →
  gemm_accel_wait fuel st = None.
Proof.
  intros Hinit Hstuck. unfold gemm_accel_wait, bind, get_driver_initialized.
  rewrite Hinit. cbn [negb]. rewrite wait_while_busy_stuck by exact Hstuck.
  reflexivity.
Qed.

(** The run of [gemm_example] ending on an error: -1 and no sample of the
    cycle counter. *)
Example gemm_accel_wait_error :
  ∃ st',
    gemm_accel_wait 8 (st_started hw_run_error) = Some (-1, st') ∧
    cycle_count st' = 100 ∧
    last (trace st') = Some (EvPrint MsgFailed).
Proof. eexists. split; [vm_compute; reflexivity |]. split; reflexivity. Qed.

(** ** The driver: [gemm_accel_init] from reset, and [gemm_example] *)

(** An uninitialized driver resets the accelerator first; when the
    hardware shows BUSY clear at the two polls that follow, the driver
    ends initialized. *)
Lemma gemm_accel_init_from_reset (fuel : nat) (st : state) :
  driver_initialized st = false →
  (0 < fuel)%nat →
  busy_bit (status_at st 0) = false →
  busy_bit (status_at st 1) = false →
  ∃ st',
    gemm_accel_init fuel st = Some (0, st') ∧
    driver_initialized st' = true ∧
    regs st' = <[GEMM_CTRL_REG := GEMM_CTRL_RESET]> (regs st) ∧
    appended st st'
      [ EvWrite GEMM_CTRL_REG GEMM_CTRL_RESET;
        EvRead GEMM_STATUS_REG (status_at st 0);
        EvPrint MsgReset;
        EvRead GEMM_STATUS_REG (status_at st 1);
        EvPrint MsgInitialized ].
Proof.
  intros Hinit Hfuel Hclear0 Hclear1.
  unfold gemm_accel_init, gemm_accel_reset, bind, get_driver_initialized.
  rewrite Hinit.
  destruct (REG_WRITE GEMM_CTRL_REG GEMM_CTRL_RESET st) as [[[] st1] |] eqn:Hw;
    [| discriminate].
  injection Hw as Hst1.
  assert (status_at st1 0 = status_at st 0) as H0 by (subst st1; reflexivity).
  rewrite (wait_while_busy_finishes fuel st1 0);
    [| exact Hfuel | intros i Hi; lia | rewrite H0; exact Hclear0].
  unfold printf at 1.
  assert (status_at (log (EvPrint MsgReset) (polls 1 st1)) 0 = status_at st 1) as H1.
  { subst st1. unfold status_at. cbn [hw_status status_polls log polls poll].
    do 2 f_equal. lia. }
  rewrite (wait_while_busy_finishes fuel _ 0);
    [| exact Hfuel | intros i Hi; lia | rewrite H1; exact Hclear1].
  eexists. split; [reflexivity |].
  subst st1. unfold appended, status_at, status_now. cbn -[uint32 Nat.add].
  rewrite Nat.add_0_r, Nat.add_1_r, <- !app_assoc.
  change (uint32 GEMM_CTRL_RESET) with GEMM_CTRL_RESET.
  repeat split.
Qed.

(** [gemm_example] from reset, with an accelerator that is busy for two
    polls: it succeeds and reports 100 cycles. *)
Example gemm_example_run :
  ∃ st',
    gemm_example 4 (st_reset hw_example) = Some (0, st') ∧
    status_reads_of (trace st') = [0; 0; 0; 1; 1; 2; 2] ∧
    filter (λ e, is_write e = true) (trace st') =
      [ EvWrite GEMM_CTRL_REG GEMM_CTRL_RESET;
        EvWrite GEMM_MATRIX_A_ADDR_REG 0x80000000;
        EvWrite GEMM_MATRIX_B_ADDR_REG 0x80001000;
        EvWrite GEMM_MATRIX_C_ADDR_REG 0x80002000;
        EvWrite GEMM_M_DIM_REG 8;
        EvWrite GEMM_K_DIM_REG 8;
        EvWrite GEMM_N_DIM_REG 8;
        EvWrite GEMM_DATA_TYPE_REG 0;
        EvWrite GEMM_STRIDE_A_REG 8;
        EvWrite GEMM_STRIDE_B_REG 8;
        EvWrite GEMM_STRIDE_C_REG 8;
        EvWrite GEMM_CTRL_REG GEMM_CTRL_START ] ∧
    filter (λ e, match e with EvPrint (MsgCompleted _) => true | _ => false end = true)
      (trace st') = [EvPrint (MsgCompleted 100)].
Proof.
  eexists. split; [vm_compute; reflexivity |].
  split; [| split]; vm_compute; reflexivity.
Qed.

(** ** Signed 32-bit arithmetic *)

Lemma int32_range z : - 2 ^ 31 ≤ int32 z < 2 ^ 31.
Proof.
  unfold int32, sint. change (32 - 1) with 31.
  pose proof (Z.mod_pos_bound (z + 2 ^ 31) (2 ^ 32)). lia.
Qed.

Lemma int32_small z : - 2 ^ 31 ≤ z < 2 ^ 31 → int32 z = z.
Proof.
  intros H. unfold int32, sint. change (32 - 1) with 31.
  rewrite Z.mod_small by lia. lia.
Qed.

(** [int32 z] is [z] up to a multiple of 2^32. *)
Lemma int32_decomp z : ∃ q, int32 z = z + q * 2 ^ 32.
Proof.
  exists (- ((z + 2 ^ 31) / 2 ^ 32)).
  unfold int32, sint. change (32 - 1) with 31.
  pose proof (Z.div_mod (z + 2 ^ 31) (2 ^ 32)). lia.
Qed.

Lemma int32_shift z q : int32 (z + q * 2 ^ 32) = int32 z.
Proof.
  unfold int32, sint. change (32 - 1) with 31.
  replace (z + q * 2 ^ 32 + 2 ^ 31) with (z + 2 ^ 31 + q * 2 ^ 32) by lia.
  rewrite Z_mod_plus_full. reflexivity.
Qed.

Lemma int32_add_l a b : int32 (int32 a + b) = int32 (a + b).
Proof.
  destruct (int32_decomp a) as [q ->].
  replace (a + q * 2 ^ 32 + b) with (a + b + q * 2 ^ 32) by lia.
  apply int32_shift.
Qed.

Lemma int32_add_r a b : int32 (a + int32 b) = int32 (a + b).
Proof. rewrite Z.add_comm, int32_add_l, Z.add_comm. reflexivity. Qed.

Lemma int32_idemp z : int32 (int32 z) = int32 z.
Proof. apply int32_small, int32_range. Qed.

(** The offset [m * stride + k] as the source computes it. *)
Lemma int_offset m stride k :
  int_add (int_mul m stride) k = int32 (m * stride + k).
Proof. unfold int_add, int_mul. apply int32_add_l. Qed.

(** ** The reference model: the loops *)

(** Accumulating in 32 bits, term after term, yields the sum of the terms
    reduced to 32 bits once. *)
Lemma accumulate_int32 (f : Z → Z) (l : list Z) (s : Z) :
  foldl (λ sum k, int_add sum (int32 (f k))) (int32 s) l =
  int32 (s + foldr Z.add 0 (f <$> l)).
Proof.
  revert s. induction l as [| k l IH]; intros s; simpl.
  - rewrite Z.add_0_r. reflexivity.
  - unfold int_add at 2. rewrite int32_add_l, int32_add_r, IH.
    f_equal. symmetry. apply Z.add_assoc.
Qed.

(** Two nested loops visit the cells row by row. *)
Lemma nested_loops_cells {S : Type} (g : Z * Z → S → S) (M N : Z) (s : S) :
  for_loop M (λ m s, for_loop N (λ n s, g (m, n) s) s) s =
  foldl (λ s c, g c s) s (cells M N).
Proof.
  unfold for_loop, cells. generalize (seqZ 0 M) as rows.
  intros rows. revert s. induction rows as [| m rows IH]; intros s; simpl.
  - reflexivity.
  - rewrite foldl_app, IH, foldl_fmap. reflexivity.
Qed.

Lemma foldl_ext_in {A B : Type} (f g : A → B → A) (l : list B) (a : A) :
  (∀ a b, f a b = g a b) → foldl f a l = foldl g a l.
Proof.
  intros Hfg. revert a. induction l as [| b l IH]; intros a; simpl.
  - reflexivity.
  - rewrite Hfg. apply IH.
Qed.

(** The inner loop of the reference model, for either element type. *)
Lemma inner_loop_dot (elem : Z → Z) (A B : Z → Z) (K stride_a stride_b m n : Z) :
  for_loop K (λ k sum,
    int_add sum
      (int_mul (elem (A (int_add (int_mul m stride_a) k)))
               (elem (B (int_add (int_mul k stride_b) n))))) 0 =
  int32 (dot elem A B K stride_a stride_b m n).
Proof.
  unfold for_loop, dot, sumZ.
  rewrite <- (Z.add_0_l (foldr _ _ _)), <- accumulate_int32.
  apply foldl_ext_in. intros sum k. rewrite !int_offset. reflexivity.
Qed.

Lemma matrix_multiply_stores (elem : Z → Z) (A B C : Z → Z)
    (M K N stride_a stride_b stride_c : Z) :
  for_loop M (λ m C,
    for_loop N (λ n C,
      let sum :=
        for_loop K (λ k sum,
          int_add sum
            (int_mul (elem (A (int_add (int_mul m stride_a) k)))
                     (elem (B (int_add (int_mul k stride_b) n))))) 0 in
      store C (int_add (int_mul m stride_c) n) sum) C) C =
  store_all C (cell_store elem A B K stride_a stride_b stride_c <$> cells M N).
Proof.
  rewrite (nested_loops_cells
    (λ c C, store C (int_add (int_mul c.1 stride_c) c.2)
              (for_loop K (λ k sum,
                 int_add sum
                   (int_mul (elem (A (int_add (int_mul c.1 stride_a) k)))
                            (elem (B (int_add (int_mul k stride_b) c.2))))) 0))).
  unfold store_all. rewrite foldl_fmap.
  apply foldl_ext_in. intros C' [m n]. unfold cell_store. simpl.
  rewrite inner_loop_dot, int_offset. reflexivity.
Qed.

(** ** The reference model: what the stores leave in the buffer *)

Lemma store_eq (C : Z → Z) (i v : Z) : store C i v i = v.
Proof. unfold store. rewrite Z.eqb_refl. reflexivity. Qed.

Lemma store_ne (C : Z → Z) (i v j : Z) : j ≠ i → store C i v j = C j.
Proof. intros H. unfold store. destruct (Z.eqb_spec j i); [contradiction | reflexivity]. Qed.

Lemma store_all_app (C : Z → Z) (l1 l2 : list (Z * Z)) :
  store_all C (l1 ++ l2) = store_all (store_all C l1) l2.
Proof. apply foldl_app. Qed.

(** An offset no store aims at keeps its content. *)
Lemma store_all_untouched (C : Z → Z) (stores : list (Z * Z)) (j : Z) :
  Forall (λ s, s.1 ≠ j) stores → store_all C stores j = C j.
Proof.
  intros H. revert C. induction H as [| s stores Hs _ IH]; intros C.
  - reflexivity.
  - unfold store_all in *. simpl. rewrite IH. apply store_ne. congruence.
Qed.

(** The last store to an offset decides its content. *)
Lemma store_all_last (C : Z → Z) (l1 l2 : list (Z * Z)) (s : Z * Z) :
  Forall (λ s', s'.1 ≠ s.1) l2 →
  store_all C (l1 ++ s :: l2) s.1 = s.2.
Proof.
  intros H. rewrite store_all_app.
  change (store_all (store_all C l1) (s :: l2))
    with (store_all (store (store_all C l1) s.1 s.2) l2).
  rewrite store_all_untouched by exact H. apply store_eq.
Qed.

Lemma seqZ_split (n i : Z) :
  0 ≤ i < n → seqZ 0 n = seqZ 0 i ++ i :: seqZ (i + 1) (n - i - 1).
Proof.
  intros H. replace n with (i + (n - i)) at 1 by lia.
  rewrite seqZ_app by lia. f_equal. rewrite seqZ_cons by lia.
  f_equal; lia.
Qed.

(** The cells after a given cell are those that follow it in row-major
    order. *)
Lemma cells_split (M N m n : Z) :
  0 ≤ m < M → 0 ≤ n < N →
  ∃ l1 l2,
    cells M N = l1 ++ (m, n) :: l2 ∧
    Forall (λ c, cell_before (m, n) c ∧ 0 ≤ c.1 < M ∧ 0 ≤ c.2 < N) l2.
Proof.
  intros Hm Hn. unfold cells.
  rewrite (seqZ_split M m Hm), bind_app, bind_cons.
  replace ((λ n0, (m, n0)) <$> seqZ 0 N)
    with (((λ n0, (m, n0)) <$> seqZ 0 n) ++
          (m, n) :: ((λ n0, (m, n0)) <$> seqZ (n + 1) (N - n - 1)))
    by (rewrite (seqZ_split N n Hn), fmap_app, fmap_cons; reflexivity).
  exists ((seqZ 0 m ≫= λ m0, (λ n0, (m0, n0)) <$> seqZ 0 N) ++
          ((λ n0, (m, n0)) <$> seqZ 0 n)),
         (((λ n0, (m, n0)) <$> seqZ (n + 1) (N - n - 1)) ++
          (seqZ (m + 1) (M - m - 1) ≫= λ m0, (λ n0, (m0, n0)) <$> seqZ 0 N)).
  split.
  { rewrite <- !app_assoc. reflexivity. }
  apply Forall_app. split.
  - apply Forall_fmap, Forall_forall. intros n' Hn'.
    apply elem_of_seqZ in Hn'. unfold cell_before. simpl. lia.
  - apply Forall_forall. intros [m' n'] Hc.
    apply list_elem_of_bind in Hc as (m'' & Hc & Hm').
    apply list_elem_of_fmap in Hc as (n'' & [= -> ->] & Hn').
    apply elem_of_seqZ in Hm', Hn'. unfold cell_before. simpl. lia.
Qed.

(** The content of the target of cell [(m, n)] once all the stores are
    done, when no later cell has the same target. *)
Lemma cell_stores_lookup (elem : Z → Z) (A B C : Z → Z)
    (M K N stride_a stride_b stride_c m n : Z) :
  0 ≤ m < M → 0 ≤ n < N →
  (∀ m' n', 0 ≤ m' < M → 0 ≤ n' < N → cell_before (m, n) (m', n') →
     int32 (m' * stride_c + n') ≠ int32 (m * stride_c + n)) →
  store_all C (cell_store elem A B K stride_a stride_b stride_c <$> cells M N)
    (int32 (m * stride_c + n)) =
  int32 (dot elem A B K stride_a stride_b m n).
Proof.
  intros Hm Hn Hlater.
  destruct (cells_split M N m n Hm Hn) as (l1 & l2 & -> & Hl2).
  rewrite fmap_app, fmap_cons.
  apply (store_all_last C _ _ (cell_store elem A B K stride_a stride_b stride_c (m, n))).
  apply Forall_fmap. eapply Forall_impl; [exact Hl2 |].
  intros [m' n'] (Hbefore & Hm' & Hn'). simpl in *. apply Hlater; assumption.
Qed.

(** C1.  Both reference products perform, for the cells [(m, n)] of the
    output taken row by row, the store of the sum over [k] of
    [A[m*stride_a + k] * B[k*stride_b + n]], reduced modulo 2^32 to a
    signed 32-bit value, at [C[m*stride_c + n]]; the offsets are built
    from the strides, never from the dimensions.  Hence on return the
    cell of [(m, n)] holds that value unless a later cell has the same
    target, which the strides may cause; this for all dimensions, strides
    and buffers. *)
Theorem matrix_multiply_reference (A B C : Z → Z)
    (M K N stride_a stride_b stride_c : Z) :
  matrix_multiply_int8 A B C M K N stride_a stride_b stride_c =
    store_all C (cell_store int8 A B K stride_a stride_b stride_c <$> cells M N) ∧
  matrix_multiply_int16 A B C M K N stride_a stride_b stride_c =
    store_all C (cell_store int16 A B K stride_a stride_b stride_c <$> cells M N) ∧
  ∀ m n, 0 ≤ m < M → 0 ≤ n < N →
    (∀ m' n', 0 ≤ m' < M → 0 ≤ n' < N → cell_before (m, n) (m', n') →
       int32 (m' * stride_c + n') ≠ int32 (m * stride_c + n)) →
    matrix_multiply_int8 A B C M K N stride_a stride_b stride_c
      (int32 (m * stride_c + n)) =
      int32 (sumZ K (λ k, int8 (A (int32 (m * stride_a + k))) *
                          int8 (B (int32 (k * stride_b + n))))) ∧
    matrix_multiply_int16 A B C M K N stride_a stride_b stride_c
      (int32 (m * stride_c + n)) =
      int32 (sumZ K (λ k, int16 (A (int32 (m * stride_a + k))) *
                          int16 (B (int32 (k * stride_b + n))))).
Proof.
  assert (matrix_multiply_int8 A B C M K N stride_a stride_b stride_c =
          store_all C (cell_store int8 A B K stride_a stride_b stride_c <$> cells M N))
    as H8 by apply matrix_multiply_stores.
  assert (matrix_multiply_int16 A B C M K N stride_a stride_b stride_c =
          store_all C (cell_store int16 A B K stride_a stride_b stride_c <$> cells M N))
    as H16 by apply matrix_multiply_stores.
  split; [exact H8 |]. split; [exact H16 |].
  intros m n Hm Hn Hlater. rewrite H8, H16.
  split; apply cell_stores_lookup; assumption.
Qed.

(** The literal scenario of the specification. *)
Lemma matrix_multiply_reference_witness :
  matrix_multiply_int8 A_literal B_literal zero_buffer 2 2 2 2 2 2 3 = 50 ∧
  matrix_multiply_int16 A_literal B_literal zero_buffer 2 2 2 2 2 2 3 = 50.
Proof.
  destruct (matrix_multiply_reference A_literal B_literal zero_buffer 2 2 2 2 2 2)
    as (_ & _ & Hcell).
  destruct (Hcell 1 1) as [H8 H16]; [lia | lia | |].
  - intros m' n' Hm' Hn' Hbefore. unfold cell_before in Hbefore. simpl in Hbefore. lia.
  - split; [exact H8 | exact H16].
Defined.

Example matrix_multiply_literal :
  contents (matrix_multiply_int8 A_literal B_literal zero_buffer 2 2 2 2 2 2) 4 =
  [19; 22; 43; 50].
Proof. vm_compute. reflexivity. Qed.

Example matrix_multiply_1x1x1 :
  contents (matrix_multiply_int8 (buffer_of [-128]) (buffer_of [-128])
              zero_buffer 1 1 1 1 1 1) 1 = [16384].
Proof. vm_compute. reflexivity. Qed.

(** Strides greater than the dimensions: the pitch of the rows is the
    stride, and the cells between the rows of the output are not written. *)
Example matrix_multiply_submatrix :
  contents (matrix_multiply_int8 A_wide B_wide zero_buffer 2 2 2 3 4 3) 6 =
  [19; 22; 0; 43; 50; 0].
Proof. vm_compute. reflexivity. Qed.

(** The accumulator wraps: (-32768)^2 + (-32768)^2 = 2^31 comes out as
    -2^31, neither clamped nor rounded. *)
Example matrix_multiply_wraps :
  contents (matrix_multiply_int16 (buffer_of [-32768; -32768])
              (buffer_of [-32768; -32768]) zero_buffer 1 2 1 2 1 1) 1 =
  [-2147483648].
Proof. vm_compute. reflexivity. Qed.

(** A stride of the output smaller than its width: the rows overlap and
    the cell they share keeps the later store. *)
Example matrix_multiply_overlap :
  contents (matrix_multiply_int8 A_literal B_literal zero_buffer 2 2 2 2 2 1) 3 =
  [19; 43; 50].
Proof. vm_compute. reflexivity. Qed.

(** ** The harness: [compare_results] *)

Lemma mismatch_count_bound (C_hw C_ref : Z → Z) (n : Z) :
  0 ≤ mismatch_count C_hw C_ref n ≤ Z.max 0 n.
Proof.
  unfold mismatch_count, mismatches.
  pose proof (length_filter (λ i, int32 (C_hw i) ≠ int32 (C_ref i)) (seqZ 0 n)) as H.
  rewrite length_seqZ in H. lia.
Qed.

(** The loop of [compare_results] over any offsets: the counter does not
    overflow as long as the offsets are fewer than 2^31. *)
Lemma compare_loop (C_hw C_ref : Z → Z) (l : list Z) (errors : Z) (out : list out_line) :
  0 ≤ errors →
  errors + Z.of_nat (length l) < 2 ^ 31 →
  foldl (λ s i,
      (λ (i : Z) '(errors, out),
         if negb (int32 (C_hw i) =? int32 (C_ref i))
         then (int_add errors 1,
               out ++ [OutMismatch i (int32 (C_hw i)) (int32 (C_ref i))])
         else (errors, out)) i s) (errors, out) l =
  (errors + Z.of_nat (length (filter (λ i, int32 (C_hw i) ≠ int32 (C_ref i)) l)),
   out ++ ((λ i, OutMismatch i (int32 (C_hw i)) (int32 (C_ref i))) <$>
           filter (λ i, int32 (C_hw i) ≠ int32 (C_ref i)) l)).
Proof.
  revert errors out. induction l as [| i l IH]; intros errors out Hpos Hbound.
  - simpl. rewrite Z.add_0_r, app_nil_r. reflexivity.
  - cbn [foldl]. rewrite length_cons in Hbound.
    destruct (Z.eqb_spec (int32 (C_hw i)) (int32 (C_ref i))) as [Heq | Hne]; cbn [negb].
    + rewrite filter_cons_False by (intros H; contradiction).
      apply IH; lia.
    + rewrite filter_cons_True by exact Hne.
      unfold int_add. rewrite int32_small by lia.
      rewrite IH by lia. rewrite length_cons, fmap_cons, <- app_assoc.
      f_equal. lia.
Qed.

Lemma compare_results_spec (C_hw C_ref : Z → Z) (M N : Z) :
  - 2 ^ 31 ≤ M * N < 2 ^ 31 →
  compare_results C_hw C_ref M N =
  (mismatch_count C_hw C_ref (M * N),
   (λ i, OutMismatch i (int32 (C_hw i)) (int32 (C_ref i))) <$>
     mismatches C_hw C_ref (M * N)).
Proof.
  intros Hrange. unfold compare_results, for_loop, int_mul.
  rewrite int32_small by exact Hrange.
  rewrite compare_loop; [reflexivity | lia |].
  rewrite length_seqZ. lia.
Qed.

(** ** The harness: [main] *)

Section MainLoop.

Variable rand : nat → Z.
Variable malloc_junk : Z → Z.

(** One iteration of the loop of [main]: it adds the mismatches of its
    test case to the running total, without overflow while the total
    stays below 2^31. *)
Lemma main_body_case (t : Z) (tc : test_case_t)
    (total_errors : Z) (calls : nat) (out : list out_line) :
  test_cases !! Z.to_nat t = Some tc →
  - 2 ^ 31 ≤ tc_M tc * tc_N tc < 2 ^ 31 →
  0 ≤ total_errors →
  total_errors + Z.max 0 (tc_M tc * tc_N tc) < 2 ^ 31 →
  ∃ out',
    main_body rand malloc_junk t (total_errors, calls, out) =
    (total_errors +
       mismatch_count (case_buffers rand malloc_junk tc calls).1.1
         (case_buffers rand malloc_junk tc calls).1.2 (tc_M tc * tc_N tc),
     (case_buffers rand malloc_junk tc calls).2,
     out').
Proof.
  intros Hlookup Hrange Hpos Hbound.
  unfold main_body, case_buffers.
  rewrite (list_lookup_total_correct _ _ _ Hlookup).
  destruct (tc_data_type tc =? 0).
  - destruct (generate_test_matrices_int8 rand malloc_junk malloc_junk
                (tc_M tc) (tc_K tc) (tc_N tc) calls) as [[A B] calls'].
    rewrite compare_results_spec by exact Hrange. cbn [fst snd].
    pose proof (mismatch_count_bound
      (memset_zero malloc_junk (tc_M tc * tc_N tc))
      (matrix_multiply_int8 A B malloc_junk (tc_M tc) (tc_K tc) (tc_N tc)
         (tc_K tc) (tc_N tc) (tc_N tc)) (tc_M tc * tc_N tc)) as Hcount.
    unfold int_add. rewrite int32_small by lia. eexists. reflexivity.
  - destruct (generate_test_matrices_int16 rand malloc_junk malloc_junk
                (tc_M tc) (tc_K tc) (tc_N tc) calls) as [[A B] calls'].
    rewrite compare_results_spec by exact Hrange. cbn [fst snd].
    pose proof (mismatch_count_bound
      (memset_zero malloc_junk (tc_M tc * tc_N tc))
      (matrix_multiply_int16 A B malloc_junk (tc_M tc) (tc_K tc) (tc_N tc)
         (tc_K tc) (tc_N tc) (tc_N tc)) (tc_M tc * tc_N tc)) as Hcount.
    unfold int_add. rewrite int32_small by lia. eexists. reflexivity.
Qed.

Lemma case_counts_cons (tc : test_case_t) (tcs : list test_case_t) (calls : nat) :
  case_counts rand malloc_junk (tc :: tcs) calls =
  mismatch_count (case_buffers rand malloc_junk tc calls).1.1
    (case_buffers rand malloc_junk tc calls).1.2 (tc_M tc * tc_N tc)
  :: case_counts rand malloc_junk tcs (case_buffers rand malloc_junk tc calls).2.
Proof.
  cbn [case_counts].
  destruct (case_buffers rand malloc_junk tc calls) as [[C_hw C_ref] calls'].
  reflexivity.
Qed.

Lemma length_case_counts (tcs : list test_case_t) (calls : nat) :
  length (case_counts rand malloc_junk tcs calls) = length tcs.
Proof.
  revert calls. induction tcs as [| tc tcs IH]; intros calls; [reflexivity |].
  rewrite case_counts_cons. simpl. rewrite IH. reflexivity.
Qed.

Lemma case_counts_nonneg (tcs : list test_case_t) (calls : nat) :
  0 ≤ total_of (case_counts rand malloc_junk tcs calls).
Proof.
  revert calls. induction tcs as [| tc tcs IH]; intros calls; [reflexivity |].
  rewrite case_counts_cons. unfold total_of in *. cbn [foldr].
  pose proof (mismatch_count_bound (case_buffers rand malloc_junk tc calls).1.1
                (case_buffers rand malloc_junk tc calls).1.2 (tc_M tc * tc_N tc)).
  specialize (IH (case_buffers rand malloc_junk tc calls).2). lia.
Qed.

Lemma cells_of_cons (tc : test_case_t) (tcs : list test_case_t) :
  cells_of (tc :: tcs) = Z.max 0 (tc_M tc * tc_N tc) + cells_of tcs.
Proof. reflexivity. Qed.

Lemma cells_of_nonneg (tcs : list test_case_t) : 0 ≤ cells_of tcs.
Proof.
  induction tcs as [| tc tcs IH]; [reflexivity |].
  rewrite cells_of_cons. lia.
Qed.

(** The loop of [main] from test [k] on. *)
Lemma main_loop_from (tcs : list test_case_t) (k : nat)
    (total_errors : Z) (calls : nat) (out : list out_line) :
  drop k test_cases = tcs →
  Forall (λ tc, - 2 ^ 31 ≤ tc_M tc * tc_N tc < 2 ^ 31) tcs →
  0 ≤ total_errors →
  total_errors + cells_of tcs < 2 ^ 31 →
  ∃ calls' out',
    foldl (λ s t, main_body rand malloc_junk t s) (total_errors, calls, out)
      (seqZ (Z.of_nat k) (Z.of_nat (length tcs))) =
    (total_errors + total_of (case_counts rand malloc_junk tcs calls), calls', out').
Proof.
  revert k total_errors calls out.
  induction tcs as [| tc tcs IH]; intros k total_errors calls out Hdrop Hranges Hpos Hbound.
  - exists calls, out. simpl. rewrite Z.add_0_r. reflexivity.
  - apply Forall_cons in Hranges as [Hrange Hranges].
    rewrite cells_of_cons in Hbound.
    pose proof (cells_of_nonneg tcs) as Hcells.
    assert (test_cases !! Z.to_nat (Z.of_nat k) = Some tc) as Hlookup.
    { pose proof (lookup_drop test_cases k 0) as H.
      rewrite Nat.add_0_r, Hdrop in H. rewrite Nat2Z.id. symmetry. exact H. }
    assert (drop (S k) test_cases = tcs) as Hdrop'.
    { rewrite Nat2Z.id in Hlookup. apply drop_S in Hlookup.
      rewrite Hdrop in Hlookup. congruence. }
    rewrite length_cons, Nat2Z.inj_succ, seqZ_cons by lia. cbn [foldl].
    destruct (main_body_case (Z.of_nat k) tc total_errors calls out Hlookup Hrange Hpos)
      as [out1 ->]; [lia |].
    pose proof (mismatch_count_bound (case_buffers rand malloc_junk tc calls).1.1
                  (case_buffers rand malloc_junk tc calls).1.2 (tc_M tc * tc_N tc)) as Hc.
    rewrite Z.pred_succ, <- Nat2Z.inj_succ.
    destruct (IH (S k)
                (total_errors +
                 mismatch_count (case_buffers rand malloc_junk tc calls).1.1
                   (case_buffers rand malloc_junk tc calls).1.2 (tc_M tc * tc_N tc))
                (case_buffers rand malloc_junk tc calls).2 out1 Hdrop' Hranges)
      as (calls' & out' & ->); [lia | lia |].
    exists calls', out'. rewrite case_counts_cons.
    unfold total_of. cbn [foldr]. f_equal. f_equal. lia.
Qed.

(** [main] returns the sum of the mismatch counts of its test cases. *)
Lemma main_total :
  (main rand malloc_junk).1 = total_of (case_counts rand malloc_junk test_cases 0).
Proof.
  unfold main, for_loop.
  destruct (main_loop_from test_cases 0 0 0 [OutTitle; OutRule])
    as (calls' & out' & Hloop).
  - reflexivity.
  - repeat constructor; cbv; discriminate.
  - lia.
  - vm_compute. reflexivity.
  - change (Z.of_nat 0) with 0 in Hloop. rewrite Hloop. reflexivity.
Qed.

End MainLoop.

(** C6.  [compare_results] returns the number of offsets below [M * N]
    at which the two buffers differ, and prints one line per such offset;
    [main] returns the sum of these counts over its eight test cases, so
    its result is nonzero exactly when that total is. *)
Theorem compare_results_counts_and_main_totals (rand : nat → Z) (malloc_junk : Z → Z) :
  (∀ C_hw C_ref M N,
     - 2 ^ 31 ≤ M * N < 2 ^ 31 →
     (compare_results C_hw C_ref M N).1 =
       Z.of_nat (length (filter (λ i, int32 (C_hw i) ≠ int32 (C_ref i))
                           (seqZ 0 (M * N)))) ∧
     (compare_results C_hw C_ref M N).2 =
       (λ i, OutMismatch i (int32 (C_hw i)) (int32 (C_ref i))) <$>
         filter (λ i, int32 (C_hw i) ≠ int32 (C_ref i)) (seqZ 0 (M * N))) ∧
  length (case_counts rand malloc_junk test_cases 0) = 8%nat ∧
  (main rand malloc_junk).1 = total_of (case_counts rand malloc_junk test_cases 0) ∧
  ((main rand malloc_junk).1 ≠ 0 ↔
   total_of (case_counts rand malloc_junk test_cases 0) ≠ 0).
Proof.
  split; [| split; [| split]].
  - intros C_hw C_ref M N Hrange.
    rewrite compare_results_spec by exact Hrange. split; reflexivity.
  - apply length_case_counts.
  - apply main_total.
  - rewrite main_total. reflexivity.
Qed.

Lemma compare_results_counts_and_main_totals_witness :
  (compare_results C_hw_example C_ref_example 2 2).1 = 2 ∧
  (compare_results C_hw_example C_ref_example 2 2).2 =
    [OutMismatch 1 2 0; OutMismatch 3 4 5].
Proof.
  destruct (compare_results_counts_and_main_totals (λ _, 0) zero_buffer)
    as (Hcompare & _).
  destruct (Hcompare C_hw_example C_ref_example 2 2) as [Hcount Hlines]; [lia |].
  rewrite Hcount, Hlines. split; vm_compute; reflexivity.
Defined.

(** * Further properties of the driver *)

Lemma status_at_after (k : nat) (st st' : state) (i : nat) :
  hw_after k st st' → status_at st' i = status_at st (k + i).
Proof.
  intros [Hhw Hpolls]. unfold status_at. rewrite Hhw, Hpolls.
  do 2 f_equal. lia.
Qed.

Lemma status_now_after (k : nat) (st st' : state) :
  hw_after k st st' → status_now st' = status_at st k.
Proof.
  intros H. rewrite <- status_at_0, (status_at_after k st st' 0 H).
  rewrite Nat.add_0_r. reflexivity.
Qed.

Lemma hw_after_polls (n : nat) (st : state) : hw_after n st (polls n st).
Proof.
  destruct (polls_frame n st) as (_ & _ & _ & _ & Hhw & Hpolls).
  split; assumption.
Qed.

Lemma poll_events_no_write (st : state) (n : nat) :
  Forall (λ e, is_write e = false) (poll_events st n).
Proof. unfold poll_events. apply Forall_fmap, Forall_forall. reflexivity. Qed.

Lemma uint32_sub_l (a b : Z) : uint32 (uint32 a - b) = uint32 (a - b).
Proof. unfold uint32. apply Zminus_mod_idemp_l. Qed.

(** A successful [gemm_accel_start], with the state it leaves. *)
Lemma gemm_accel_start_valid (st : state) (c : gemm_config_t) :
  config_wf c →
  config_valid c →
  driver_initialized st = true →
  busy_bit (status_now st) = false →
  ∃ st',
    gemm_accel_start (Some c) st = Some (0, st') ∧
    regs st' = programmed c (regs st) ∧
    driver_initialized st' = true ∧
    cycle_count_start st' = uint32 (cycle_count st + 100) ∧
    cycle_count st' = uint32 (cycle_count st + 100) ∧
    hw_after 1 st st' ∧
    last (trace st') =
      Some (EvPrint (MsgStarted (m_dim c) (k_dim c) (n_dim c)
                       (if data_type c =? GEMM_DATA_TYPE_INT8
                        then "int8"%string else "int16"%string))).
Proof.
  intros Hwf (Hm & Hk & Hn & Hty) Hinit Hbusy.
  unfold gemm_accel_start, bind, get_driver_initialized.
  rewrite Hinit. cbn [negb]. rewrite gemm_accel_is_busy_spec, Hbusy.
  destruct (Z.eqb_spec (m_dim c) 0); [contradiction |].
  destruct (Z.eqb_spec (k_dim c) 0); [contradiction |].
  destruct (Z.eqb_spec (n_dim c) 0); [contradiction |].
  cbn [orb].
  destruct (Z.ltb_spec GEMM_DATA_TYPE_INT16 (data_type c)) as [Hbad | _].
  { unfold GEMM_DATA_TYPE_INT16, GEMM_DATA_TYPE_INT8 in *. lia. }
  cbn -[uint32 Z.add].
  destruct Hwf as [Ha Hb Hc Hmr Hkr Hnr Htr Hsa Hsb Hsc].
  rewrite !(uint32_small (matrix_a_addr c)), !(uint32_small (matrix_b_addr c)),
    !(uint32_small (matrix_c_addr c)), !(uint32_small (m_dim c)),
    !(uint32_small (k_dim c)), !(uint32_small (n_dim c)),
    !(uint32_small (data_type c)), !(uint32_small (stride_a c)),
    !(uint32_small (stride_b c)), !(uint32_small (stride_c c)) by lia.
  change (uint32 GEMM_CTRL_START) with GEMM_CTRL_START.
  eexists. split; [reflexivity |]. unfold hw_after, programmed.
  cbn -[uint32 Z.add]. rewrite Hinit, Nat.add_1_r, last_snoc.
  repeat split.
Qed.

(** A [gemm_accel_start] that finds the accelerator busy. *)
Lemma gemm_accel_start_busy (st : state) (c : gemm_config_t) :
  driver_initialized st = true →
  busy_bit (status_now st) = true →
  gemm_accel_start (Some c) st = Some (-1, log (EvPrint MsgBusy) (poll st)).
Proof.
  intros Hinit Hbusy. unfold gemm_accel_start, bind, get_driver_initialized.
  rewrite Hinit. cbn [negb]. rewrite gemm_accel_is_busy_spec, Hbusy. reflexivity.
Qed.

Ltac reg_addr :=
  unfold GEMM_CTRL_REG, GEMM_STATUS_REG, GEMM_MATRIX_A_ADDR_REG,
    GEMM_MATRIX_B_ADDR_REG, GEMM_MATRIX_C_ADDR_REG, GEMM_M_DIM_REG,
    GEMM_K_DIM_REG, GEMM_N_DIM_REG, GEMM_DATA_TYPE_REG, GEMM_STRIDE_A_REG,
    GEMM_STRIDE_B_REG, GEMM_STRIDE_C_REG, GEMM_ACCEL_BASE_ADDR in *.

Ltac reg_lookup :=
  unfold programmed;
  repeat (rewrite lookup_insert_ne by (reg_addr; lia));
  rewrite lookup_insert_eq.

(** X1.  After a successful [gemm_accel_start] each of the ten
    configuration registers reads back the field of the configuration
    written to it, the control register holds exactly START (its other
    bits, IRQ_EN included, are cleared by the write), and every other
    register of the block is unchanged: the eleven addresses are distinct. *)
Theorem gemm_accel_start_readback (st : state) (c : gemm_config_t) :
  config_wf c →
  config_valid c →
  driver_initialized st = true →
  busy_bit (status_now st) = false →
  ∃ st',
    gemm_accel_start (Some c) st = Some (0, st') ∧
    reg_value st' GEMM_MATRIX_A_ADDR_REG = matrix_a_addr c ∧
    reg_value st' GEMM_MATRIX_B_ADDR_REG = matrix_b_addr c ∧
    reg_value st' GEMM_MATRIX_C_ADDR_REG = matrix_c_addr c ∧
    reg_value st' GEMM_M_DIM_REG = m_dim c ∧
    reg_value st' GEMM_K_DIM_REG = k_dim c ∧
    reg_value st' GEMM_N_DIM_REG = n_dim c ∧
    reg_value st' GEMM_DATA_TYPE_REG = data_type c ∧
    reg_value st' GEMM_STRIDE_A_REG = stride_a c ∧
    reg_value st' GEMM_STRIDE_B_REG = stride_b c ∧
    reg_value st' GEMM_STRIDE_C_REG = stride_c c ∧
    reg_value st' GEMM_CTRL_REG = GEMM_CTRL_START ∧
    (∀ addr, addr ∉ start_registers → regs st' !! addr = regs st !! addr).
Proof.
  intros Hwf Hvalid Hinit Hbusy.
  destruct (gemm_accel_start_valid st c Hwf Hvalid Hinit Hbusy)
    as (st' & Hrun & Hregs & _).
  exists st'. split; [exact Hrun |].
  destruct Hwf as [Ha Hb Hc Hmr Hkr Hnr Htr Hsa Hsb Hsc].
  unfold reg_value. rewrite Hregs.
  repeat (split; [reg_lookup; cbn [default]; apply uint32_small;
                  first [lia | unfold GEMM_CTRL_START; cbv; split; congruence] |]).
  intros addr Hnotin. unfold start_registers in Hnotin.
  rewrite !not_elem_of_cons in Hnotin.
  destruct Hnotin as (? & ? & ? & ? & ? & ? & ? & ? & ? & ? & ? & _).
  unfold programmed. rewrite !lookup_insert_ne by congruence. reflexivity.
Qed.

Lemma gemm_accel_start_readback_witness :
  ∃ st',
    gemm_accel_start (Some cfg_example) (st_ready hw_idle) = Some (0, st') ∧
    reg_value st' GEMM_N_DIM_REG = 8 ∧
    reg_value st' GEMM_CTRL_REG = GEMM_CTRL_START.
Proof.
  destruct (gemm_accel_start_readback (st_ready hw_idle) cfg_example)
    as (st' & Hrun & _ & _ & _ & _ & _ & Hn & _ & _ & _ & _ & Hctrl & _).
  - exact config_wf_example.
  - repeat split; try discriminate. left. reflexivity.
  - reflexivity.
  - reflexivity.
  - exists st'. repeat split; assumption.
Defined.

(** [gemm_accel_set_interrupt_enable] with the state it leaves. *)
Lemma gemm_accel_set_interrupt_enable_run (st : state) (enable : bool) :
  ∃ st',
    gemm_accel_set_interrupt_enable enable st = Some (tt, st') ∧
    same_statics st st' ∧
    hw_after 0 st st' ∧
    regs st' =
      <[GEMM_CTRL_REG :=
          uint32 (if enable then Z.lor (reg_value st GEMM_CTRL_REG) GEMM_CTRL_IRQ_EN
                  else Z.land (reg_value st GEMM_CTRL_REG)
                         (uint32 (Z.lnot GEMM_CTRL_IRQ_EN)))]> (regs st).
Proof.
  unfold gemm_accel_set_interrupt_enable, bind, REG_READ, REG_WRITE.
  change (GEMM_CTRL_REG =? GEMM_STATUS_REG) with false. cbv iota.
  eexists. split; [reflexivity |]. unfold same_statics, hw_after.
  cbn -[uint32]. rewrite Nat.add_0_r. repeat split.
Qed.

(** The control register after the read-modify-write, bit by bit. *)
Lemma gemm_accel_set_interrupt_enable_bits (st st' : state) (enable : bool) (i : Z) :
  regs st' =
    <[GEMM_CTRL_REG :=
        uint32 (if enable then Z.lor (reg_value st GEMM_CTRL_REG) GEMM_CTRL_IRQ_EN
                else Z.land (reg_value st GEMM_CTRL_REG)
                       (uint32 (Z.lnot GEMM_CTRL_IRQ_EN)))]> (regs st) →
  Z.testbit (reg_value st' GEMM_CTRL_REG) i =
  if i =? 2 then enable else Z.testbit (reg_value st GEMM_CTRL_REG) i.
Proof.
  intros Hregs.
  rewrite <- (irq_update_testbit (reg_value st GEMM_CTRL_REG) enable i)
    by apply uint32_range.
  f_equal. unfold reg_value at 1. rewrite Hregs, lookup_insert_eq.
  apply uint32_idemp.
Qed.

(** X2.  The interrupt enable does not survive a start: after
    [gemm_accel_set_interrupt_enable(true)] the IRQ_EN bit of the control
    register is set, and a successful [gemm_accel_start] that follows
    clears it again, since it writes START alone to the control register. *)
Theorem gemm_accel_start_clears_irq_enable (st : state) (c : gemm_config_t) :
  config_wf c →
  config_valid c →
  driver_initialized st = true →
  busy_bit (status_now st) = false →
  ∃ st1 st2,
    gemm_accel_set_interrupt_enable true st = Some (tt, st1) ∧
    Z.testbit (reg_value st1 GEMM_CTRL_REG) 2 = true ∧
    gemm_accel_start (Some c) st1 = Some (0, st2) ∧
    Z.testbit (reg_value st2 GEMM_CTRL_REG) 2 = false.
Proof.
  intros Hwf Hvalid Hinit Hbusy.
  destruct (gemm_accel_set_interrupt_enable_run st true)
    as (st1 & Hrun1 & (Hinit1 & _ & _) & Hhw & Hregs1).
  assert (busy_bit (status_now st1) = false) as Hbusy1.
  { rewrite (status_now_after 0 st st1 Hhw), status_at_0. exact Hbusy. }
  destruct (gemm_accel_start_valid st1 c Hwf Hvalid) as (st2 & Hrun2 & Hregs2 & _);
    [congruence | exact Hbusy1 |].
  exists st1, st2. split; [exact Hrun1 |]. split; [| split; [exact Hrun2 |]].
  - rewrite (gemm_accel_set_interrupt_enable_bits st st1 true 2 Hregs1). reflexivity.
  - unfold reg_value. rewrite Hregs2. unfold programmed.
    rewrite lookup_insert_eq. reflexivity.
Qed.

Lemma gemm_accel_start_clears_irq_enable_witness :
  ∃ st1 st2,
    gemm_accel_set_interrupt_enable true (st_ready hw_idle) = Some (tt, st1) ∧
    Z.testbit (reg_value st1 GEMM_CTRL_REG) 2 = true ∧
    gemm_accel_start (Some cfg_example) st1 = Some (0, st2) ∧
    Z.testbit (reg_value st2 GEMM_CTRL_REG) 2 = false.
Proof.
  apply (gemm_accel_start_clears_irq_enable (st_ready hw_idle) cfg_example).
  - exact config_wf_example.
  - repeat split; try discriminate. left. reflexivity.
  - reflexivity.
  - reflexivity.
Defined.

(** X3.  [gemm_accel_set_interrupt_enable] is idempotent, and the last
    call wins: after two calls in a row the control register is, bit for
    bit, what the second call alone would have left. *)
Theorem gemm_accel_set_interrupt_enable_twice (st : state) (first second : bool) :
  ∃ st1 st2 st2',
    gemm_accel_set_interrupt_enable first st = Some (tt, st1) ∧
    gemm_accel_set_interrupt_enable second st1 = Some (tt, st2) ∧
    gemm_accel_set_interrupt_enable second st = Some (tt, st2') ∧
    reg_value st2 GEMM_CTRL_REG = reg_value st2' GEMM_CTRL_REG.
Proof.
  destruct (gemm_accel_set_interrupt_enable_run st first) as (st1 & Hrun1 & _ & _ & Hregs1).
  destruct (gemm_accel_set_interrupt_enable_run st1 second) as (st2 & Hrun2 & _ & _ & Hregs2).
  destruct (gemm_accel_set_interrupt_enable_run st second) as (st2' & Hrun2' & _ & _ & Hregs2').
  exists st1, st2, st2'. repeat (split; [assumption |]).
  apply Z.bits_inj'. intros i _.
  rewrite (gemm_accel_set_interrupt_enable_bits st1 st2 second i Hregs2),
    (gemm_accel_set_interrupt_enable_bits st st2' second i Hregs2'),
    (gemm_accel_set_interrupt_enable_bits st st1 first i Hregs1).
  destruct (i =? 2); reflexivity.
Qed.

(** [gemm_accel_wait] once its busy-wait has finished after [n] busy
    polls, with the state it leaves. *)
Lemma gemm_accel_wait_after_polls_state (fuel : nat) (st : state) (n : nat) :
  driver_initialized st = true →
  (n < fuel)%nat →
  (∀ i, (i < n)%nat → busy_bit (status_at st i) = true) →
  busy_bit (status_at st n) = false →
  ∃ st',
    gemm_accel_wait fuel st =
      Some (if error_bit (status_at st (S n)) then -1 else 0, st') ∧
    hw_after (S (S n)) st st' ∧
    driver_initialized st' = true ∧
    regs st' = regs st ∧
    cycle_count_start st' = cycle_count_start st ∧
    last (trace st') =
      Some (EvPrint
        (if error_bit (status_at st (S n)) then MsgFailed
         else MsgCompleted
                (int32 (uint32 (uint32 (cycle_count st + 100) - cycle_count_start st))))).
Proof.
  intros Hinit Hn Hbusy Hclear.
  unfold gemm_accel_wait, bind, get_driver_initialized.
  rewrite Hinit. cbn [negb].
  rewrite (wait_while_busy_finishes fuel st n) by assumption.
  rewrite gemm_accel_has_error_spec, status_now_polls.
  destruct (polls_frame (S n) st) as (Hi & Hstart & Hcount & Hregs & Hhw & Hpolls).
  destruct (error_bit (status_at st (S n))).
  - eexists. split; [reflexivity |]. unfold hw_after.
    cbn -[polls uint32 int32 Z.add Z.sub]. rewrite last_snoc, Hhw, Hpolls, Hi, Hinit.
    repeat split; try assumption. lia.
  - eexists. split; [reflexivity |]. unfold hw_after.
    cbn -[polls uint32 int32 Z.add Z.sub].
    rewrite last_snoc, Hhw, Hpolls, Hi, Hinit, Hcount, Hstart.
    repeat split; try assumption. lia.
Qed.

Lemma elapsed_one_sample (c : Z) :
  uint32 (uint32 (uint32 (c + 100) + 100) - uint32 (c + 100)) = 100.
Proof.
  rewrite uint32_sub_l.
  replace (uint32 (c + 100) + 100 - uint32 (c + 100)) with 100 by lia.
  reflexivity.
Qed.

(** X4.  The elapsed count is that of a placeholder counter: when
    [gemm_accel_wait] directly follows a successful [gemm_accel_start]
    and completes without error, the count it prints is always 100, however
    many polls the accelerator stayed busy and whatever the value of the
    counter, because the counter advances by 100 at each sample and is
    sampled once in each of the two calls. *)
Theorem gemm_accel_start_wait_elapsed_100 (fuel : nat) (st : state)
    (c : gemm_config_t) (n : nat) :
  config_wf c →
  config_valid c →
  driver_initialized st = true →
  busy_bit (status_at st 0) = false →
  (n < fuel)%nat →
  (∀ i, (i < n)%nat → busy_bit (status_at st (S i)) = true) →
  busy_bit (status_at st (S n)) = false →
  error_bit (status_at st (S (S n))) = false →
  ∃ st1 st2,
    gemm_accel_start (Some c) st = Some (0, st1) ∧
    gemm_accel_wait fuel st1 = Some (0, st2) ∧
    last (trace st2) = Some (EvPrint (MsgCompleted 100)).
Proof.
  intros Hwf Hvalid Hinit Hidle Hn Hbusy Hclear Hok.
  rewrite status_at_0 in Hidle.
  destruct (gemm_accel_start_valid st c Hwf Hvalid Hinit Hidle)
    as (st1 & Hrun1 & _ & Hinit1 & Hstart1 & Hcount1 & Hhw1 & _).
  destruct (gemm_accel_wait_after_polls_state fuel st1 n Hinit1 Hn)
    as (st2 & Hrun2 & _ & _ & _ & _ & Hlast).
  - intros i Hi. rewrite (status_at_after 1 st st1 i Hhw1). apply Hbusy, Hi.
  - rewrite (status_at_after 1 st st1 n Hhw1). exact Hclear.
  - rewrite (status_at_after 1 st st1 (S n) Hhw1) in Hrun2, Hlast.
    change (1 + S n)%nat with (S (S n)) in Hrun2, Hlast.
    rewrite Hok in Hrun2, Hlast.
    rewrite Hstart1, Hcount1, elapsed_one_sample in Hlast.
    change (int32 100) with 100 in Hlast.
    exists st1, st2. repeat split; assumption.
Qed.

Lemma gemm_accel_start_wait_elapsed_100_witness :
  ∃ st1 st2,
    gemm_accel_start (Some cfg_example) (st_ready hw_run) = Some (0, st1) ∧
    gemm_accel_wait 8 st1 = Some (0, st2) ∧
    last (trace st2) = Some (EvPrint (MsgCompleted 100)).
Proof.
  apply (gemm_accel_start_wait_elapsed_100 8 (st_ready hw_run) cfg_example 2).
  - exact config_wf_example.
  - repeat split; try discriminate. left. reflexivity.
  - reflexivity.
  - reflexivity.
  - lia.
  - intros [| [| i]] Hi; [reflexivity | reflexivity | lia].
  - reflexivity.
  - reflexivity.
Defined.

Lemma gemm_accel_status_initialized (st : state) :
  driver_initialized st = true →
  gemm_accel_status st = Some (status_code (status_now st), poll st).
Proof.
  intros Hinit. unfold gemm_accel_status, bind, get_driver_initialized.
  rewrite Hinit. cbn [negb].
  rewrite REG_READ_status, error_test, done_test, busy_test.
  unfold status_code.
  destruct (error_bit (status_now st)), (done_bit (status_now st)),
    (busy_bit (status_now st)); reflexivity.
Qed.

(** X5.  [gemm_accel_wait] and [gemm_accel_status] agree on a status
    register that holds still: if the value [v] seen by the last poll of
    [gemm_accel_wait] is also the one its error check and the following
    [gemm_accel_status] read, then the status reported is never Busy; it is
    Error (-1) exactly when [gemm_accel_wait] returned -1, and Done (1) or
    Idle (2) when it returned 0. *)
Theorem gemm_accel_wait_then_status (fuel : nat) (st : state) (n : nat) :
  driver_initialized st = true →
  (n < fuel)%nat →
  (∀ i, (i < n)%nat → busy_bit (status_at st i) = true) →
  busy_bit (status_at st n) = false →
  status_at st (S n) = status_at st n →
  status_at st (S (S n)) = status_at st n →
  ∃ r st1 s st2,
    gemm_accel_wait fuel st = Some (r, st1) ∧
    gemm_accel_status st1 = Some (s, st2) ∧
    s ≠ 0 ∧
    (r = -1 ↔ s = -1) ∧
    (r = 0 ↔ s = 1 ∨ s = 2).
Proof.
  intros Hinit Hn Hbusy Hclear Hsame1 Hsame2.
  destruct (gemm_accel_wait_after_polls_state fuel st n Hinit Hn Hbusy Hclear)
    as (st1 & Hrun & Hhw & Hinit1 & _).
  rewrite Hsame1 in Hrun.
  exists (if error_bit (status_at st n) then -1 else 0), st1,
    (status_code (status_at st n)), (poll st1).
  split; [exact Hrun |].
  rewrite (gemm_accel_status_initialized st1 Hinit1),
    (status_now_after (S (S n)) st st1 Hhw), Hsame2.
  split; [reflexivity |].
  unfold status_code. rewrite Hclear.
  destruct (error_bit (status_at st n)), (done_bit (status_at st n));
    repeat split; intros; try discriminate; try lia; auto.
Qed.

Lemma gemm_accel_wait_then_status_witness :
  ∃ r st1 s st2,
    gemm_accel_wait 8 (st_started hw_run) = Some (r, st1) ∧
    gemm_accel_status st1 = Some (s, st2) ∧
    s ≠ 0 ∧
    (r = -1 ↔ s = -1) ∧
    (r = 0 ↔ s = 1 ∨ s = 2).
Proof.
  apply (gemm_accel_wait_then_status 8 (st_started hw_run) 2).
  - reflexivity.
  - lia.
  - intros [| [| i]] Hi; [reflexivity | reflexivity | lia].
  - reflexivity.
  - reflexivity.
  - reflexivity.
Defined.

Lemma REG_WRITE_run (addr val : Z) (st : state) :
  REG_WRITE addr val st = Some (tt, after_write addr val st).
Proof. reflexivity. Qed.

Lemma status_at_after_write (addr val : Z) (st : state) (i : nat) :
  status_at (after_write addr val st) i = status_at st i.
Proof. reflexivity. Qed.

Lemma status_at_log (e : event) (st : state) (i : nat) :
  status_at (log e st) i = status_at st i.
Proof. reflexivity. Qed.

(** X6.  None of the busy-waits of the driver has a timeout: in front of
    an accelerator whose status register shows BUSY at every read,
    [gemm_accel_reset], [gemm_accel_init] on an uninitialized driver and
    [gemm_accel_wait] on an initialized one do not return, whatever the
    number of polls allowed. *)
Theorem busy_waits_never_time_out (st : state) :
  (∀ i, busy_bit (status_at st i) = true) →
  ∀ fuel,
    gemm_accel_reset fuel st = None ∧
    (driver_initialized st = false → gemm_accel_init fuel st = None) ∧
    (driver_initialized st = true → gemm_accel_wait fuel st = None).
Proof.
  intros Hstuck fuel.
  assert (gemm_accel_reset fuel st = None) as Hreset.
  { unfold gemm_accel_reset, bind. rewrite REG_WRITE_run.
    rewrite wait_while_busy_stuck; [reflexivity |].
    intros i. rewrite status_at_after_write. apply Hstuck. }
  split; [exact Hreset |]. split.
  - intros Hinit. unfold gemm_accel_init, bind, get_driver_initialized.
    rewrite Hinit, Hreset. reflexivity.
  - intros Hinit. unfold gemm_accel_wait, bind, get_driver_initialized.
    rewrite Hinit. cbn [negb]. rewrite wait_while_busy_stuck by exact Hstuck.
    reflexivity.
Qed.

Lemma busy_waits_never_time_out_witness :
  gemm_accel_reset 1000 (st_reset hw_busy) = None ∧
  gemm_accel_init 1000 (st_reset hw_busy) = None ∧
  gemm_accel_wait 1000 (st_ready hw_busy) = None.
Proof.
  destruct (busy_waits_never_time_out (st_reset hw_busy)) with (fuel := 1000%nat)
    as (Hreset & Hinit & _); [intros i; reflexivity |].
  destruct (busy_waits_never_time_out (st_ready hw_busy)) with (fuel := 1000%nat)
    as (_ & _ & Hwait); [intros i; reflexivity |].
  split; [exact Hreset |]. split; [apply Hinit | apply Hwait]; reflexivity.
Defined.

Lemma polls_regs (n : nat) (st : state) : regs (polls n st) = regs st.
Proof. apply polls_frame. Qed.

Lemma polls_statics (n : nat) (st : state) : same_statics st (polls n st).
Proof.
  destruct (polls_frame n st) as (H1 & H2 & H3 & _). repeat split; assumption.
Qed.

(** [gemm_accel_reset] returns exactly when the accelerator drops BUSY
    within the bound, and then in this state. *)
Lemma gemm_accel_reset_returns (fuel : nat) (st : state) (u : unit) (st' : state) :
  gemm_accel_reset fuel st = Some (u, st') →
  ∃ n, (n < fuel)%nat ∧
       (∀ i, (i < n)%nat → busy_bit (status_at st i) = true) ∧
       busy_bit (status_at st n) = false ∧
       st' = log (EvPrint MsgReset)
               (polls (S n) (after_write GEMM_CTRL_REG GEMM_CTRL_RESET st)).
Proof.
  unfold gemm_accel_reset, bind. rewrite REG_WRITE_run.
  destruct (wait_while_busy fuel (after_write GEMM_CTRL_REG GEMM_CTRL_RESET st))
    as [[[] s1] |] eqn:Hwait; [| discriminate].
  intros [= <- <-].
  destruct (wait_while_busy_returns _ _ _ _ Hwait) as (n & Hn & Hbusy & Hclear & ->).
  exists n. repeat split; assumption.
Qed.

Lemma gemm_accel_reset_finishes (fuel : nat) (st : state) (n : nat) :
  (n < fuel)%nat →
  (∀ i, (i < n)%nat → busy_bit (status_at st i) = true) →
  busy_bit (status_at st n) = false →
  gemm_accel_reset fuel st =
    Some (tt, log (EvPrint MsgReset)
                (polls (S n) (after_write GEMM_CTRL_REG GEMM_CTRL_RESET st))).
Proof.
  intros Hn Hbusy Hclear. unfold gemm_accel_reset, bind. rewrite REG_WRITE_run.
  rewrite (wait_while_busy_finishes fuel _ n); [reflexivity | exact Hn | |].
  - intros i Hi. rewrite status_at_after_write. apply Hbusy, Hi.
  - rewrite status_at_after_write. exact Hclear.
Qed.

(** X7.  [gemm_accel_reset] asks for no initialization and touches no
    static of the driver: whenever it returns, the control register holds
    exactly RESET (so IRQ_EN is cleared), every other register is what it
    was, the driver is initialized if and only if it was, the start sample
    is kept, and the events of the call are the write of RESET, the polls
    of the status register, the last of which shows BUSY clear, and the
    message. *)
Theorem gemm_accel_reset_effect (fuel : nat) (st : state) (u : unit) (st' : state) :
  gemm_accel_reset fuel st = Some (u, st') →
  regs st' = <[GEMM_CTRL_REG := GEMM_CTRL_RESET]> (regs st) ∧
  reg_value st' GEMM_CTRL_REG = GEMM_CTRL_RESET ∧
  same_statics st st' ∧
  ∃ n, (n < fuel)%nat ∧
       (∀ i, (i < n)%nat → busy_bit (status_at st i) = true) ∧
       busy_bit (status_at st n) = false ∧
       appended st st'
         (EvWrite GEMM_CTRL_REG GEMM_CTRL_RESET ::
          poll_events st (S n) ++ [EvPrint MsgReset]).
Proof.
  intros Hrun.
  destruct (gemm_accel_reset_returns fuel st u st' Hrun)
    as (n & Hn & Hbusy & Hclear & ->).
  assert (regs (log (EvPrint MsgReset)
                  (polls (S n) (after_write GEMM_CTRL_REG GEMM_CTRL_RESET st))) =
          <[GEMM_CTRL_REG := GEMM_CTRL_RESET]> (regs st)) as Hregs.
  { change (regs (log ?e ?s)) with (regs s). rewrite polls_regs. reflexivity. }
  split; [exact Hregs |]. split; [| split].
  - unfold reg_value. rewrite Hregs, lookup_insert_eq. reflexivity.
  - destruct (polls_statics (S n) (after_write GEMM_CTRL_REG GEMM_CTRL_RESET st))
      as (H1 & H2 & H3).
    repeat split; [exact H1 | exact H2 | exact H3].
  - exists n. repeat split; try assumption.
    unfold appended. change (trace (log ?e ?s)) with (trace s ++ [e]).
    rewrite polls_trace.
    change (poll_events (after_write GEMM_CTRL_REG GEMM_CTRL_RESET st) (S n))
      with (poll_events st (S n)).
    change (trace (after_write GEMM_CTRL_REG GEMM_CTRL_RESET st))
      with (trace st ++ [EvWrite GEMM_CTRL_REG GEMM_CTRL_RESET]).
    rewrite <- !app_assoc. reflexivity.
Qed.

(** A reset of an initialized driver whose interrupt enable is set. *)
Lemma gemm_accel_reset_effect_witness :
  ∃ st',
    gemm_accel_reset 8 (st_ready hw_run) = Some (tt, st') ∧
    Z.testbit (reg_value (st_ready hw_run) GEMM_CTRL_REG) 2 = true ∧
    reg_value st' GEMM_CTRL_REG = GEMM_CTRL_RESET ∧
    driver_initialized st' = true.
Proof.
  destruct (gemm_accel_reset 8 (st_ready hw_run)) as [[[] st'] |] eqn:Hrun;
    [| vm_compute in Hrun; discriminate Hrun].
  destruct (gemm_accel_reset_effect 8 (st_ready hw_run) tt st' Hrun)
    as (_ & Hctrl & (Hinit & _) & _).
  exists st'. split; [reflexivity |]. split; [reflexivity |].
  split; [exact Hctrl | exact Hinit].
Defined.

Lemma status_reads_of_app (evs1 evs2 : list event) :
  status_reads_of (evs1 ++ evs2) = status_reads_of evs1 ++ status_reads_of evs2.
Proof. apply omap_app. Qed.

Lemma status_reads_of_reads (f : nat → Z) (l : list nat) :
  status_reads_of ((λ i, EvRead GEMM_STATUS_REG (f i)) <$> l) = f <$> l.
Proof.
  induction l as [| i l IH]; [reflexivity |].
  rewrite !fmap_cons, <- IH. reflexivity.
Qed.

(** [gemm_accel_init] on an uninitialized driver: a reset, then a second
    busy-wait. *)
Lemma gemm_accel_init_returns (fuel : nat) (st : state) (r : Z) (st' : state) :
  driver_initialized st = false →
  gemm_accel_init fuel st = Some (r, st') →
  ∃ n1 n2 s1,
    (n1 < fuel)%nat ∧ (n2 < fuel)%nat ∧
    busy_bit (status_at st n1) = false ∧
    busy_bit (status_at st (S n1 + n2)) = false ∧
    s1 = log (EvPrint MsgReset)
           (polls (S n1) (after_write GEMM_CTRL_REG GEMM_CTRL_RESET st)) ∧
    r = 0 ∧
    st' = log (EvPrint MsgInitialized) (after_initialized (polls (S n2) s1)).
Proof.
  intros Hinit. unfold gemm_accel_init, bind, get_driver_initialized.
  rewrite Hinit.
  destruct (gemm_accel_reset fuel st) as [[[] s1] |] eqn:Hreset; [| discriminate].
  destruct (wait_while_busy fuel s1) as [[[] s2] |] eqn:Hwait; [| discriminate].
  intros [= <- <-].
  destruct (gemm_accel_reset_returns _ _ _ _ Hreset) as (n1 & Hn1 & _ & Hclear1 & Hs1).
  destruct (wait_while_busy_returns _ _ _ _ Hwait) as (n2 & Hn2 & _ & Hclear2 & Hs2).
  exists n1, n2, s1.
  split; [exact Hn1 |]. split; [exact Hn2 |]. split; [exact Hclear1 |].
  split; [| split; [exact Hs1 |]; split; [reflexivity |]; rewrite Hs2; reflexivity].
  rewrite <- Hclear2. f_equal. rewrite Hs1.
  rewrite status_at_log, (status_at_after (S n1) _ _ n2 (hw_after_polls (S n1) _)).
  symmetry. apply status_at_after_write.
Qed.

(** Whatever the state of the driver, a [gemm_accel_init] that returns has
    succeeded. *)
Lemma gemm_accel_init_result (fuel : nat) (st : state) (r : Z) (st' : state) :
  gemm_accel_init fuel st = Some (r, st') →
  r = 0 ∧ driver_initialized st' = true.
Proof.
  destruct (driver_initialized st) eqn:Hinit; intros Hrun.
  - unfold gemm_accel_init, bind, get_driver_initialized in Hrun.
    rewrite Hinit in Hrun. injection Hrun as <- <-. split; [reflexivity | exact Hinit].
  - destruct (gemm_accel_init_returns fuel st r st' Hinit Hrun)
      as (n1 & n2 & s1 & _ & _ & _ & _ & _ & -> & ->).
    split; reflexivity.
Qed.

(** X8.  [gemm_accel_init] cannot fail: whenever it returns, it returns 0
    and the driver is initialized.  On a driver that was not, the call
    has written RESET, and nothing else, to the control register, has
    polled the status register in two busy-waits that both ended on a read
    with BUSY clear, and has left every other register and the cycle
    statics as they were. *)
Theorem gemm_accel_init_establishes (fuel : nat) (st : state) (r : Z) (st' : state) :
  gemm_accel_init fuel st = Some (r, st') →
  r = 0 ∧
  driver_initialized st' = true ∧
  cycle_count_start st' = cycle_count_start st ∧
  cycle_count st' = cycle_count st ∧
  (driver_initialized st = false →
     regs st' = <[GEMM_CTRL_REG := GEMM_CTRL_RESET]> (regs st) ∧
     ∃ n1 n2 evs,
       appended st st' (EvWrite GEMM_CTRL_REG GEMM_CTRL_RESET :: evs) ∧
       Forall (λ e, is_write e = false) evs ∧
       status_reads_of evs = status_at st <$> seq 0 (S n1 + S n2) ∧
       busy_bit (status_at st n1) = false ∧
       busy_bit (status_at st (S n1 + n2)) = false).
Proof.
  intros Hrun.
  destruct (gemm_accel_init_result fuel st r st' Hrun) as [-> Hinit'].
  split; [reflexivity |]. split; [exact Hinit' |].
  destruct (driver_initialized st) eqn:Hinit.
  { unfold gemm_accel_init, bind, get_driver_initialized in Hrun.
    rewrite Hinit in Hrun. injection Hrun as <-.
    repeat split; discriminate. }
  destruct (gemm_accel_init_returns fuel st 0 st' Hinit Hrun)
    as (n1 & n2 & s1 & _ & _ & Hclear1 & Hclear2 & Hs1 & _ & ->).
  set (s0 := after_write GEMM_CTRL_REG GEMM_CTRL_RESET st) in *.
  destruct (polls_statics (S n2) s1) as (_ & Hstart2 & Hcount2).
  destruct (polls_statics (S n1) s0) as (_ & Hstart1 & Hcount1).
  split; [| split].
  - change (cycle_count_start (polls (S n2) s1) = cycle_count_start st).
    rewrite Hstart2, Hs1. exact Hstart1.
  - change (cycle_count (polls (S n2) s1) = cycle_count st).
    rewrite Hcount2, Hs1. exact Hcount1.
  - intros _. split.
    + change (regs (polls (S n2) s1) = <[GEMM_CTRL_REG := GEMM_CTRL_RESET]> (regs st)).
      rewrite polls_regs, Hs1.
      change (regs (polls (S n1) s0) = <[GEMM_CTRL_REG := GEMM_CTRL_RESET]> (regs st)).
      rewrite polls_regs. reflexivity.
    + exists n1, n2,
        (poll_events st (S n1) ++ EvPrint MsgReset ::
         ((λ i, EvRead GEMM_STATUS_REG (status_at st (S n1 + i))) <$> seq 0 (S n2)) ++
         [EvPrint MsgInitialized]).
      assert (poll_events s1 (S n2) =
              (λ i, EvRead GEMM_STATUS_REG (status_at st (S n1 + i))) <$> seq 0 (S n2))
        as Hevents.
      { unfold poll_events. apply list_fmap_ext. intros i j _. f_equal.
        rewrite Hs1, status_at_log,
          (status_at_after (S n1) _ _ j (hw_after_polls (S n1) s0)).
        apply status_at_after_write. }
      split; [| split; [| split; [| split]]].
      * unfold appended.
        change (trace (polls (S n2) s1) ++ [EvPrint MsgInitialized] =
                trace st ++ EvWrite GEMM_CTRL_REG GEMM_CTRL_RESET ::
                  poll_events st (S n1) ++ EvPrint MsgReset ::
                  ((λ i, EvRead GEMM_STATUS_REG (status_at st (S n1 + i))) <$>
                     seq 0 (S n2)) ++ [EvPrint MsgInitialized]).
        rewrite polls_trace, Hevents, Hs1.
        change (trace (log (EvPrint MsgReset) (polls (S n1) s0)))
          with (trace (polls (S n1) s0) ++ [EvPrint MsgReset]).
        rewrite polls_trace.
        change (poll_events s0 (S n1)) with (poll_events st (S n1)).
        change (trace s0) with (trace st ++ [EvWrite GEMM_CTRL_REG GEMM_CTRL_RESET]).
        rewrite <- !app_assoc. reflexivity.
      * apply Forall_app. split; [apply poll_events_no_write |].
        constructor; [reflexivity |]. apply Forall_app. split.
        -- apply Forall_fmap, Forall_forall. reflexivity.
        -- repeat constructor.
      * unfold poll_events.
        rewrite status_reads_of_app, status_reads_of_reads.
        change (status_reads_of (EvPrint MsgReset :: ?l)) with (status_reads_of l).
        rewrite status_reads_of_app, status_reads_of_reads.
        change (status_reads_of [EvPrint MsgInitialized]) with (@nil Z).
        rewrite app_nil_r, seq_app, fmap_app. f_equal.
        rewrite Nat.add_0_l, <- (Nat.add_0_r (S n1)) at 1.
        rewrite <- fmap_add_seq, <- list_fmap_compose. reflexivity.
      * exact Hclear1.
      * exact Hclear2.
Qed.

Lemma gemm_accel_init_establishes_witness :
  ∃ st',
    gemm_accel_init 1 (st_reset hw_idle) = Some (0, st') ∧
    driver_initialized st' = true ∧
    regs st' = <[GEMM_CTRL_REG := GEMM_CTRL_RESET]> (regs (st_reset hw_idle)).
Proof.
  destruct (gemm_accel_init 1 (st_reset hw_idle)) as [[r st'] |] eqn:Hrun;
    [| vm_compute in Hrun; discriminate Hrun].
  destruct (gemm_accel_init_establishes 1 (st_reset hw_idle) r st' Hrun)
    as (-> & Hinit & _ & _ & Huninit).
  destruct (Huninit eq_refl) as [Hregs _].
  exists st'. split; [reflexivity |]. split; [exact Hinit | exact Hregs].
Defined.

(** What a [gemm_accel_wait] that returns on an initialized driver leaves. *)
Lemma gemm_accel_wait_result (fuel : nat) (st : state) (r : Z) (st' : state) :
  driver_initialized st = true →
  gemm_accel_wait fuel st = Some (r, st') →
  driver_initialized st' = true ∧
  regs st' = regs st ∧
  ((r = 0 ∧ ∃ total_cycles, last (trace st') = Some (EvPrint (MsgCompleted total_cycles))) ∨
   (r = -1 ∧ last (trace st') = Some (EvPrint MsgFailed))).
Proof.
  intros Hinit Hrun.
  assert (∃ u st1, wait_while_busy fuel st = Some (u, st1)) as (u & st1 & Hwait).
  { revert Hrun. unfold gemm_accel_wait, bind, get_driver_initialized.
    rewrite Hinit. cbn [negb].
    destruct (wait_while_busy fuel st) as [[u st1] |]; [eauto | discriminate]. }
  destruct (wait_while_busy_returns _ _ _ _ Hwait) as (n & Hn & Hbusy & Hclear & _).
  destruct (gemm_accel_wait_after_polls_state fuel st n Hinit Hn Hbusy Hclear)
    as (st2 & Hrun2 & _ & Hinit2 & Hregs2 & _ & Hlast).
  rewrite Hrun in Hrun2. injection Hrun2 as -> ->.
  split; [exact Hinit2 |]. split; [exact Hregs2 |].
  destruct (error_bit (status_at st (S n))); [right | left]; eauto.
Qed.

(** X9.  [gemm_example] can fail in two ways only.  Whenever it returns,
    the driver is initialized; it returns 0 after the message of success,
    with START in the control register, or it returns -1 right after the
    message that the accelerator is busy or the message that the operation
    failed.  Neither the initialization nor the validation of its
    configuration makes it fail. *)
Theorem gemm_example_outcome (fuel : nat) (st : state) (r : Z) (st' : state) :
  gemm_example fuel st = Some (r, st') →
  driver_initialized st' = true ∧
  ((r = 0 ∧ last (trace st') = Some (EvPrint MsgExampleCompleted) ∧
    reg_value st' GEMM_CTRL_REG = GEMM_CTRL_START) ∨
   (r = -1 ∧ (last (trace st') = Some (EvPrint MsgBusy) ∨
              last (trace st') = Some (EvPrint MsgFailed)))).
Proof.
  unfold gemm_example, bind.
  destruct (gemm_accel_init fuel st) as [[r0 s0] |] eqn:Hinit; [| discriminate].
  destruct (gemm_accel_init_result fuel st r0 s0 Hinit) as [-> Hinit0].
  cbn [Z.eqb negb].
  change (gemm_create_config 0x80000000 0x80001000 0x80002000 8 8 8
            GEMM_DATA_TYPE_INT8 8 8 8) with cfg_example.
  destruct (busy_bit (status_now s0)) eqn:Hbusy.
  - rewrite (gemm_accel_start_busy s0 cfg_example Hinit0 Hbusy).
    cbn [Z.eqb negb]. intros [= <- <-].
    split; [exact Hinit0 |]. right. split; [reflexivity |]. left.
    apply last_snoc.
  - destruct (gemm_accel_start_valid s0 cfg_example) as (s1 & -> & Hregs1 & Hinit1 & _);
      [exact config_wf_example
      | repeat split; try discriminate; left; reflexivity
      | exact Hinit0 | exact Hbusy |].
    cbn [Z.eqb negb].
    destruct (gemm_accel_wait fuel s1) as [[r2 s2] |] eqn:Hwait; [| discriminate].
    destruct (gemm_accel_wait_result fuel s1 r2 s2 Hinit1 Hwait)
      as (Hinit2 & Hregs2 & [[-> _] | [-> Hlast]]).
    + cbn [Z.eqb negb]. intros [= <- <-].
      split; [exact Hinit2 |]. left. split; [reflexivity |].
      split; [apply last_snoc |].
      unfold reg_value. change (regs (log ?e ?s)) with (regs s).
      rewrite Hregs2, Hregs1. unfold programmed. rewrite lookup_insert_eq.
      reflexivity.
    + cbn [Z.eqb negb]. intros [= <- <-].
      split; [exact Hinit2 |]. right. split; [reflexivity |]. right. exact Hlast.
Qed.

Lemma gemm_example_outcome_witness :
  ∃ st',
    gemm_example 4 (st_reset hw_example) = Some (0, st') ∧
    driver_initialized st' = true ∧
    last (trace st') = Some (EvPrint MsgExampleCompleted).
Proof.
  destruct (gemm_example 4 (st_reset hw_example)) as [[r st'] |] eqn:Hrun;
    [| vm_compute in Hrun; discriminate Hrun].
  destruct (gemm_example_outcome 4 (st_reset hw_example) r st' Hrun)
    as (Hinit & [(-> & Hlast & _) | (-> & _)]).
  - exists st'. split; [reflexivity |]. split; [exact Hinit | exact Hlast].
  - exfalso. vm_compute in Hrun. discriminate Hrun.
Defined.

(** * Further properties of the reference model and of the harness *)

Lemma sint_range (w z : Z) : 0 < w → - 2 ^ (w - 1) ≤ sint w z < 2 ^ (w - 1).
Proof.
  intros Hw. unfold sint.
  assert (2 ^ w = 2 * 2 ^ (w - 1)) as Hpow.
  { rewrite <- Z.pow_succ_r by lia. f_equal. lia. }
  assert (0 < 2 ^ (w - 1)) by (apply Z.pow_pos_nonneg; lia).
  pose proof (Z.mod_pos_bound (z + 2 ^ (w - 1)) (2 ^ w)). lia.
Qed.

Lemma sint_small (w z : Z) :
  0 < w → - 2 ^ (w - 1) ≤ z < 2 ^ (w - 1) → sint w z = z.
Proof.
  intros Hw Hz. unfold sint.
  assert (2 ^ w = 2 * 2 ^ (w - 1)) as Hpow.
  { rewrite <- Z.pow_succ_r by lia. f_equal. lia. }
  rewrite Z.mod_small by lia. lia.
Qed.

(** Narrowing after a wider signed conversion is narrowing at once. *)
Lemma sint_sint (w w' z : Z) : 0 < w ≤ w' → sint w (sint w' z) = sint w z.
Proof.
  intros Hw. unfold sint at 1 3. f_equal.
  assert (∃ q, sint w' z = z + q * 2 ^ w) as [q ->].
  { exists (- ((z + 2 ^ (w' - 1)) / 2 ^ w') * 2 ^ (w' - w)).
    unfold sint.
    pose proof (Z.div_mod (z + 2 ^ (w' - 1)) (2 ^ w')) as Hdiv.
    assert (2 ^ w' = 2 ^ (w' - w) * 2 ^ w) as Hpow.
    { rewrite <- Z.pow_add_r by lia. f_equal. lia. }
    assert (2 ^ w' ≠ 0) as Hnz by (apply Z.pow_nonzero; lia).
    specialize (Hdiv Hnz).
    set (d := (z + 2 ^ (w' - 1)) / 2 ^ w') in *.
    set (m := (z + 2 ^ (w' - 1)) mod 2 ^ w') in *.
    rewrite Hpow in Hdiv. lia. }
  replace (z + q * 2 ^ w + 2 ^ (w - 1)) with (z + 2 ^ (w - 1) + q * 2 ^ w) by lia.
  apply Z_mod_plus_full.
Qed.

Lemma int8_range z : - 128 ≤ int8 z ≤ 127.
Proof. pose proof (sint_range 8 z). unfold int8. change (2 ^ (8 - 1)) with 128 in *. lia. Qed.

Lemma int16_range z : - 32768 ≤ int16 z ≤ 32767.
Proof.
  pose proof (sint_range 16 z). unfold int16.
  change (2 ^ (16 - 1)) with 32768 in *. lia.
Qed.

Lemma int8_small z : - 128 ≤ z ≤ 127 → int8 z = z.
Proof. intros H. apply sint_small; [lia |]. change (2 ^ (8 - 1)) with 128. lia. Qed.

Lemma int16_small z : - 32768 ≤ z ≤ 32767 → int16 z = z.
Proof. intros H. apply sint_small; [lia |]. change (2 ^ (16 - 1)) with 32768. lia. Qed.

(** The value the generators store for a result [r] of [rand()]: the
    conversions of the source around [r % m - h] collapse to one. *)
Lemma generated_int8 (r : Z) :
  int8 (int_sub (Z.rem r 256) 128) = int8 (Z.rem r 256 - 128) ∧
  int8 (int16 (int_sub (Z.rem r 256) 128)) = int8 (Z.rem r 256 - 128).
Proof.
  unfold int_sub, int8, int16, int32.
  rewrite (sint_sint 8 16), !(sint_sint 8 32) by lia. split; reflexivity.
Qed.

Lemma generated_int16 (r : Z) :
  int16 (int_sub (Z.rem r 65536) 32768) = int16 (Z.rem r 65536 - 32768).
Proof. unfold int_sub, int16, int32. apply sint_sint. lia. Qed.

(** A loop that fills the cells [0 .. n-1] of a buffer from successive
    results of [rand()]. *)
Lemma fill_loop (f : nat → Z) (n : nat) (buf : Z → Z) (calls : nat) :
  ∃ buf',
    for_loop (Z.of_nat n) (λ (i : Z) '(buf, calls), (store buf i (f calls), S calls))
      (buf, calls) = (buf', (calls + n)%nat) ∧
    ∀ j, buf' j = if (0 <=? j) && (j <? Z.of_nat n)
                  then f (calls + Z.to_nat j)%nat else buf j.
Proof.
  unfold for_loop. induction n as [| n IH].
  - exists buf. split; [simpl; rewrite Nat.add_0_r; reflexivity |].
    intros j. destruct (0 <=? j) eqn:H0; [| reflexivity].
    destruct (Z.ltb_spec j (Z.of_nat 0)); [lia | reflexivity].
  - destruct IH as (buf1 & Hloop & Hbuf1).
    rewrite seqZ_S, foldl_app, Hloop. cbn [foldl].
    exists (store buf1 (0 + Z.of_nat n) (f (calls + n)%nat)).
    split; [rewrite Nat.add_succ_r; reflexivity |].
    intros j. unfold store. rewrite Hbuf1.
    destruct (Z.eqb_spec j (0 + Z.of_nat n)) as [-> | Hne].
    + destruct (Z.leb_spec 0 (0 + Z.of_nat n)); [| lia].
      destruct (Z.ltb_spec (0 + Z.of_nat n) (Z.of_nat (S n))); [| lia].
      cbn [andb]. do 2 f_equal. lia.
    + destruct (Z.leb_spec 0 j); [| reflexivity]. cbn [andb].
      destruct (Z.ltb_spec j (Z.of_nat n)), (Z.ltb_spec j (Z.of_nat (S n)));
        try reflexivity; lia.
Qed.

Lemma fill_loop_Z (f : nat → Z) (n : Z) (buf : Z → Z) (calls : nat) :
  ∃ buf',
    for_loop n (λ (i : Z) '(buf, calls), (store buf i (f calls), S calls))
      (buf, calls) = (buf', (calls + Z.to_nat n)%nat) ∧
    (∀ j, 0 ≤ j < n → buf' j = f (calls + Z.to_nat j)%nat) ∧
    (∀ j, ¬ (0 ≤ j < n) → buf' j = buf j).
Proof.
  destruct (fill_loop f (Z.to_nat n) buf calls) as (buf' & Hloop & Hbuf).
  exists buf'. split; [| split].
  - rewrite <- Hloop. unfold for_loop, seqZ. rewrite Nat2Z.id. reflexivity.
  - intros j Hj. rewrite Hbuf.
    destruct (Z.leb_spec 0 j); [| lia].
    destruct (Z.ltb_spec j (Z.of_nat (Z.to_nat n))); [reflexivity | lia].
  - intros j Hj. rewrite Hbuf.
    destruct (Z.leb_spec 0 j); [| reflexivity].
    destruct (Z.ltb_spec j (Z.of_nat (Z.to_nat n))); [lia | reflexivity].
Qed.

(** X10.  [generate_test_matrices_int8] fills the cells [0 .. M*K-1] of
    [A] and then the cells [0 .. K*N-1] of [B] from successive results of
    [rand()], one per cell, and leaves the other cells alone.  Every cell
    written holds [r % 256 - 128] for its result [r] (the conversion
    through [int16_t] in the second loop changes nothing), a value of
    [int8_t], and exactly [r mod 256 - 128] as [rand()] is never negative. *)
Theorem generate_test_matrices_int8_fills (rand : nat → Z) (A B : Z → Z)
    (M K N : Z) (calls : nat) :
  - 2 ^ 31 ≤ M * K < 2 ^ 31 →
  - 2 ^ 31 ≤ K * N < 2 ^ 31 →
  ∃ A' B',
    generate_test_matrices_int8 rand A B M K N calls =
      (A', B', (calls + Z.to_nat (M * K) + Z.to_nat (K * N))%nat) ∧
    (∀ i, 0 ≤ i < M * K →
       A' i = int8 (Z.rem (rand (calls + Z.to_nat i)%nat) 256 - 128) ∧
       - 128 ≤ A' i ≤ 127 ∧
       (0 ≤ rand (calls + Z.to_nat i)%nat →
        A' i = rand (calls + Z.to_nat i)%nat mod 256 - 128)) ∧
    (∀ i, 0 ≤ i < K * N →
       B' i = int8 (Z.rem (rand (calls + Z.to_nat (M * K) + Z.to_nat i)%nat) 256 - 128) ∧
       - 128 ≤ B' i ≤ 127 ∧
       (0 ≤ rand (calls + Z.to_nat (M * K) + Z.to_nat i)%nat →
        B' i = rand (calls + Z.to_nat (M * K) + Z.to_nat i)%nat mod 256 - 128)) ∧
    (∀ i, ¬ (0 ≤ i < M * K) → A' i = A i) ∧
    (∀ i, ¬ (0 ≤ i < K * N) → B' i = B i).
Proof.
  intros HMK HKN. unfold generate_test_matrices_int8, int_mul.
  rewrite !int32_small by assumption.
  destruct (fill_loop_Z (λ c, int8 (int_sub (Z.rem (rand c) 256) 128)) (M * K) A calls)
    as (A' & -> & HA & HA').
  destruct (fill_loop_Z (λ c, int8 (int16 (int_sub (Z.rem (rand c) 256) 128)))
              (K * N) B (calls + Z.to_nat (M * K))%nat)
    as (B' & -> & HB & HB').
  exists A', B'. split; [reflexivity |].
  assert (∀ r, 0 ≤ r → int8 (Z.rem r 256 - 128) = r mod 256 - 128) as Hexact.
  { intros r Hr. rewrite Z.rem_mod_nonneg by lia.
    pose proof (Z.mod_pos_bound r 256). apply int8_small. lia. }
  split; [| split; [| split; assumption]].
  - intros i Hi. rewrite (HA i Hi), (proj1 (generated_int8 _)).
    split; [reflexivity |]. split; [apply int8_range | apply Hexact].
  - intros i Hi. rewrite (HB i Hi), (proj2 (generated_int8 _)).
    split; [reflexivity |]. split; [apply int8_range | apply Hexact].
Qed.

Lemma generate_test_matrices_int8_fills_witness :
  ∃ A' B',
    generate_test_matrices_int8 (λ n, Z.of_nat n * 100) zero_buffer zero_buffer 2 2 2 0 =
      (A', B', 8%nat) ∧
    A' 3 = 300 mod 256 - 128 ∧
    B' 0 = 400 mod 256 - 128 ∧
    A' 4 = 0.
Proof.
  destruct (generate_test_matrices_int8_fills (λ n, Z.of_nat n * 100)
              zero_buffer zero_buffer 2 2 2 0)
    as (A' & B' & Hrun & HA & HB & HA' & _); [lia | lia |].
  exists A', B'. split; [exact Hrun |]. split; [| split].
  - destruct (HA 3) as (_ & _ & Hexact); [lia |]. apply Hexact. simpl. lia.
  - destruct (HB 0) as (_ & _ & Hexact); [lia |]. apply Hexact. simpl. lia.
  - apply (HA' 4). lia.
Defined.

(** X11.  [generate_test_matrices_int16] fills the cells [0 .. M*K-1] of
    [A] and then the cells [0 .. K*N-1] of [B] from successive results of
    [rand()], one per cell, and leaves the other cells alone.  Every cell
    written holds [r % 65536 - 32768] for its result [r], a value of
    [int16_t], and exactly [r mod 65536 - 32768] as [rand()] is never
    negative. *)
Theorem generate_test_matrices_int16_fills (rand : nat → Z) (A B : Z → Z)
    (M K N : Z) (calls : nat) :
  - 2 ^ 31 ≤ M * K < 2 ^ 31 →
  - 2 ^ 31 ≤ K * N < 2 ^ 31 →
  ∃ A' B',
    generate_test_matrices_int16 rand A B M K N calls =
      (A', B', (calls + Z.to_nat (M * K) + Z.to_nat (K * N))%nat) ∧
    (∀ i, 0 ≤ i < M * K →
       A' i = int16 (Z.rem (rand (calls + Z.to_nat i)%nat) 65536 - 32768) ∧
       - 32768 ≤ A' i ≤ 32767 ∧
       (0 ≤ rand (calls + Z.to_nat i)%nat →
        A' i = rand (calls + Z.to_nat i)%nat mod 65536 - 32768)) ∧
    (∀ i, 0 ≤ i < K * N →
       B' i = int16 (Z.rem (rand (calls + Z.to_nat (M * K) + Z.to_nat i)%nat) 65536 - 32768) ∧
       - 32768 ≤ B' i ≤ 32767 ∧
       (0 ≤ rand (calls + Z.to_nat (M * K) + Z.to_nat i)%nat →
        B' i = rand (calls + Z.to_nat (M * K) + Z.to_nat i)%nat mod 65536 - 32768)) ∧
    (∀ i, ¬ (0 ≤ i < M * K) → A' i = A i) ∧
    (∀ i, ¬ (0 ≤ i < K * N) → B' i = B i).
Proof.
  intros HMK HKN. unfold generate_test_matrices_int16, int_mul.
  rewrite !int32_small by assumption.
  destruct (fill_loop_Z (λ c, int16 (int_sub (Z.rem (rand c) 65536) 32768)) (M * K) A calls)
    as (A' & -> & HA & HA').
  destruct (fill_loop_Z (λ c, int16 (int_sub (Z.rem (rand c) 65536) 32768))
              (K * N) B (calls + Z.to_nat (M * K))%nat)
    as (B' & -> & HB & HB').
  exists A', B'. split; [reflexivity |].
  assert (∀ r, 0 ≤ r → int16 (Z.rem r 65536 - 32768) = r mod 65536 - 32768) as Hexact.
  { intros r Hr. rewrite Z.rem_mod_nonneg by lia.
    pose proof (Z.mod_pos_bound r 65536). apply int16_small. lia. }
  split; [| split; [| split; assumption]].
  - intros i Hi. rewrite (HA i Hi), generated_int16.
    split; [reflexivity |]. split; [apply int16_range | apply Hexact].
  - intros i Hi. rewrite (HB i Hi), generated_int16.
    split; [reflexivity |]. split; [apply int16_range | apply Hexact].
Qed.

Lemma generate_test_matrices_int16_fills_witness :
  ∃ A' B',
    generate_test_matrices_int16 (λ n, Z.of_nat n * 100) zero_buffer zero_buffer 2 2 2 0 =
      (A', B', 8%nat) ∧
    A' 3 = 300 - 32768 ∧
    A' 4 = 0.
Proof.
  destruct (generate_test_matrices_int16_fills (λ n, Z.of_nat n * 100)
              zero_buffer zero_buffer 2 2 2 0)
    as (A' & B' & Hrun & HA & _ & HA' & _); [lia | lia |].
  exists A', B'. split; [exact Hrun |]. split.
  - destruct (HA 3) as (_ & _ & Hexact); [lia |]. rewrite Hexact; [reflexivity |].
    simpl. lia.
  - apply (HA' 4). lia.
Defined.

(** ** The reference model: sums and cells *)

Lemma sumZ_nil (K : Z) (f : Z → Z) : K ≤ 0 → sumZ K f = 0.
Proof. intros H. unfold sumZ. rewrite seqZ_nil by exact H. reflexivity. Qed.

Lemma sumZ_ext (K : Z) (f g : Z → Z) :
  (∀ k, 0 ≤ k < K → f k = g k) → sumZ K f = sumZ K g.
Proof.
  intros Hfg. unfold sumZ. f_equal. apply list_fmap_ext.
  intros i k Hk. apply Hfg. apply lookup_seqZ in Hk. lia.
Qed.

Lemma sumZ_const (K c : Z) : sumZ K (λ _, c) = Z.max 0 K * c.
Proof.
  unfold sumZ.
  replace (Z.max 0 K) with (Z.of_nat (length (seqZ 0 K)))
    by (rewrite length_seqZ; lia).
  induction (seqZ 0 K) as [| k l IH]; [reflexivity |].
  rewrite fmap_cons, length_cons. cbn [foldr]. rewrite IH. lia.
Qed.

Lemma foldr_add_bound (l : list Z) (b : Z) :
  Forall (λ x, - b ≤ x ≤ b) l →
  - (Z.of_nat (length l) * b) ≤ foldr Z.add 0 l ≤ Z.of_nat (length l) * b.
Proof.
  induction 1 as [| x l Hx _ IH]; [simpl; lia |].
  rewrite length_cons. cbn [foldr]. lia.
Qed.

Lemma sumZ_bound (K : Z) (f : Z → Z) (b : Z) :
  (∀ k, 0 ≤ k < K → - b ≤ f k ≤ b) →
  - (Z.max 0 K * b) ≤ sumZ K f ≤ Z.max 0 K * b.
Proof.
  intros Hf. unfold sumZ.
  pose proof (foldr_add_bound (f <$> seqZ 0 K) b) as H.
  rewrite length_fmap, length_seqZ in H.
  replace (Z.of_nat (Z.to_nat K)) with (Z.max 0 K) in H by lia. apply H.
  apply Forall_fmap, Forall_seqZ. intros k Hk. apply Hf. lia.
Qed.

Lemma elem_of_cells (M N m n : Z) :
  (m, n) ∈ cells M N ↔ 0 ≤ m < M ∧ 0 ≤ n < N.
Proof.
  unfold cells. rewrite list_elem_of_bind. split.
  - intros (m' & Hc & Hm). apply list_elem_of_fmap in Hc as (n' & [= -> ->] & Hn).
    apply elem_of_seqZ in Hm, Hn. lia.
  - intros [Hm Hn]. exists m. split.
    + apply list_elem_of_fmap. exists n. split; [reflexivity |].
      apply elem_of_seqZ. lia.
    + apply elem_of_seqZ. lia.
Qed.

Lemma cells_nil (M N : Z) : M ≤ 0 ∨ N ≤ 0 → cells M N = [].
Proof.
  intros H. destruct (cells M N) as [| [m n] l] eqn:Hcells; [reflexivity |].
  assert ((m, n) ∈ cells M N) as Hin by (rewrite Hcells; left).
  apply elem_of_cells in Hin. lia.
Qed.

Lemma matrix_multiply_int8_stores (A B C : Z → Z)
    (M K N stride_a stride_b stride_c : Z) :
  matrix_multiply_int8 A B C M K N stride_a stride_b stride_c =
  store_all C (cell_store int8 A B K stride_a stride_b stride_c <$> cells M N).
Proof. apply matrix_multiply_stores. Qed.

Lemma matrix_multiply_int16_stores (A B C : Z → Z)
    (M K N stride_a stride_b stride_c : Z) :
  matrix_multiply_int16 A B C M K N stride_a stride_b stride_c =
  store_all C (cell_store int16 A B K stride_a stride_b stride_c <$> cells M N).
Proof. apply matrix_multiply_stores. Qed.

(** X12.  The degenerate sizes of the reference products: with [M <= 0] or
    [N <= 0] no cell is stored and the output buffer is returned as it
    came; with [K <= 0] every cell of the output is stored, with the empty
    sum 0. *)
Theorem matrix_multiply_degenerate (A B C : Z → Z)
    (M K N stride_a stride_b stride_c : Z) :
  (M ≤ 0 ∨ N ≤ 0 →
     matrix_multiply_int8 A B C M K N stride_a stride_b stride_c = C ∧
     matrix_multiply_int16 A B C M K N stride_a stride_b stride_c = C) ∧
  (K ≤ 0 →
     matrix_multiply_int8 A B C M K N stride_a stride_b stride_c =
       store_all C ((λ c, (int32 (c.1 * stride_c + c.2), 0)) <$> cells M N) ∧
     matrix_multiply_int16 A B C M K N stride_a stride_b stride_c =
       store_all C ((λ c, (int32 (c.1 * stride_c + c.2), 0)) <$> cells M N)).
Proof.
  rewrite matrix_multiply_int8_stores, matrix_multiply_int16_stores. split.
  - intros Hempty. rewrite (cells_nil M N Hempty). split; reflexivity.
  - intros HK. split; f_equal; apply list_fmap_ext; intros i [m n] _;
      unfold cell_store, dot; rewrite sumZ_nil by exact HK; reflexivity.
Qed.

Lemma matrix_multiply_degenerate_witness :
  matrix_multiply_int8 A_literal B_literal A_literal 0 2 2 2 2 2 = A_literal ∧
  contents (matrix_multiply_int16 A_literal B_literal A_literal 2 0 2 2 2 2) 4 =
    [0; 0; 0; 0].
Proof.
  destruct (matrix_multiply_degenerate A_literal B_literal A_literal 0 2 2 2 2 2)
    as [Hempty _].
  destruct (matrix_multiply_degenerate A_literal B_literal A_literal 2 0 2 2 2 2)
    as [_ Hzero].
  split.
  - apply Hempty. left. lia.
  - destruct Hzero as [_ ->]; [lia |]. vm_compute. reflexivity.
Defined.

(** X13.  The reference products write the targets of their cells and
    nothing else: a cell of the output buffer whose offset is not the
    [int] value of [m * stride_c + n] for any [0 <= m < M], [0 <= n < N]
    holds on return what it held before. *)
Theorem matrix_multiply_frame (A B C : Z → Z)
    (M K N stride_a stride_b stride_c : Z) (j : Z) :
  (∀ m n, 0 ≤ m < M → 0 ≤ n < N → int32 (m * stride_c + n) ≠ j) →
  matrix_multiply_int8 A B C M K N stride_a stride_b stride_c j = C j ∧
  matrix_multiply_int16 A B C M K N stride_a stride_b stride_c j = C j.
Proof.
  intros Hfree.
  rewrite matrix_multiply_int8_stores, matrix_multiply_int16_stores.
  split; apply store_all_untouched, Forall_fmap, Forall_forall;
    intros [m n] Hc; apply elem_of_cells in Hc as [Hm Hn];
    apply Hfree; assumption.
Qed.

Lemma matrix_multiply_frame_witness :
  matrix_multiply_int8 A_wide B_wide A_wide 2 2 2 3 4 3 2 = 99 ∧
  matrix_multiply_int16 A_wide B_wide A_wide 2 2 2 3 4 3 2 = 99.
Proof.
  apply (matrix_multiply_frame A_wide B_wide A_wide 2 2 2 3 4 3 2).
  intros m n Hm Hn. rewrite int32_small by lia. lia.
Defined.

(** ** The reference model: row-major buffers *)

Lemma offset_range (m n M N stride : Z) :
  0 ≤ m < M → 0 ≤ n < N → N ≤ stride →
  0 ≤ m * stride + n < M * stride.
Proof.
  intros Hm Hn Hs.
  assert (0 ≤ m * stride) by (apply Z.mul_nonneg_nonneg; lia).
  assert ((m + 1) * stride ≤ M * stride) by (apply Z.mul_le_mono_nonneg_r; lia).
  lia.
Qed.

Lemma offset_inj (m n m' n' stride : Z) :
  0 ≤ n < stride → 0 ≤ n' < stride →
  m * stride + n = m' * stride + n' → m = m' ∧ n = n'.
Proof.
  intros Hn Hn' Heq.
  assert (m = (m * stride + n) / stride) as H1
    by (apply (Z.div_unique_pos _ stride m n); lia).
  assert (m' = (m' * stride + n') / stride) as H2
    by (apply (Z.div_unique_pos _ stride m' n'); lia).
  assert (m = m') as -> by congruence.
  split; [reflexivity | lia].
Qed.

(** Cell [(m, n)] of a row-major product, for either element type: the
    offsets are the plain ones and no other cell has the same target. *)
Lemma row_major_cell (elem : Z → Z) (A B C : Z → Z)
    (M K N stride_a stride_b stride_c m n : Z) :
  K ≤ stride_a → N ≤ stride_b → N ≤ stride_c →
  M * stride_a < 2 ^ 31 → K * stride_b < 2 ^ 31 → M * stride_c < 2 ^ 31 →
  0 ≤ m < M → 0 ≤ n < N →
  store_all C (cell_store elem A B K stride_a stride_b stride_c <$> cells M N)
    (m * stride_c + n) =
  int32 (sumZ K (λ k, elem (A (m * stride_a + k)) * elem (B (k * stride_b + n)))).
Proof.
  intros Hsa Hsb Hsc HA HB HC Hm Hn.
  pose proof (offset_range m n M N stride_c Hm Hn Hsc) as Hmn.
  rewrite <- (int32_small (m * stride_c + n)) at 1 by lia.
  rewrite cell_stores_lookup; try assumption.
  - f_equal. apply sumZ_ext. intros k Hk. unfold dot.
    pose proof (offset_range m k M K stride_a Hm Hk Hsa).
    pose proof (offset_range k n K N stride_b Hk Hn Hsb).
    rewrite !int32_small by lia. reflexivity.
  - intros m' n' Hm' Hn' Hbefore.
    pose proof (offset_range m' n' M N stride_c Hm' Hn' Hsc).
    rewrite !int32_small by lia. intros Heq.
    apply offset_inj in Heq; [| lia | lia].
    unfold cell_before in Hbefore. simpl in Hbefore. lia.
Qed.

(** X14.  On row-major buffers, that is with each stride at least the
    length of the rows it separates and offsets that fit in [int], the
    reference products are the textbook ones: on return cell
    [C[m*stride_c + n]] holds the sum over [k] of
    [A[m*stride_a + k] * B[k*stride_b + n]] reduced to 32 bits, for every
    [0 <= m < M] and [0 <= n < N], and the cells between the rows of the
    output, [C[m*stride_c + n]] with [N <= n < stride_c], are not written. *)
Theorem matrix_multiply_row_major (A B C : Z → Z)
    (M K N stride_a stride_b stride_c : Z) :
  K ≤ stride_a → N ≤ stride_b → N ≤ stride_c →
  M * stride_a < 2 ^ 31 → K * stride_b < 2 ^ 31 → M * stride_c < 2 ^ 31 →
  ∀ m n, 0 ≤ m < M →
    (0 ≤ n < N →
       matrix_multiply_int8 A B C M K N stride_a stride_b stride_c (m * stride_c + n) =
         int32 (sumZ K (λ k, int8 (A (m * stride_a + k)) * int8 (B (k * stride_b + n)))) ∧
       matrix_multiply_int16 A B C M K N stride_a stride_b stride_c (m * stride_c + n) =
         int32 (sumZ K (λ k, int16 (A (m * stride_a + k)) * int16 (B (k * stride_b + n))))) ∧
    (N ≤ n < stride_c → 0 ≤ n →
       matrix_multiply_int8 A B C M K N stride_a stride_b stride_c (m * stride_c + n) =
         C (m * stride_c + n) ∧
       matrix_multiply_int16 A B C M K N stride_a stride_b stride_c (m * stride_c + n) =
         C (m * stride_c + n)).
Proof.
  intros Hsa Hsb Hsc HA HB HC m n Hm.
  rewrite matrix_multiply_int8_stores, matrix_multiply_int16_stores.
  split.
  - intros Hn. split; apply row_major_cell; assumption.
  - intros Hpad Hn0.
    assert (Forall (λ s : Z * Z, s.1 ≠ m * stride_c + n)
              ((λ c : Z * Z, (int32 (c.1 * stride_c + c.2), 0)) <$> cells M N)) as Hfree.
    { apply Forall_fmap, Forall_forall. intros [m' n'] Hc.
      apply elem_of_cells in Hc as [Hm' Hn']. simpl.
      pose proof (offset_range m' n' M N stride_c Hm' Hn' Hsc).
      rewrite int32_small by lia. intros Heq.
      apply offset_inj in Heq; lia. }
    split; apply store_all_untouched, Forall_fmap; rewrite Forall_fmap in Hfree;
      (eapply Forall_impl; [exact Hfree |]); intros [m' n'] H; exact H.
Qed.

Lemma matrix_multiply_row_major_witness :
  matrix_multiply_int8 A_wide B_wide zero_buffer 2 2 2 3 4 3 (1 * 3 + 1) = 50 ∧
  matrix_multiply_int8 A_wide B_wide A_wide 2 2 2 3 4 3 (1 * 3 + 2) = 99.
Proof.
  split.
  - destruct (matrix_multiply_row_major A_wide B_wide zero_buffer 2 2 2 3 4 3)
      with (m := 1) (n := 1) as [Hcell _]; try lia.
    destruct Hcell as [-> _]; [lia |]. vm_compute. reflexivity.
  - destruct (matrix_multiply_row_major A_wide B_wide A_wide 2 2 2 3 4 3)
      with (m := 1) (n := 2) as [_ Hpad]; try lia.
    destruct Hpad as [-> _]; [lia | lia |]. reflexivity.
Defined.

(** ** The reference model: when the accumulator cannot wrap *)

Lemma int8_product_bound (a b : Z) : - 16384 ≤ int8 a * int8 b ≤ 16384.
Proof. pose proof (int8_range a). pose proof (int8_range b). nia. Qed.

Lemma int16_product_bound (a b : Z) : - 2 ^ 30 ≤ int16 a * int16 b ≤ 2 ^ 30.
Proof. pose proof (int16_range a). pose proof (int16_range b). nia. Qed.

(** X15.  The 32-bit accumulator of [matrix_multiply_int8] cannot wrap
    while [K <= 131071]: every cell then receives the exact sum of the
    products.  For [matrix_multiply_int16] this is guaranteed for
    [K <= 1] only. *)
Theorem matrix_multiply_exact (A B C : Z → Z)
    (M K N stride_a stride_b stride_c : Z) :
  (K ≤ 131071 →
     matrix_multiply_int8 A B C M K N stride_a stride_b stride_c =
       store_all C
         ((λ c, (int32 (c.1 * stride_c + c.2),
                 sumZ K (λ k, int8 (A (int32 (c.1 * stride_a + k))) *
                              int8 (B (int32 (k * stride_b + c.2))))))
            <$> cells M N)) ∧
  (K ≤ 1 →
     matrix_multiply_int16 A B C M K N stride_a stride_b stride_c =
       store_all C
         ((λ c, (int32 (c.1 * stride_c + c.2),
                 sumZ K (λ k, int16 (A (int32 (c.1 * stride_a + k))) *
                              int16 (B (int32 (k * stride_b + c.2))))))
            <$> cells M N)).
Proof.
  rewrite matrix_multiply_int8_stores, matrix_multiply_int16_stores.
  split; intros HK; f_equal; apply list_fmap_ext; intros i [m n] _;
    unfold cell_store, dot; cbn [fst snd]; f_equal; apply int32_small.
  - pose proof (sumZ_bound K
      (λ k, int8 (A (int32 (m * stride_a + k))) * int8 (B (int32 (k * stride_b + n))))
      16384 (λ k _, int8_product_bound _ _)). lia.
  - pose proof (sumZ_bound K
      (λ k, int16 (A (int32 (m * stride_a + k))) * int16 (B (int32 (k * stride_b + n))))
      (2 ^ 30) (λ k _, int16_product_bound _ _)). lia.
Qed.

Lemma matrix_multiply_exact_witness :
  contents (matrix_multiply_int8 (buffer_of [-128; -128]) (buffer_of [-128; -128])
              zero_buffer 1 2 1 2 1 1) 1 = [32768].
Proof.
  destruct (matrix_multiply_exact (buffer_of [-128; -128]) (buffer_of [-128; -128])
              zero_buffer 1 2 1 2 1 1) as [H8 _].
  rewrite H8 by lia. vm_compute. reflexivity.
Defined.

(** The bound of X15 is the best one: 131072 products of -128 by -128 add
    up to 2^31, which the accumulator turns into -2^31. *)
Example matrix_multiply_int8_wraps_at_131072 :
  matrix_multiply_int8 (λ _, -128) (λ _, -128) zero_buffer 1 131072 1 0 0 1 0 =
  - 2 ^ 31.
Proof.
  rewrite matrix_multiply_int8_stores.
  change (cells 1 1) with [(0, 0)].
  unfold store_all, cell_store, dot. cbn [fmap list_fmap foldl fst snd].
  assert (sumZ 131072 (λ k, int8 ((λ _ : Z, -128) (int32 (0 * 0 + k))) *
                            int8 ((λ _ : Z, -128) (int32 (k * 0 + 0)))) = 2 ^ 31) as ->.
  { transitivity (sumZ 131072 (λ _, 16384)).
    - apply sumZ_ext. intros k _. reflexivity.
    - rewrite sumZ_const. reflexivity. }
  reflexivity.
Qed.

(** X16.  On buffers whose cells all hold values of [int8_t], the two
    reference products compute the same output. *)
Theorem matrix_multiply_int8_int16_agree (A B C : Z → Z)
    (M K N stride_a stride_b stride_c : Z) :
  int8_buffer A → int8_buffer B →
  matrix_multiply_int8 A B C M K N stride_a stride_b stride_c =
  matrix_multiply_int16 A B C M K N stride_a stride_b stride_c.
Proof.
  intros HA HB.
  rewrite matrix_multiply_int8_stores, matrix_multiply_int16_stores.
  f_equal. apply list_fmap_ext. intros i [m n] _.
  unfold cell_store, dot. cbn [fst snd]. do 2 f_equal.
  apply sumZ_ext. intros k _.
  pose proof (HA (int32 (m * stride_a + k))) as Ha.
  pose proof (HB (int32 (k * stride_b + n))) as Hb.
  rewrite !int8_small, !int16_small by lia. reflexivity.
Qed.

Lemma matrix_multiply_int8_int16_agree_witness :
  matrix_multiply_int8 A_literal B_literal zero_buffer 2 2 2 2 2 2 =
  matrix_multiply_int16 A_literal B_literal zero_buffer 2 2 2 2 2 2.
Proof.
  apply matrix_multiply_int8_int16_agree.
  - intros i. unfold A_literal, buffer_of.
    destruct (0 <=? i); [| lia].
    destruct (Z.to_nat i) as [| [| [| [| [| j]]]]]; simpl; lia.
  - intros i. unfold B_literal, buffer_of.
    destruct (0 <=? i); [| lia].
    destruct (Z.to_nat i) as [| [| [| [| [| j]]]]]; simpl; lia.
Defined.

(** ** The reference model: the identity matrix *)

Lemma foldr_add_app (l1 l2 : list Z) :
  foldr Z.add 0 (l1 ++ l2) = foldr Z.add 0 l1 + foldr Z.add 0 l2.
Proof. induction l1 as [| x l1 IH]; simpl; [reflexivity | rewrite IH; lia]. Qed.

Lemma foldr_add_zero (l : list Z) : Forall (λ x, x = 0) l → foldr Z.add 0 l = 0.
Proof. induction 1 as [| x l Hx _ IH]; simpl; [reflexivity | lia]. Qed.

(** A sum with a single term that is not zero. *)
Lemma sumZ_single (K n c : Z) (f : Z → Z) :
  0 ≤ n < K → f n = c → (∀ k, 0 ≤ k < K → k ≠ n → f k = 0) → sumZ K f = c.
Proof.
  intros Hn Hfn Hf. unfold sumZ.
  rewrite (seqZ_split K n Hn), fmap_app, fmap_cons, foldr_add_app. cbn [foldr].
  rewrite !foldr_add_zero, Hfn; [lia | |];
    apply Forall_fmap, Forall_forall; intros k Hk; apply elem_of_seqZ in Hk;
    apply Hf; lia.
Qed.

Lemma identity_buffer_cell (K stride k n : Z) :
  0 ≤ n < K → K ≤ stride →
  identity_buffer K stride (k * stride + n) = if k =? n then 1 else 0.
Proof.
  intros Hn Hs. unfold identity_buffer.
  assert ((k * stride + n) mod stride = n) as ->
    by (symmetry; apply (Z.mod_unique_pos _ stride k n); lia).
  assert ((k * stride + n) / stride = k) as ->
    by (symmetry; apply (Z.div_unique_pos _ stride k n); lia).
  destruct (Z.leb_spec 0 n); [| lia]. destruct (Z.ltb_spec n K); [| lia].
  reflexivity.
Qed.

(** X17.  The identity law of the product, on row-major buffers: the
    product of [A] by the [K] x [K] identity matrix returns in
    [C[m*stride_c + n]] the element [A[m*stride_a + n]] itself. *)
Theorem matrix_multiply_identity (A C : Z → Z) (M K stride_a stride_b stride_c : Z) :
  K ≤ stride_a → K ≤ stride_b → K ≤ stride_c →
  M * stride_a < 2 ^ 31 → K * stride_b < 2 ^ 31 → M * stride_c < 2 ^ 31 →
  ∀ m n, 0 ≤ m < M → 0 ≤ n < K →
    matrix_multiply_int8 A (identity_buffer K stride_b) C M K K
      stride_a stride_b stride_c (m * stride_c + n) = int8 (A (m * stride_a + n)) ∧
    matrix_multiply_int16 A (identity_buffer K stride_b) C M K K
      stride_a stride_b stride_c (m * stride_c + n) = int16 (A (m * stride_a + n)).
Proof.
  intros Hsa Hsb Hsc HA HB HC m n Hm Hn.
  rewrite matrix_multiply_int8_stores, matrix_multiply_int16_stores.
  rewrite !row_major_cell by assumption.
  split.
  - rewrite (sumZ_single K n (int8 (A (m * stride_a + n)))); try assumption.
    + pose proof (int8_range (A (m * stride_a + n))). apply int32_small. lia.
    + rewrite identity_buffer_cell, Z.eqb_refl by assumption.
      change (int8 1) with 1. lia.
    + intros k Hk Hne. rewrite identity_buffer_cell by assumption.
      destruct (Z.eqb_spec k n); [contradiction |]. change (int8 0) with 0. lia.
  - rewrite (sumZ_single K n (int16 (A (m * stride_a + n)))); try assumption.
    + pose proof (int16_range (A (m * stride_a + n))). apply int32_small. lia.
    + rewrite identity_buffer_cell, Z.eqb_refl by assumption.
      change (int16 1) with 1. lia.
    + intros k Hk Hne. rewrite identity_buffer_cell by assumption.
      destruct (Z.eqb_spec k n); [contradiction |]. change (int16 0) with 0. lia.
Qed.

Lemma matrix_multiply_identity_witness :
  matrix_multiply_int8 A_wide (identity_buffer 2 4) zero_buffer 2 2 2 3 4 3 (1 * 3 + 0) = 3 ∧
  matrix_multiply_int16 A_wide (identity_buffer 2 4) zero_buffer 2 2 2 3 4 3 (1 * 3 + 0) = 3.
Proof.
  apply (matrix_multiply_identity A_wide zero_buffer 2 2 3 4 3); lia.
Defined.

(** * Further properties of the harness *)

Lemma filter_length_zero {A : Type} (P : A → Prop) `{!∀ x, Decision (P x)} (l : list A) :
  length (filter P l) = 0%nat ↔ Forall (λ x, ¬ P x) l.
Proof.
  induction l as [| x l IH].
  - split; [constructor | reflexivity].
  - destruct (decide (P x)) as [HP | HP].
    + rewrite filter_cons_True by exact HP. split; [discriminate |].
      intros Hall. apply Forall_cons in Hall as [Hx _]. contradiction.
    + rewrite filter_cons_False by exact HP. rewrite IH. split.
      * intros Hall. constructor; assumption.
      * intros Hall. apply Forall_cons in Hall as [_ Hall]. exact Hall.
Qed.

(** X18.  [compare_results] returns 0 exactly when the two buffers hold
    the same [int32_t] value at every offset below [M * N]; its result is
    never negative nor above the number of offsets compared, and it
    prints exactly as many lines as it counts. *)
Theorem compare_results_zero_iff_equal (C_hw C_ref : Z → Z) (M N : Z) :
  - 2 ^ 31 ≤ M * N < 2 ^ 31 →
  0 ≤ (compare_results C_hw C_ref M N).1 ≤ Z.max 0 (M * N) ∧
  Z.of_nat (length (compare_results C_hw C_ref M N).2) =
    (compare_results C_hw C_ref M N).1 ∧
  ((compare_results C_hw C_ref M N).1 = 0 ↔
   ∀ i, 0 ≤ i < M * N → int32 (C_hw i) = int32 (C_ref i)).
Proof.
  intros Hrange. rewrite compare_results_spec by exact Hrange. cbn [fst snd].
  split; [apply mismatch_count_bound |]. split.
  - rewrite length_fmap. reflexivity.
  - unfold mismatch_count, mismatches.
    rewrite <- Nat2Z.inj_0, Nat2Z.inj_iff, filter_length_zero, Forall_seqZ.
    split.
    + intros Hall i Hi. destruct (Z.eq_dec (int32 (C_hw i)) (int32 (C_ref i)));
        [assumption |]. exfalso. apply (Hall i); [lia | assumption].
    + intros Hall i Hi Hne. apply Hne, Hall. lia.
Qed.

Lemma compare_results_zero_iff_equal_witness :
  (compare_results A_literal A_literal 2 2).1 = 0 ∧
  (compare_results C_hw_example C_ref_example 2 2).1 ≠ 0.
Proof.
  destruct (compare_results_zero_iff_equal A_literal A_literal 2 2)
    as (_ & _ & Hsame); [lia |].
  destruct (compare_results_zero_iff_equal C_hw_example C_ref_example 2 2)
    as (_ & _ & Hdiff); [lia |].
  split.
  - apply Hsame. reflexivity.
  - intros Hzero. rewrite Hdiff in Hzero.
    assert (int32 (C_hw_example 1) = int32 (C_ref_example 1)) as Heq
      by (apply Hzero; lia).
    vm_compute in Heq. discriminate Heq.
Defined.

Lemma filter_ext_elem {A : Type} (P1 P2 : A → Prop)
    `{!∀ x, Decision (P1 x), !∀ x, Decision (P2 x)} (l : list A) :
  Forall (λ x, P1 x ↔ P2 x) l → filter P1 l = filter P2 l.
Proof.
  induction 1 as [| x l Hx _ IH]; [reflexivity |].
  destruct (decide (P1 x)) as [HP | HP].
  - rewrite !filter_cons_True by tauto. rewrite IH. reflexivity.
  - rewrite !filter_cons_False by tauto. exact IH.
Qed.

(** Against a buffer of zeros, the mismatches are the nonzero cells. *)
Lemma mismatch_count_zeroed (junk C_ref : Z → Z) (n : Z) :
  mismatch_count (memset_zero junk n) C_ref n = Z.of_nat (nonzero_cells C_ref n).
Proof.
  unfold mismatch_count, mismatches, nonzero_cells. do 2 f_equal.
  apply filter_ext_elem, Forall_seqZ. intros i Hi. unfold memset_zero.
  destruct (Z.leb_spec 0 i); [| lia]. destruct (Z.ltb_spec i n); [| lia].
  cbn [andb]. change (int32 0) with 0. split; intros Hne Heq; apply Hne; lia.
Qed.

Lemma case_buffers_hw (rand : nat → Z) (malloc_junk : Z → Z)
    (tc : test_case_t) (calls : nat) :
  (case_buffers rand malloc_junk tc calls).1.1 =
  memset_zero malloc_junk (tc_M tc * tc_N tc).
Proof.
  unfold case_buffers. destruct (tc_data_type tc =? 0).
  - destruct (generate_test_matrices_int8 _ _ _ _ _ _ _) as [[A B] calls'].
    reflexivity.
  - destruct (generate_test_matrices_int16 _ _ _ _ _ _ _) as [[A B] calls'].
    reflexivity.
Qed.

Lemma case_counts_reference (rand : nat → Z) (malloc_junk : Z → Z)
    (tcs : list test_case_t) (calls : nat) :
  case_counts rand malloc_junk tcs calls = reference_nonzero rand malloc_junk tcs calls.
Proof.
  revert calls. induction tcs as [| tc tcs IH]; intros calls; [reflexivity |].
  rewrite case_counts_cons. cbn [reference_nonzero].
  rewrite case_buffers_hw, mismatch_count_zeroed.
  destruct (case_buffers rand malloc_junk tc calls) as [[C_hw C_ref] calls'].
  cbn [fst snd]. rewrite IH. reflexivity.
Qed.

Lemma case_counts_le_cells (rand : nat → Z) (malloc_junk : Z → Z)
    (tcs : list test_case_t) (calls : nat) :
  total_of (case_counts rand malloc_junk tcs calls) ≤ cells_of tcs.
Proof.
  revert calls. induction tcs as [| tc tcs IH]; intros calls; [reflexivity |].
  rewrite case_counts_cons, cells_of_cons. unfold total_of in *. cbn [foldr].
  pose proof (mismatch_count_bound (case_buffers rand malloc_junk tc calls).1.1
                (case_buffers rand malloc_junk tc calls).1.2 (tc_M tc * tc_N tc)).
  specialize (IH (case_buffers rand malloc_junk tc calls).2). lia.
Qed.

(** X19.  As the source stands, with the hardware output a buffer of
    zeros, [main] returns the number of nonzero cells of the eight
    reference outputs: a value between 0 and 23168, the number of cells
    compared.  The last line it prints is the verdict, "PASSED" exactly
    when that value is 0. *)
Theorem main_counts_nonzero_reference (rand : nat → Z) (malloc_junk : Z → Z) :
  (main rand malloc_junk).1 =
    total_of (reference_nonzero rand malloc_junk test_cases 0) ∧
  0 ≤ (main rand malloc_junk).1 ≤ 23168 ∧
  last (main rand malloc_junk).2 =
    Some (if (main rand malloc_junk).1 =? 0 then OutPassed else OutFailed).
Proof.
  split; [| split].
  - rewrite main_total, case_counts_reference. reflexivity.
  - rewrite main_total.
    pose proof (case_counts_nonneg rand malloc_junk test_cases 0).
    pose proof (case_counts_le_cells rand malloc_junk test_cases 0) as Hle.
    change (cells_of test_cases) with 23168 in Hle. lia.
  - unfold main.
    destruct (for_loop _ _ _) as [[total_errors calls] out].
    cbn [fst snd]. destruct (total_errors =? 0); apply last_snoc.
Qed.

(** * Properties of the kernel glue *)

Section TfLiteProperties.

Context {TfLiteType : Type} `{EqDecision TfLiteType}.
Variable kTfLiteInt8 : TfLiteType.
Variable kTfLiteInt16 : TfLiteType.

Lemma length_two {A : Type} (l : list A) :
  length l = 2%nat → ∃ x y, l = [x; y].
Proof.
  destruct l as [| x [| y [| z l]]]; try discriminate. intros _. eauto.
Qed.

(** What [ValidateTensors] accepts. *)
Lemma ValidateTensors_spec (input_a input_b output : option (@TfLiteTensor TfLiteType)) :
  ((ValidateTensors kTfLiteInt8 kTfLiteInt16 input_a input_b output).1 = kTfLiteOk ↔
   ∃ a b out m k n,
     input_a = Some a ∧ input_b = Some b ∧ output = Some out ∧
     tensors_compatible kTfLiteInt8 kTfLiteInt16 a b out m k n) ∧
  ((ValidateTensors kTfLiteInt8 kTfLiteInt16 input_a input_b output).1 = kTfLiteOk →
   (ValidateTensors kTfLiteInt8 kTfLiteInt16 input_a input_b output).2 = []).
Proof.
  unfold ValidateTensors, tensors_compatible.
  destruct input_a as [a |], input_b as [b |], output as [out |];
    try (split; [split; [discriminate | intros (? & ? & ? & ? & ? & ? & ? & ? & ? & _); discriminate] | discriminate]).
  destruct (decide (tensor_type a = tensor_type b)) as [Hab | Hab].
  2: { rewrite bool_decide_eq_false_2 by exact Hab. cbn [negb fst snd].
       split; [split; [discriminate |] | discriminate].
       intros (? & ? & ? & ? & ? & ? & [= <-] & [= <-] & _ & Ht & _). contradiction. }
  rewrite bool_decide_eq_true_2 by exact Hab. cbn [negb].
  destruct (decide (tensor_type a = kTfLiteInt8)) as [H8 | H8],
    (decide (tensor_type a = kTfLiteInt16)) as [H16 | H16];
    rewrite ?(bool_decide_eq_true_2 _ H8), ?(bool_decide_eq_false_2 _ H8),
      ?(bool_decide_eq_true_2 _ H16), ?(bool_decide_eq_false_2 _ H16);
    cbn [negb andb].
  4: { split; [split; [discriminate |] | discriminate].
       intros (? & ? & ? & ? & ? & ? & [= <-] & _ & _ & _ & [? | ?] & _); contradiction. }
  all: destruct (Nat.eqb_spec (length (tensor_dims a)) 2) as [Ha | Ha]; cbn [negb];
    [| split; [split; [discriminate |] | discriminate];
       intros (? & ? & ? & ? & ? & ? & [= <-] & _ & _ & _ & _ & Hd & _);
       rewrite Hd in Ha; contradiction].
  all: destruct (Nat.eqb_spec (length (tensor_dims b)) 2) as [Hb | Hb]; cbn [negb];
    [| split; [split; [discriminate |] | discriminate];
       intros (? & ? & ? & ? & ? & ? & _ & [= <-] & _ & _ & _ & _ & Hd & _);
       rewrite Hd in Hb; contradiction].
  all: destruct (Nat.eqb_spec (length (tensor_dims out)) 2) as [Hc | Hc]; cbn [negb];
    [| split; [split; [discriminate |] | discriminate];
       intros (? & ? & ? & ? & ? & ? & _ & _ & [= <-] & _ & _ & _ & _ & Hd);
       rewrite Hd in Hc; contradiction].
  all: destruct (length_two _ Ha) as (m & k_a & Hda),
         (length_two _ Hb) as (k_b & n & Hdb),
         (length_two _ Hc) as (o0 & o1 & Hdc);
    rewrite Hda, Hdb, Hdc; cbn [Dims lookup list_lookup];
    destruct (Z.eqb_spec k_a k_b) as [-> | Hk]; cbn [negb];
    [| split; [split; [discriminate |] | discriminate];
       intros (? & ? & ? & ? & ? & ? & [= <-] & [= <-] & [= <-] & _ & _ & Hx & Hy & _);
       rewrite Hda in Hx; rewrite Hdb in Hy; congruence];
    destruct (Z.eqb_spec o0 m) as [-> | Hm]; cbn [negb orb];
    [| split; [split; [discriminate |] | discriminate];
       intros (? & ? & ? & ? & ? & ? & [= <-] & [= <-] & [= <-] & _ & _ & Hx & _ & Hz);
       rewrite Hda in Hx; rewrite Hdc in Hz; congruence];
    destruct (Z.eqb_spec o1 n) as [-> | Hn]; cbn [negb orb fst snd];
    [| split; [split; [discriminate |] | discriminate];
       intros (? & ? & ? & ? & ? & ? & [= <-] & [= <-] & [= <-] & _ & _ & _ & Hy & Hz);
       rewrite Hdb in Hy; rewrite Hdc in Hz; congruence];
    (split; [split; [intros _ | reflexivity] | reflexivity]);
    exists a, b, out, m, k_b, n; repeat split; auto.
Qed.


(** X20.  [ValidateTensors] answers kTfLiteOk exactly when none of the
    three tensors is null, the two inputs have the same type, this type is
    int8 or int16, and the shapes are [m x k], [k x n] and [m x n] for
    some [m], [k], [n]; it then prints nothing.  It asks nothing of the
    sizes themselves: zero, negative or large dimensions pass.  A null
    tensor is refused without a message, and any other refusal prints
    exactly one message. *)
Theorem ValidateTensors_ok_iff (input_a input_b output : option (@TfLiteTensor TfLiteType)) :
  ((ValidateTensors kTfLiteInt8 kTfLiteInt16 input_a input_b output).1 = kTfLiteOk ↔
   ∃ a b out m k n,
     input_a = Some a ∧ input_b = Some b ∧ output = Some out ∧
     tensors_compatible kTfLiteInt8 kTfLiteInt16 a b out m k n) ∧
  ((ValidateTensors kTfLiteInt8 kTfLiteInt16 input_a input_b output).1 = kTfLiteOk →
   (ValidateTensors kTfLiteInt8 kTfLiteInt16 input_a input_b output).2 = []) ∧
  (input_a = None ∨ input_b = None ∨ output = None →
   ValidateTensors kTfLiteInt8 kTfLiteInt16 input_a input_b output = (kTfLiteError, [])) ∧
  (input_a ≠ None ∧ input_b ≠ None ∧ output ≠ None →
   (ValidateTensors kTfLiteInt8 kTfLiteInt16 input_a input_b output).1 = kTfLiteError →
   ∃ msg, (ValidateTensors kTfLiteInt8 kTfLiteInt16 input_a input_b output).2 = [msg]).
Proof.
  destruct (ValidateTensors_spec input_a input_b output) as [Hiff Hnil].
  split; [exact Hiff |]. split; [exact Hnil |]. clear Hiff Hnil. split.
  - unfold ValidateTensors.
    intros [-> | [-> | ->]]; [| destruct input_a | destruct input_a, input_b];
      reflexivity.
  - intros (Ha & Hb & Hc).
    destruct input_a as [a |]; [| contradiction].
    destruct input_b as [b |]; [| contradiction].
    destruct output as [out |]; [| contradiction].
    clear Ha Hb Hc. unfold ValidateTensors.
    destruct (negb (bool_decide (tensor_type a = tensor_type b))); [eauto |].
    destruct (negb (bool_decide (tensor_type a = kTfLiteInt8)) &&
              negb (bool_decide (tensor_type a = kTfLiteInt16))); [eauto |].
    destruct (Nat.eqb_spec (length (tensor_dims a)) 2) as [Hla |]; cbn [negb]; [| eauto].
    destruct (Nat.eqb_spec (length (tensor_dims b)) 2) as [Hlb |]; cbn [negb]; [| eauto].
    destruct (Nat.eqb_spec (length (tensor_dims out)) 2) as [Hlc |]; cbn [negb]; [| eauto].
    destruct (length_two _ Hla) as (m & k_a & ->), (length_two _ Hlb) as (k_b & n & ->),
      (length_two _ Hlc) as (o0 & o1 & ->).
    cbn [Dims lookup list_lookup].
    destruct (negb (k_a =? k_b)); [eauto |].
    destruct (negb (o0 =? m) || negb (o1 =? n)); [eauto | discriminate].
Qed.

Lemma uint16_range z : 0 ≤ uint16 z < 2 ^ 16.
Proof. unfold uint16. apply Z.mod_pos_bound. lia. Qed.

(** The configuration [ConvertToAccelConfig] fills in for tensors that
    passed the validation. *)
Lemma ConvertToAccelConfig_run (a b out : @TfLiteTensor TfLiteType) (m k n : Z) :
  tensors_compatible kTfLiteInt8 kTfLiteInt16 a b out m k n →
  ConvertToAccelConfig kTfLiteInt8 kTfLiteInt16 a b out =
    Some {| matrix_a_addr := uint32 (tensor_data a);
            matrix_b_addr := uint32 (tensor_data b);
            matrix_c_addr := uint32 (tensor_data out);
            m_dim := uint16 m;
            k_dim := uint16 k;
            n_dim := uint16 n;
            data_type := if bool_decide (tensor_type a = kTfLiteInt8)
                         then GEMM_DATA_TYPE_INT8 else GEMM_DATA_TYPE_INT16;
            stride_a := uint16 k;
            stride_b := uint16 n;
            stride_c := uint16 n |}.
Proof.
  intros (_ & Hty & Ha & Hb & _). unfold ConvertToAccelConfig.
  rewrite Ha, Hb. cbn [Dims lookup list_lookup mbind option_bind].
  destruct Hty as [H8 | H16].
  - rewrite (bool_decide_eq_true_2 _ H8). reflexivity.
  - rewrite (bool_decide_eq_true_2 _ H16).
    destruct (bool_decide (tensor_type a = kTfLiteInt8)); reflexivity.
Qed.

(** Whatever the tensors, the configuration fits the C types of its
    fields. *)
Lemma ConvertToAccelConfig_wf (a b out : @TfLiteTensor TfLiteType) (c : gemm_config_t) :
  ConvertToAccelConfig kTfLiteInt8 kTfLiteInt16 a b out = Some c → config_wf c.
Proof.
  unfold ConvertToAccelConfig.
  destruct (Dims (tensor_dims a) 0) as [d0 |]; cbn [mbind option_bind]; [| discriminate].
  destruct (Dims (tensor_dims a) 1) as [d1 |]; cbn [mbind option_bind]; [| discriminate].
  destruct (Dims (tensor_dims b) 1) as [d2 |]; cbn [mbind option_bind]; [| discriminate].
  intros [= <-].
  constructor; cbn [matrix_a_addr matrix_b_addr matrix_c_addr m_dim k_dim n_dim
    data_type stride_a stride_b stride_c];
    try apply uint32_range; try apply uint16_range.
  destruct (bool_decide (tensor_type a = kTfLiteInt8));
    [| destruct (bool_decide (tensor_type a = kTfLiteInt16))]; cbv; split; congruence.
Qed.

(** X21.  For tensors that passed the validation, [ConvertToAccelConfig]
    gives a configuration whose fields fit their C types, with the
    dimensions reduced modulo 65536, row-major strides and the data type of
    the inputs (the two type codes being different).  [gemm_accel_start]
    accepts its fields exactly when no dimension is a multiple of 65536; a
    dimension above 65535 that is not is silently truncated. *)
Theorem ConvertToAccelConfig_validated (a b out : @TfLiteTensor TfLiteType) (m k n : Z) :
  kTfLiteInt8 ≠ kTfLiteInt16 →
  tensors_compatible kTfLiteInt8 kTfLiteInt16 a b out m k n →
  ∃ c,
    ConvertToAccelConfig kTfLiteInt8 kTfLiteInt16 a b out = Some c ∧
    config_wf c ∧
    m_dim c = m mod 65536 ∧ k_dim c = k mod 65536 ∧ n_dim c = n mod 65536 ∧
    stride_a c = k_dim c ∧ stride_b c = n_dim c ∧ stride_c c = n_dim c ∧
    (data_type c = GEMM_DATA_TYPE_INT8 ↔ tensor_type a = kTfLiteInt8) ∧
    (data_type c = GEMM_DATA_TYPE_INT16 ↔ tensor_type a = kTfLiteInt16) ∧
    (config_valid c ↔ m mod 65536 ≠ 0 ∧ k mod 65536 ≠ 0 ∧ n mod 65536 ≠ 0).
Proof.
  intros kTfLiteInt8_not_Int16 Hcompat.
  pose proof (ConvertToAccelConfig_run _ _ _ _ _ _ Hcompat) as Hconv.
  eexists. split; [exact Hconv |].
  destruct Hcompat as (_ & Hty & _).
  pose proof (uint16_range m) as Hm. pose proof (uint16_range k) as Hk.
  pose proof (uint16_range n) as Hn.
  pose proof (uint32_range (tensor_data a)). pose proof (uint32_range (tensor_data b)).
  pose proof (uint32_range (tensor_data out)).
  assert ((if bool_decide (tensor_type a = kTfLiteInt8)
           then GEMM_DATA_TYPE_INT8 else GEMM_DATA_TYPE_INT16) = GEMM_DATA_TYPE_INT8
          ↔ tensor_type a = kTfLiteInt8) as Hi8.
  { destruct (decide (tensor_type a = kTfLiteInt8)) as [H8 | H8].
    - rewrite (bool_decide_eq_true_2 _ H8). tauto.
    - rewrite (bool_decide_eq_false_2 _ H8). split; [discriminate | contradiction]. }
  assert ((if bool_decide (tensor_type a = kTfLiteInt8)
           then GEMM_DATA_TYPE_INT8 else GEMM_DATA_TYPE_INT16) = GEMM_DATA_TYPE_INT16
          ↔ tensor_type a = kTfLiteInt16) as Hi16.
  { destruct (decide (tensor_type a = kTfLiteInt8)) as [H8 | H8].
    - rewrite (bool_decide_eq_true_2 _ H8). split; [discriminate |].
      intros H16. exfalso. apply kTfLiteInt8_not_Int16. congruence.
    - rewrite (bool_decide_eq_false_2 _ H8). split; [| reflexivity].
      intros _. destruct Hty; [contradiction | assumption]. }
  split; [exact (ConvertToAccelConfig_wf a b out _ Hconv) |].
  cbn [m_dim k_dim n_dim data_type stride_a stride_b stride_c].
  repeat (split; [reflexivity || assumption |]).
  unfold config_valid. cbn [m_dim k_dim n_dim data_type]. unfold uint16.
  change (2 ^ 16) with 65536. split; [tauto |].
  intros (? & ? & ?). repeat (split; [assumption |]).
  destruct (bool_decide (tensor_type a = kTfLiteInt8)); [left | right]; reflexivity.
Qed.

(** [gemm_accel_start] returns 0 only on an initialized driver whose
    accelerator is not busy, for a configuration it accepts. *)
Lemma gemm_accel_start_zero (st st' : state) (c : gemm_config_t) :
  config_wf c →
  gemm_accel_start (Some c) st = Some (0, st') →
  driver_initialized st = true ∧
  busy_bit (status_now st) = false ∧
  config_valid c.
Proof.
  intros Hwf. unfold gemm_accel_start, bind, get_driver_initialized.
  destruct (driver_initialized st); cbn [negb]; [| intros [= ]].
  rewrite gemm_accel_is_busy_spec.
  destruct (busy_bit (status_now st)); [intros [= ] |].
  destruct (Z.eqb_spec (m_dim c) 0); [intros [= ] |].
  destruct (Z.eqb_spec (k_dim c) 0); [intros [= ] |].
  destruct (Z.eqb_spec (n_dim c) 0); [intros [= ] |].
  cbn [orb].
  destruct (Z.ltb_spec GEMM_DATA_TYPE_INT16 (data_type c)) as [| Hty]; [intros [= ] |].
  intros _. repeat (split; [reflexivity || assumption |]).
  pose proof (wf_data_type c Hwf). unfold config_valid.
  repeat (split; [assumption |]).
  unfold GEMM_DATA_TYPE_INT16, GEMM_DATA_TYPE_INT8 in *. lia.
Qed.

(** X22.  When a tensor is null or the three tensors do not fit a product,
    [EvalCustomGemm] returns kTfLiteError for every state of the kernel,
    ends on the message of the failed validation, and has not touched the
    driver: no register is read or written and the accelerator is not
    initialized, whatever it presents. *)
Theorem EvalCustomGemm_rejects_before_driver (fuel : nat)
    (input_a input_b output : option (@TfLiteTensor TfLiteType))
    (ks : @kernel_state TfLiteType) :
  ¬ (∃ a b out m k n,
       input_a = Some a ∧ input_b = Some b ∧ output = Some out ∧
       tensors_compatible kTfLiteInt8 kTfLiteInt16 a b out m k n) →
  ∃ ks',
    EvalCustomGemm kTfLiteInt8 kTfLiteInt16 fuel input_a input_b output ks =
      Some (kTfLiteError, ks') ∧
    driver ks' = driver ks ∧
    accel_initialized ks' = accel_initialized ks ∧
    last (micro_log ks') = Some MicroValidationFailed.
Proof.
  intros Hbad. unfold EvalCustomGemm.
  destruct (ValidateTensors_spec input_a input_b output) as [[Hok _] _].
  destruct (ValidateTensors kTfLiteInt8 kTfLiteInt16 input_a input_b output)
    as [[|] msgs]; [exfalso; apply Hbad, Hok; reflexivity |].
  eexists. split; [reflexivity |]. cbn. split; [reflexivity |].
  split; [reflexivity |]. apply last_snoc.
Qed.

(** The registers after a run of the kernel that reached
    [gemm_accel_start] with the driver in state [d1]. *)
Lemma EvalCustomGemm_tail (fuel : nat) (c : gemm_config_t) (d1 d3 : state) (r2 r3 : Z)
    (d2 : state) :
  config_wf c →
  gemm_accel_start (Some c) d1 = Some (r2, d2) →
  r2 = 0 →
  gemm_accel_wait fuel d2 = Some (r3, d3) →
  config_valid c ∧ driver_initialized d3 = true ∧ regs d3 = programmed c (regs d1).
Proof.
  intros Hwf Hstart -> Hwait.
  destruct (gemm_accel_start_zero _ _ _ Hwf Hstart) as (Hinit & Hbusy & Hvalid).
  destruct (gemm_accel_start_valid d1 c Hwf Hvalid Hinit Hbusy)
    as (d2' & Hstart' & Hregs & Hinit2 & _).
  rewrite Hstart in Hstart'. injection Hstart' as <-.
  destruct (gemm_accel_wait_result fuel d2 r3 d3 Hinit2 Hwait) as (Hinit3 & Hregs3 & _).
  split; [exact Hvalid |]. split; [exact Hinit3 |]. rewrite Hregs3. exact Hregs.
Qed.

(** X23.  [EvalCustomGemm] returns kTfLiteOk only for three tensors that
    fit a product none of whose dimensions is a multiple of 65536.  The
    kernel and the driver are then initialized, the control register holds
    START, the dimension and stride registers hold the dimensions reduced
    modulo 65536 in row-major layout, the address registers the addresses
    of the three tensors, and the kernel has printed the dimensions as the
    tensors have them, then the message of success. *)
Theorem EvalCustomGemm_ok (fuel : nat)
    (input_a input_b output : option (@TfLiteTensor TfLiteType))
    (ks ks' : @kernel_state TfLiteType) :
  EvalCustomGemm kTfLiteInt8 kTfLiteInt16 fuel input_a input_b output ks =
    Some (kTfLiteOk, ks') →
  ∃ a b out m k n,
    input_a = Some a ∧ input_b = Some b ∧ output = Some out ∧
    tensors_compatible kTfLiteInt8 kTfLiteInt16 a b out m k n ∧
    (m mod 65536 ≠ 0 ∧ k mod 65536 ≠ 0 ∧ n mod 65536 ≠ 0) ∧
    accel_initialized ks' = true ∧
    driver_initialized (driver ks') = true ∧
    reg_value (driver ks') GEMM_CTRL_REG = GEMM_CTRL_START ∧
    reg_value (driver ks') GEMM_M_DIM_REG = m mod 65536 ∧
    reg_value (driver ks') GEMM_K_DIM_REG = k mod 65536 ∧
    reg_value (driver ks') GEMM_N_DIM_REG = n mod 65536 ∧
    reg_value (driver ks') GEMM_STRIDE_A_REG = k mod 65536 ∧
    reg_value (driver ks') GEMM_STRIDE_B_REG = n mod 65536 ∧
    reg_value (driver ks') GEMM_STRIDE_C_REG = n mod 65536 ∧
    reg_value (driver ks') GEMM_MATRIX_A_ADDR_REG = uint32 (tensor_data a) ∧
    reg_value (driver ks') GEMM_MATRIX_B_ADDR_REG = uint32 (tensor_data b) ∧
    reg_value (driver ks') GEMM_MATRIX_C_ADDR_REG = uint32 (tensor_data out) ∧
    micro_log ks' = micro_log ks ++ [MicroDimensions m k n; MicroCompleted].
Proof.
  unfold EvalCustomGemm.
  destruct (ValidateTensors_spec input_a input_b output) as [[Hok _] Hnil].
  destruct (ValidateTensors kTfLiteInt8 kTfLiteInt16 input_a input_b output)
    as [[|] msgs]; [| intros [= ]].
  destruct (Hok eq_refl) as (a & b & out & m & k & n & -> & -> & -> & Hcompat).
  cbn [fst snd] in Hnil. rewrite (Hnil eq_refl). clear Hok Hnil.
  pose proof (ConvertToAccelConfig_run a b out m k n Hcompat) as Hconv.
  pose proof (ConvertToAccelConfig_wf a b out _ Hconv) as Hwf.
  destruct Hcompat as (Hab & Hty & Ha & Hb & Hc).
  cbn [mbind option_bind]. rewrite Ha, Hb.
  cbn [Dims lookup list_lookup mbind option_bind].
  rewrite Hconv. cbn [mbind option_bind].
  set (c := {| matrix_a_addr := uint32 (tensor_data a) |}) in *.
  intros Hrun.
  exists a, b, out, m, k, n.
  split; [reflexivity |]. split; [reflexivity |]. split; [reflexivity |].
  split; [repeat split; assumption |].
  assert (∃ d1 d3 init,
            gemm_accel_start (Some c) d1 ≠ None ∧
            (config_valid c ∧ driver_initialized d3 = true ∧
             regs d3 = programmed c (regs d1)) ∧
            ks' = {| accel_initialized := init;
                     micro_log := (micro_log ks ++ []) ++ [MicroDimensions m k n] ++ [MicroCompleted];
                     driver := d3 |} ∧
            init = true) as (d1 & d3 & init & _ & (Hvalid & Hinit3 & Hregs3) & -> & ->).
  { revert Hrun. unfold MicroPrintf, with_driver, set_accel_initialized.
    cbn [accel_initialized micro_log driver].
    destruct (accel_initialized ks) eqn:Hflag; cbn [negb mbind option_bind accel_initialized micro_log driver].
    - destruct (gemm_accel_start (Some c) (driver ks)) as [[r2 d2] |] eqn:Hstart;
        cbn [mbind option_bind accel_initialized micro_log driver]; [| intros [= ]].
      destruct (Z.eqb_spec r2 0) as [Hr2 |]; cbn [negb accel_initialized micro_log driver]; [| intros [= ]].
      destruct (gemm_accel_wait fuel d2) as [[r3 d3] |] eqn:Hwait;
        cbn [mbind option_bind accel_initialized micro_log driver]; [| intros [= ]].
      destruct (Z.eqb_spec r3 0) as [Hr3 |]; cbn [negb accel_initialized micro_log driver]; [| intros [= ]].
      intros [= <-]. exists (driver ks), d3, true.
      split; [rewrite Hstart; discriminate |].
      split; [exact (EvalCustomGemm_tail fuel c _ _ _ _ _ Hwf Hstart Hr2 Hwait) |].
      split; [| reflexivity]. rewrite <- !app_assoc. reflexivity.
    - destruct (gemm_accel_init fuel (driver ks)) as [[r1 d1] |] eqn:Hinit;
        cbn [mbind option_bind accel_initialized micro_log driver]; [| intros [= ]].
      destruct (gemm_accel_init_result _ _ _ _ Hinit) as [-> _].
      cbn [Z.eqb negb mbind option_bind accel_initialized micro_log driver].
      destruct (gemm_accel_start (Some c) d1) as [[r2 d2] |] eqn:Hstart;
        cbn [mbind option_bind accel_initialized micro_log driver]; [| intros [= ]].
      destruct (Z.eqb_spec r2 0) as [Hr2 |]; cbn [negb accel_initialized micro_log driver]; [| intros [= ]].
      destruct (gemm_accel_wait fuel d2) as [[r3 d3] |] eqn:Hwait;
        cbn [mbind option_bind accel_initialized micro_log driver]; [| intros [= ]].
      destruct (Z.eqb_spec r3 0) as [Hr3 |]; cbn [negb accel_initialized micro_log driver]; [| intros [= ]].
      intros [= <-]. exists d1, d3, true.
      split; [rewrite Hstart; discriminate |].
      split; [exact (EvalCustomGemm_tail fuel c _ _ _ _ _ Hwf Hstart Hr2 Hwait) |].
      split; [| reflexivity]. rewrite <- !app_assoc. reflexivity. }
  cbn [accel_initialized micro_log driver].
  destruct Hvalid as (Hm & Hk & Hn & _). subst c.
  cbn [m_dim k_dim n_dim] in Hm, Hk, Hn. unfold uint16 in Hm, Hk, Hn.
  change (2 ^ 16) with 65536 in Hm, Hk, Hn.
  split; [repeat split; assumption |].
  split; [reflexivity |]. split; [exact Hinit3 |].
  pose proof (uint16_range m) as Hmr. pose proof (uint16_range k) as Hkr.
  pose proof (uint16_range n) as Hnr. unfold uint16 in Hmr, Hkr, Hnr.
  change (2 ^ 16) with 65536 in Hmr, Hkr, Hnr.
  unfold reg_value. rewrite Hregs3.
  cbn [matrix_a_addr matrix_b_addr matrix_c_addr m_dim k_dim n_dim stride_a stride_b stride_c].
  unfold uint16. change (2 ^ 16) with 65536.
  repeat (split; [reg_lookup; cbn [default from_option id];
                  first [reflexivity | apply uint32_idemp | apply uint32_small; lia] |]).
  rewrite app_nil_r. reflexivity.
Qed.

End TfLiteProperties.


(** Examples: a 65537 x 8 by 8 x 8 product of int8 tensors, and two
    tensors whose inner dimensions differ. *)

Lemma tensors_compatible_example :
  tensors_compatible 9 7 (tensor_example 9 0x80000000 65537 8)
    (tensor_example 9 0x80001000 8 8) (tensor_example 9 0x80002000 65537 8)
    65537 8 8.
Proof. repeat split. left. reflexivity. Qed.

Lemma tensors_incompatible_example :
  ¬ (∃ a b out m k n,
       Some (tensor_example 9 0x80000000 2 3) = Some a ∧
       Some (tensor_example 9 0x80001000 4 2) = Some b ∧
       Some (tensor_example 9 0x80002000 2 2) = Some out ∧
       tensors_compatible 9 7 a b out m k n).
Proof.
  intros (a & b & out & m & k & n & [= <-] & [= <-] & _ & _ & _ & Ha & Hb & _).
  cbn in Ha, Hb. congruence.
Qed.

Lemma ConvertToAccelConfig_validated_witness :
  ∃ c,
    ConvertToAccelConfig 9 7 (tensor_example 9 0x80000000 65537 8)
      (tensor_example 9 0x80001000 8 8) (tensor_example 9 0x80002000 65537 8) = Some c ∧
    m_dim c = 1 ∧ stride_a c = 8 ∧ config_valid c.
Proof.
  destruct (ConvertToAccelConfig_validated 9 7 _ _ _ 65537 8 8 ltac:(lia)
              tensors_compatible_example)
    as (c & Hc & _ & Hm & Hk & _ & Hsa & _ & _ & _ & _ & Hvalid).
  exists c. split; [exact Hc |]. split; [exact Hm |].
  split; [rewrite Hsa; exact Hk |]. apply Hvalid. repeat split; discriminate.
Defined.

Lemma EvalCustomGemm_rejects_before_driver_witness :
  ∃ ks',
    EvalCustomGemm 9 7 0 (Some (tensor_example 9 0x80000000 2 3))
      (Some (tensor_example 9 0x80001000 4 2))
      (Some (tensor_example 9 0x80002000 2 2)) (kernel_reset hw_busy) =
      Some (kTfLiteError, ks') ∧
    driver ks' = st_reset hw_busy.
Proof.
  destruct (EvalCustomGemm_rejects_before_driver 9 7 0 _ _ _ (kernel_reset hw_busy)
              tensors_incompatible_example) as (ks' & Hrun & Hdriver & _).
  exists ks'. split; [exact Hrun | exact Hdriver].
Defined.

Lemma EvalCustomGemm_ok_witness :
  ∃ ks',
    EvalCustomGemm 9 7 4 (Some (tensor_example 9 0x80000000 65537 8))
      (Some (tensor_example 9 0x80001000 8 8))
      (Some (tensor_example 9 0x80002000 65537 8)) (kernel_reset hw_example) =
      Some (kTfLiteOk, ks') ∧
    reg_value (driver ks') GEMM_M_DIM_REG = 1 ∧
    micro_log ks' = [MicroDimensions 65537 8 8; MicroCompleted].
Proof.
  destruct (EvalCustomGemm 9 7 4 (Some (tensor_example 9 0x80000000 65537 8))
              (Some (tensor_example 9 0x80001000 8 8))
              (Some (tensor_example 9 0x80002000 65537 8)) (kernel_reset hw_example))
    as [[[|] ks'] |] eqn:Hrun;
    [| vm_compute in Hrun; discriminate Hrun | vm_compute in Hrun; discriminate Hrun].
  destruct (EvalCustomGemm_ok 9 7 4 _ _ _ _ ks' Hrun)
    as (a & b & out & m & k & n & [= <-] & [= <-] & _ & (_ & _ & Ha & Hb & _) & Hrest).
  cbn in Ha, Hb. injection Ha as <- <-. injection Hb as <-.
  destruct Hrest as (_ & _ & _ & _ & Hm & _ & _ & _ & _ & _ & _ & _ & _ & Hlog).
  exists ks'. split; [reflexivity |]. split; [exact Hm | exact Hlog].
Defined.
